(** * Speech-to-Text translator: the streaming audio session core

    A shallow embedding of [LiveService] (services/liveService.ts) and of the
    two further revisions of that class kept in the repository, with the
    properties of the PCM encoder, the playback scheduler, the transcript
    aggregator and the session controller.

    The repository holds three revisions of the class.  What they share is
    defined once; what differs lives in one module per revision:
    - [LiveServiceTs] : src/services/liveService.ts
    - [Part000]       : src/unnamed/part_000
    - [Part001]       : src/unnamed/part_001 *)

From Stdlib Require Import ZArith QArith Lia Lqa.
From stdpp Require Import gmap strings list.

Open Scope Z_scope.

(** ** JavaScript numbers

    A JavaScript number is NaN, an infinity or a finite value.  Finite values
    are kept as exact rationals.  The only arithmetic the encoder performs is
    the product of a Float32Array element by 32767: a binary32 significand has
    24 bits and 32767 has 15, so the binary64 product is exact and the
    rational model computes the very number JavaScript computes.  The sign of
    zero is not kept: every consumer below maps both zeros to 0. *)

Inductive number : Type :=
| NaN : number
| Infinity (negative : bool) : number
| Fin (q : Q) : number.

Definition is_neg (q : Q) : bool := Qnum q <? 0.
Definition is_zero (q : Q) : bool := Qnum q =? 0.

(** [a * b] *)
Definition mul (a b : number) : number :=
  match a, b with
  | NaN, _ | _, NaN => NaN
  | Infinity s, Infinity t => Infinity (xorb s t)
  | Infinity s, Fin q | Fin q, Infinity s =>
      if is_zero q then NaN else Infinity (xorb s (is_neg q))
  | Fin p, Fin q => Fin (p * q)
  end.

(** [Math.min] and [Math.max] on finite values.  ECMAScript scans the
    arguments and replaces the running result only by a strictly smaller
    (larger) one, so a tie keeps the first argument. *)
Definition Qmin_js (p q : Q) : Q := if Qle_bool p q then p else q.
Definition Qmax_js (p q : Q) : Q := if Qle_bool q p then p else q.

(** [Math.min(a, b)] and [Math.max(a, b)]: NaN if either argument is NaN. *)
Definition Math_min (a b : number) : number :=
  match a, b with
  | NaN, _ | _, NaN => NaN
  | Infinity true, _ | _, Infinity true => Infinity true
  | Infinity false, y => y
  | x, Infinity false => x
  | Fin p, Fin q => Fin (Qmin_js p q)
  end.

Definition Math_max (a b : number) : number :=
  match a, b with
  | NaN, _ | _, NaN => NaN
  | Infinity false, _ | _, Infinity false => Infinity false
  | Infinity true, y => y
  | x, Infinity true => x
  | Fin p, Fin q => Fin (Qmax_js p q)
  end.

(** Truncation of a rational towards zero. *)
Definition truncate (q : Q) : Z := Z.quot (Qnum q) (Z.pos (Qden q)).

(** Reduction of an integer modulo 2^16 into the signed 16-bit range. *)
Definition wrap16 (z : Z) : Z :=
  let m := z mod 65536 in
  if 32768 <=? m then m - 65536 else m.

(** The conversion an [Int16Array] element store applies (ToInt16): NaN and
    the infinities become 0, a finite value is truncated and wrapped. *)
Definition ToInt16 (x : number) : Z :=
  match x with
  | NaN | Infinity _ => 0
  | Fin q => wrap16 (truncate q)
  end.

(** ** PCM encoder *)

(** [new Int16Array(l)]: [l] zeros. *)
Definition Int16Array (l : nat) : list Z := replicate l 0.

(** [data[i]] on a typed array: [undefined], hence NaN in arithmetic, out of
    range. *)
Definition get (data : list number) (i : nat) : number :=
  default NaN (data !! i).

(** [for (let i = start; i < l; i++) int16[i] = body(data[i]);]
    with [fuel] the number of iterations left, [l - start]. *)
Fixpoint for_loop (body : number -> number) (data : list number)
    (fuel i : nat) (int16 : list Z) : list Z :=
  match fuel with
  | O => int16
  | S fuel' =>
      for_loop body data fuel' (S i) (<[i := ToInt16 (body (get data i))]> int16)
  end.

(** [new Uint8Array(int16.buffer)]: the two bytes of every element, low byte
    first (the byte order of the typed-array buffer on little-endian hosts,
    which is what the service's [audio/pcm] format expects). *)
Definition int16_bytes (v : Z) : list Z :=
  let u := v mod 65536 in [u mod 256; u / 256].

Definition Uint8Array (int16 : list Z) : list Z :=
  flat_map int16_bytes int16.

(** Reading the buffer back: the signed 16-bit little-endian integers of a
    byte sequence. *)
Fixpoint decode_int16 (bytes : list Z) : list Z :=
  match bytes with
  | lo :: hi :: rest => wrap16 (lo + 256 * hi) :: decode_int16 rest
  | _ => []
  end.

(** The SDK's [Blob]: the payload of an inline part and of a realtime input;
    both properties are optional in the SDK's type. *)
Record Blob : Type := { data : option string; mimeType : option string }.

(** [createPcmBlob] differs between the revisions only in the expression
    stored into [int16[i]]; the loop and the packing are shared. *)
Definition pcm_int16 (body : number -> number) (data : list number) : list Z :=
  let l := length data in
  for_loop body data l 0%nat (Int16Array l).

Definition pcm_bytes (body : number -> number) (data : list number) : list Z :=
  Uint8Array (pcm_int16 body data).

(** liveService.ts: [int16[i] = data[i] * 32767]. *)
Definition scale (x : number) : number := mul x (Fin 32767).

(** part_000 and part_001:
    [int16[i] = Math.max(-1, Math.min(1, data[i])) * 32767]. *)
Definition clamp_scale (x : number) : number :=
  mul (Math_max (Fin (-1)) (Math_min (Fin 1) x)) (Fin 32767).

(** ** The service and its collaborators *)

Inductive direction : Type := input | output.

(** What the service does to the application: the three callbacks of
    [LiveCallbacks], and console output. *)
Inductive event : Type :=
| onTranscription (text : string) (type : direction) (isFinal : bool)
| onStatusChange (status : string)
| onError (error : string)
| console (message : string).

(** Objects of the browser and of the SDK are handles (natural numbers).
    Every object the service creates is recorded with its kind; its handle is
    its position in that record. *)
Inductive kind : Type :=
| AudioContext (sampleRate : Z)
| MediaStream
| LiveSession (targetLanguage : string)
| MediaStreamSource
| ScriptProcessor
| BufferSource.

Record Platform : Type := {
  objects : list kind;
  (** payloads whose [decodeAudioData] promise [playAudio] is awaiting,
      oldest first *)
  decoding : list string;
  (** the [source.start(when)] calls made so far, oldest first *)
  scheduled : list (nat * Q);
  (** the blobs handed to [session.sendRealtimeInput], oldest first *)
  sent : list Blob;
  (** the handles on which the releasing call was made: [stop()] on a buffer
      source or on the tracks of a stream, [disconnect()] on the processor,
      [close()] on a context, and [close()] on a session, which
      [disconnect] requests through the session promise *)
  released : gset nat
}.

(** The private fields of [LiveService]. *)
Record LiveService : Type := {
  sessionPromise : option nat;
  inputAudioContext : option nat;
  outputAudioContext : option nat;
  nextStartTime : Q;
  sources : gset nat;
  mediaStream : option nat;
  scriptProcessor : option nat;
  currentInput : string;
  currentOutput : string
}.

Record Sys : Type := {
  this : LiveService;
  platform : Platform;
  log : list event
}.

(** [new LiveService()] in a browser where nothing has been created yet. *)
Definition new_LiveService : LiveService :=
  {| sessionPromise := None; inputAudioContext := None;
     outputAudioContext := None; nextStartTime := 0%Q; sources := ∅;
     mediaStream := None; scriptProcessor := None;
     currentInput := ""; currentOutput := "" |}.

Definition initial : Sys :=
  {| this := new_LiveService;
     platform := {| objects := []; decoding := []; scheduled := []; sent := [];
                    released := ∅ |};
     log := [] |}.

(** *** Field updates *)

Definition set_sessionPromise (v : option nat) (t : LiveService) : LiveService :=
  {| sessionPromise := v; inputAudioContext := inputAudioContext t;
     outputAudioContext := outputAudioContext t; nextStartTime := nextStartTime t;
     sources := sources t; mediaStream := mediaStream t;
     scriptProcessor := scriptProcessor t; currentInput := currentInput t;
     currentOutput := currentOutput t |}.

Definition set_inputAudioContext (v : option nat) (t : LiveService) : LiveService :=
  {| sessionPromise := sessionPromise t; inputAudioContext := v;
     outputAudioContext := outputAudioContext t; nextStartTime := nextStartTime t;
     sources := sources t; mediaStream := mediaStream t;
     scriptProcessor := scriptProcessor t; currentInput := currentInput t;
     currentOutput := currentOutput t |}.

Definition set_outputAudioContext (v : option nat) (t : LiveService) : LiveService :=
  {| sessionPromise := sessionPromise t; inputAudioContext := inputAudioContext t;
     outputAudioContext := v; nextStartTime := nextStartTime t;
     sources := sources t; mediaStream := mediaStream t;
     scriptProcessor := scriptProcessor t; currentInput := currentInput t;
     currentOutput := currentOutput t |}.

Definition set_nextStartTime (v : Q) (t : LiveService) : LiveService :=
  {| sessionPromise := sessionPromise t; inputAudioContext := inputAudioContext t;
     outputAudioContext := outputAudioContext t; nextStartTime := v;
     sources := sources t; mediaStream := mediaStream t;
     scriptProcessor := scriptProcessor t; currentInput := currentInput t;
     currentOutput := currentOutput t |}.

Definition set_sources (v : gset nat) (t : LiveService) : LiveService :=
  {| sessionPromise := sessionPromise t; inputAudioContext := inputAudioContext t;
     outputAudioContext := outputAudioContext t; nextStartTime := nextStartTime t;
     sources := v; mediaStream := mediaStream t;
     scriptProcessor := scriptProcessor t; currentInput := currentInput t;
     currentOutput := currentOutput t |}.

Definition set_mediaStream (v : option nat) (t : LiveService) : LiveService :=
  {| sessionPromise := sessionPromise t; inputAudioContext := inputAudioContext t;
     outputAudioContext := outputAudioContext t; nextStartTime := nextStartTime t;
     sources := sources t; mediaStream := v;
     scriptProcessor := scriptProcessor t; currentInput := currentInput t;
     currentOutput := currentOutput t |}.

Definition set_scriptProcessor (v : option nat) (t : LiveService) : LiveService :=
  {| sessionPromise := sessionPromise t; inputAudioContext := inputAudioContext t;
     outputAudioContext := outputAudioContext t; nextStartTime := nextStartTime t;
     sources := sources t; mediaStream := mediaStream t;
     scriptProcessor := v; currentInput := currentInput t;
     currentOutput := currentOutput t |}.

Definition set_currentInput (v : string) (t : LiveService) : LiveService :=
  {| sessionPromise := sessionPromise t; inputAudioContext := inputAudioContext t;
     outputAudioContext := outputAudioContext t; nextStartTime := nextStartTime t;
     sources := sources t; mediaStream := mediaStream t;
     scriptProcessor := scriptProcessor t; currentInput := v;
     currentOutput := currentOutput t |}.

Definition set_currentOutput (v : string) (t : LiveService) : LiveService :=
  {| sessionPromise := sessionPromise t; inputAudioContext := inputAudioContext t;
     outputAudioContext := outputAudioContext t; nextStartTime := nextStartTime t;
     sources := sources t; mediaStream := mediaStream t;
     scriptProcessor := scriptProcessor t; currentInput := currentInput t;
     currentOutput := v |}.

(** Run an update on the service's fields, on the platform, or record a call
    made to the application. *)
Definition on_this (f : LiveService -> LiveService) (s : Sys) : Sys :=
  {| this := f (this s); platform := platform s; log := log s |}.

Definition on_platform (f : Platform -> Platform) (s : Sys) : Sys :=
  {| this := this s; platform := f (platform s); log := log s |}.

Definition call (e : event) (s : Sys) : Sys :=
  {| this := this s; platform := platform s; log := log s ++ [e] |}.

(** Creating an object: the new handle and the platform that holds it. *)
Definition create (k : kind) (p : Platform) : nat * Platform :=
  (length (objects p),
   {| objects := objects p ++ [k]; decoding := decoding p;
      scheduled := scheduled p; sent := sent p; released := released p |}).

Definition release (hs : gset nat) (p : Platform) : Platform :=
  {| objects := objects p; decoding := decoding p; scheduled := scheduled p;
     sent := sent p; released := released p ∪ hs |}.

(** Releasing through an optional reference: [ref?.close()] and the like. *)
Definition release_opt (r : option nat) (p : Platform) : Platform :=
  match r with
  | Some h => release {[h]} p
  | None => p
  end.

Definition await_decode (base64 : string) (p : Platform) : Platform :=
  {| objects := objects p; decoding := decoding p ++ [base64];
     scheduled := scheduled p; sent := sent p; released := released p |}.

Definition settle_decode (p : Platform) : Platform :=
  {| objects := objects p; decoding := tail (decoding p);
     scheduled := scheduled p; sent := sent p; released := released p |}.

Definition start (source : nat) (when : Q) (p : Platform) : Platform :=
  {| objects := objects p; decoding := decoding p;
     scheduled := scheduled p ++ [(source, when)]; sent := sent p;
     released := released p |}.

Definition sendRealtimeInput (media : Blob) (p : Platform) : Platform :=
  {| objects := objects p; decoding := decoding p; scheduled := scheduled p;
     sent := sent p ++ [media]; released := released p |}.

(** *** Inbound messages

    The part of the SDK's [LiveServerMessage] the handler reads.  An absent
    property is [None]; an absent boolean flag is [false]. *)

Record Part : Type := { inlineData : option Blob }.

Record Content : Type := { parts : option (list Part) }.

Record Transcription : Type := { text : option string }.

Record LiveServerContent : Type := {
  modelTurn : option Content;
  inputTranscription : option Transcription;
  outputTranscription : option Transcription;
  turnComplete : bool;
  interrupted : bool
}.

Record LiveServerMessage : Type := { serverContent : option LiveServerContent }.

(** Truthiness of a value that is a string or [undefined]. *)
Definition truthy (v : option string) : bool :=
  match v with
  | Some s => negb (String.eqb s "")
  | None => false
  end.

(** [s += v] for a string [s]: [undefined] is appended as its name. *)
Definition concat (s : string) (v : option string) : string :=
  s +:+ default "undefined" v.

(** [message.serverContent?.modelTurn?.parts?.[0]?.inlineData?.data]
    (liveService.ts and part_000). *)
Definition base64Audio (message : LiveServerMessage) : option string :=
  sc ← serverContent message; mt ← modelTurn sc; ps ← parts mt;
  p ← head ps; b ← inlineData p; data b.

(** [message.serverContent?.modelTurn?.parts[0]?.inlineData?.data]
    (part_001): indexing [parts] without [?.] is a TypeError when the model
    turn has no [parts]; the outer [None] stands for that exception. *)
Definition base64Audio_unchecked (message : LiveServerMessage)
    : option (option string) :=
  match serverContent message ≫= modelTurn with
  | None => Some None
  | Some mt =>
      match parts mt with
      | None => None
      | Some ps => Some (p ← head ps; b ← inlineData p; data b)
      end
  end.

(** *** Playback scheduler (the same text in the three revisions, up to the
    [try]/[catch] of [playAudio]) *)

Definition stopAllAudio (s : Sys) : Sys :=
  let s := on_platform (release (sources (this s))) s in
  let s := on_this (set_sources ∅) s in
  on_this (set_nextStartTime 0%Q) s.

(** [playAudio] up to its [await]: the guard, the update of [nextStartTime]
    from the device clock, and the call of [decodeAudioData]. *)
Definition playAudio_begin (currentTime : Q) (base64 : string) (s : Sys) : Sys :=
  match outputAudioContext (this s) with
  | None => s
  | Some _ =>
      let s := on_this (set_nextStartTime
                          (Qmax_js (nextStartTime (this s)) currentTime)) s in
      on_platform (await_decode base64) s
  end.

(** [playAudio] after its [await], for the oldest chunk being decoded.
    [audioBuffer] is the decoded buffer's [duration], or [None] when
    [decode]/[decodeAudioData] failed; [failed] is what the revision does with
    an exception (nothing in liveService.ts, a console message in the
    others).  [createBufferSource] on a reference that was reset meanwhile is
    such an exception too. *)
Definition playAudio_resume (failed : Sys -> Sys) (audioBuffer : option Q)
    (s : Sys) : Sys :=
  match decoding (platform s) with
  | [] => s
  | _ :: _ =>
      let s := on_platform settle_decode s in
      match audioBuffer, outputAudioContext (this s) with
      | Some duration, Some _ =>
          let '(source, p) := create BufferSource (platform s) in
          let s := on_platform (fun _ => p) s in
          let s := on_platform (start source (nextStartTime (this s))) s in
          let s := on_this (set_nextStartTime
                              (nextStartTime (this s) + duration)%Q) s in
          on_this (set_sources ({[source]} ∪ sources (this s))) s
      | _, _ => failed s
      end
  end.

(** The [ended] listener of a scheduled source. *)
Definition onended (source : nat) (s : Sys) : Sys :=
  on_this (set_sources (sources (this s) ∖ {[source]})) s.

(** *** Capture loop *)

Definition startStreaming (s : Sys) : Sys :=
  match inputAudioContext (this s), mediaStream (this s), sessionPromise (this s) with
  | Some _, Some _, Some _ =>
      let '(_, p) := create MediaStreamSource (platform s) in
      let '(node, p) := create ScriptProcessor p in
      on_this (set_scriptProcessor (Some node)) (on_platform (fun _ => p) s)
  | _, _, _ => s
  end.

(** [scriptProcessor.onaudioprocess]: one captured block is encoded and sent
    through the session promise, if there still is one. *)
Definition onaudioprocess (createPcmBlob : list number -> Blob)
    (inputData : list number) (s : Sys) : Sys :=
  match sessionPromise (this s) with
  | Some _ => on_platform (sendRealtimeInput (createPcmBlob inputData)) s
  | None => s
  end.

(** *** Session set-up *)

(** The calls of [connect] that can throw or reject inside its [try]. *)
Inductive step : Type :=
| new_GoogleGenAI
| new_inputAudioContext
| new_outputAudioContext
| resume_inputAudioContext
| resume_outputAudioContext
| getUserMedia.

#[global] Instance step_eq_dec : EqDecision step.
Proof. solve_decision. Defined.

(** The environment of one [connect]. *)
Record Env : Type := {
  (** [process.env.API_KEY]: [None] when reading it throws ([process] is not
      defined), [Some None] when the variable is undefined *)
  process_env_API_KEY : option (option string);
  (** [(window as any).process?.env?.API_KEY] *)
  window_process_env_API_KEY : option string;
  (** the first call of the set-up that fails, if any *)
  failure : option step
}.

Inductive completion : Type :=
| Normal (s : Sys)
| Throw (s : Sys).

Definition fails (env : Env) (st : step) : bool :=
  bool_decide (failure env = Some st).

Definition new_AudioContext (sampleRate : Z)
    (field : option nat -> LiveService -> LiveService) (s : Sys) : Sys :=
  let '(ctx, p) := create (AudioContext sampleRate) (platform s) in
  on_this (field (Some ctx)) (on_platform (fun _ => p) s).

(** The body of [connect] from [new GoogleGenAI] to [ai.live.connect], the
    same in the three revisions but for the wording of the instruction, of
    which the session record keeps the target language. *)
Definition open_session (targetLanguage : string) (env : Env) (s : Sys)
    : completion :=
  if fails env new_GoogleGenAI then Throw s else
  if fails env new_inputAudioContext then Throw s else
  let s := new_AudioContext 16000 set_inputAudioContext s in
  if fails env new_outputAudioContext then Throw s else
  let s := new_AudioContext 24000 set_outputAudioContext s in
  if fails env resume_inputAudioContext then Throw s else
  if fails env resume_outputAudioContext then Throw s else
  if fails env getUserMedia then Throw s else
  let '(stream, p) := create MediaStream (platform s) in
  let s := on_this (set_mediaStream (Some stream)) (on_platform (fun _ => p) s) in
  let '(session, p) := create (LiveSession targetLanguage) (platform s) in
  Normal (on_this (set_sessionPromise (Some session)) (on_platform (fun _ => p) s)).

(** *** The [onmessage] handler, branch by branch *)

(** [message.serverContent?.flag] for a boolean flag. *)
Definition flag (f : LiveServerContent -> bool) (message : LiveServerMessage)
    : bool :=
  match serverContent message with
  | Some sc => f sc
  | None => false
  end.

(** [if (message.serverContent?.inputTranscription) { ... }] *)
Definition on_inputTranscription (message : LiveServerMessage) (s : Sys) : Sys :=
  match serverContent message ≫= inputTranscription with
  | Some t =>
      let s := on_this (set_currentInput (concat (currentInput (this s)) (text t))) s in
      call (onTranscription (currentInput (this s)) input false) s
  | None => s
  end.

(** [if (message.serverContent?.outputTranscription) { ... }] *)
Definition on_outputTranscription (message : LiveServerMessage) (s : Sys) : Sys :=
  match serverContent message ≫= outputTranscription with
  | Some t =>
      let s := on_this (set_currentOutput (concat (currentOutput (this s)) (text t))) s in
      call (onTranscription (currentOutput (this s)) output false) s
  | None => s
  end.

(** [if (message.serverContent?.interrupted) this.stopAllAudio();] *)
Definition on_interrupted (message : LiveServerMessage) (s : Sys) : Sys :=
  if flag interrupted message then stopAllAudio s else s.

(** ** src/services/liveService.ts *)

Module LiveServiceTs.

Definition createPcmBlob (encode : list Z -> string) (data : list number) : Blob :=
  {| data := Some (encode (pcm_bytes scale data));
     mimeType := Some "audio/pcm;rate=16000" |}.

(** No [try] in this revision's [playAudio]: an exception after the [await]
    rejects the promise nobody holds. *)
Definition playAudio_end (audioBuffer : option Q) (s : Sys) : Sys :=
  playAudio_resume (fun s => s) audioBuffer s.

(** [if (base64Audio) this.playAudio(base64Audio);] *)
Definition on_audio (currentTime : Q) (message : LiveServerMessage) (s : Sys) : Sys :=
  match base64Audio message with
  | Some b => if truthy (Some b) then playAudio_begin currentTime b s else s
  | None => s
  end.

(** [if (message.serverContent?.turnComplete) { ... }]: both final calls are
    made whatever the buffers hold. *)
Definition on_turnComplete (message : LiveServerMessage) (s : Sys) : Sys :=
  if flag turnComplete message then
    let s := call (onTranscription (currentInput (this s)) input true) s in
    let s := call (onTranscription (currentOutput (this s)) output true) s in
    let s := on_this (set_currentInput "") s in
    on_this (set_currentOutput "") s
  else s.

Definition onmessage (currentTime : Q) (message : LiveServerMessage) (s : Sys) : Sys :=
  let s := on_audio currentTime message s in
  let s := on_inputTranscription message s in
  let s := on_outputTranscription message s in
  let s := on_turnComplete message s in
  on_interrupted message s.

Definition disconnect (s : Sys) : Sys :=
  let s := stopAllAudio s in
  let s := on_platform (release_opt (mediaStream (this s))) s in
  let s := on_platform (release_opt (scriptProcessor (this s))) s in
  let s := on_platform (release_opt (sessionPromise (this s))) s in
  let s := on_platform (release_opt (inputAudioContext (this s))) s in
  let s := on_platform (release_opt (outputAudioContext (this s))) s in
  on_this (set_sessionPromise None) s.

Definition onopen (s : Sys) : Sys :=
  startStreaming (call (onStatusChange "LISTENING") s).

Definition onerror (s : Sys) : Sys :=
  let s := call (console "Connection Error:") s in
  let s := call (onError "Connection to Gemini failed.") s in
  disconnect s.

Definition onclose (s : Sys) : Sys := call (onStatusChange "IDLE") s.

Definition catch (s : Sys) : Sys :=
  let s := call (console "Setup Error:") s in
  call (onError "Microphone access denied or audio error.") s.

Definition connect (targetLanguage : string) (env : Env) (s : Sys) : Sys :=
  match process_env_API_KEY env with
  | None => catch s
  | Some apiKey =>
      if negb (truthy apiKey) then
        let msg := "API Key is missing from environment variables (process.env.API_KEY)." in
        let s := call (console msg) s in
        call (onError msg) s
      else
        match open_session targetLanguage env s with
        | Normal s => s
        | Throw s => catch s
        end
  end.

End LiveServiceTs.

(** ** src/unnamed/part_000 *)

Module Part000.

Definition createPcmBlob (encode : list Z -> string) (data : list number) : Blob :=
  {| data := Some (encode (pcm_bytes clamp_scale data));
     mimeType := Some "audio/pcm;rate=16000" |}.

Definition playAudio_end (audioBuffer : option Q) (s : Sys) : Sys :=
  playAudio_resume (call (console "Audio chunk playback failed:")) audioBuffer s.

(** [if (base64Audio && this.outputAudioContext) { this.playAudio(base64Audio); }] *)
Definition on_audio (currentTime : Q) (message : LiveServerMessage) (s : Sys) : Sys :=
  match base64Audio message, outputAudioContext (this s) with
  | Some b, Some _ => if truthy (Some b) then playAudio_begin currentTime b s else s
  | _, _ => s
  end.

(** [if (message.serverContent?.turnComplete) { ... }]: a final call is made
    for a buffer that is a non-empty string. *)
Definition on_turnComplete (message : LiveServerMessage) (s : Sys) : Sys :=
  if flag turnComplete message then
    let s := if truthy (Some (currentInput (this s)))
             then call (onTranscription (currentInput (this s)) input true) s
             else s in
    let s := if truthy (Some (currentOutput (this s)))
             then call (onTranscription (currentOutput (this s)) output true) s
             else s in
    let s := on_this (set_currentInput "") s in
    on_this (set_currentOutput "") s
  else s.

Definition onmessage (currentTime : Q) (message : LiveServerMessage) (s : Sys) : Sys :=
  let s := on_audio currentTime message s in
  let s := on_inputTranscription message s in
  let s := on_outputTranscription message s in
  let s := on_turnComplete message s in
  on_interrupted message s.

Definition disconnect (s : Sys) : Sys :=
  let s := stopAllAudio s in
  let s := on_this (set_mediaStream None)
             (on_platform (release_opt (mediaStream (this s))) s) in
  let s := on_this (set_scriptProcessor None)
             (on_platform (release_opt (scriptProcessor (this s))) s) in
  let s := on_platform (release_opt (sessionPromise (this s))) s in
  let s := on_platform (release_opt (inputAudioContext (this s))) s in
  let s := on_platform (release_opt (outputAudioContext (this s))) s in
  let s := on_this (set_sessionPromise None) s in
  let s := on_this (set_inputAudioContext None) s in
  on_this (set_outputAudioContext None) s.

Definition onopen (s : Sys) : Sys :=
  let s := call (console "Live session connected") s in
  startStreaming (call (onStatusChange "LISTENING") s).

Definition onerror (s : Sys) : Sys :=
  let s := call (console "Live API WebSocket Error:") s in
  let s := call (onError "Network connection failed. Please check your internet or API key permissions.") s in
  disconnect s.

Definition onclose (s : Sys) : Sys :=
  call (onStatusChange "IDLE") (call (console "Live session closed:") s).

Definition catch (s : Sys) : Sys :=
  let s := call (console "Connection failed during setup:") s in
  let s := call (onError "Audio initialization failed. Please ensure microphone access is granted.") s in
  call (onStatusChange "IDLE") s.

(** [(typeof process !== 'undefined' && process.env?.API_KEY)
     || (window as any).process?.env?.API_KEY || ''] *)
Definition apiKey (env : Env) : string :=
  let first := process_env_API_KEY env ≫= id in
  if truthy first then default "" first
  else if truthy (window_process_env_API_KEY env)
       then default "" (window_process_env_API_KEY env)
       else "".

Definition connect (targetLanguage : string) (env : Env) (s : Sys) : Sys :=
  if negb (truthy (Some (apiKey env))) then
    let s := call (console "API_KEY is not defined in environment variables.") s in
    let s := call (onError "API Key missing. Please set API_KEY in your environment settings.") s in
    call (onStatusChange "ERROR") s
  else
    match open_session targetLanguage env s with
    | Normal s => s
    | Throw s => catch s
    end.

End Part000.

(** ** src/unnamed/part_001 *)

Module Part001.

Definition createPcmBlob (encode : list Z -> string) (data : list number) : Blob :=
  {| data := Some (encode (pcm_bytes clamp_scale data));
     mimeType := Some "audio/pcm;rate=16000" |}.

Definition playAudio_end (audioBuffer : option Q) (s : Sys) : Sys :=
  playAudio_resume (call (console "Audio playback error:")) audioBuffer s.

(** [if (message.serverContent?.turnComplete) { ... }]: as in
    liveService.ts, both final calls are made whatever the buffers hold. *)
Definition on_turnComplete (message : LiveServerMessage) (s : Sys) : Sys :=
  if flag turnComplete message then
    let s := call (onTranscription (currentInput (this s)) input true) s in
    let s := call (onTranscription (currentOutput (this s)) output true) s in
    let s := on_this (set_currentInput "") s in
    on_this (set_currentOutput "") s
  else s.

(** The handler is [async]: the TypeError of the unchecked index rejects its
    promise before any branch has run. *)
Definition onmessage (currentTime : Q) (message : LiveServerMessage) (s : Sys) : Sys :=
  match base64Audio_unchecked message with
  | None => s
  | Some audio =>
      let s := match audio, outputAudioContext (this s) with
               | Some b, Some _ =>
                   if truthy (Some b) then playAudio_begin currentTime b s else s
               | _, _ => s
               end in
      let s := on_inputTranscription message s in
      let s := on_outputTranscription message s in
      let s := on_turnComplete message s in
      on_interrupted message s
  end.

Definition disconnect (s : Sys) : Sys :=
  let s := stopAllAudio s in
  let s := on_this (set_mediaStream None)
             (on_platform (release_opt (mediaStream (this s))) s) in
  let s := on_this (set_scriptProcessor None)
             (on_platform (release_opt (scriptProcessor (this s))) s) in
  let s := on_platform (release_opt (sessionPromise (this s))) s in
  let s := on_platform (release_opt (inputAudioContext (this s))) s in
  let s := on_platform (release_opt (outputAudioContext (this s))) s in
  let s := on_this (set_sessionPromise None) s in
  let s := on_this (set_inputAudioContext None) s in
  on_this (set_outputAudioContext None) s.

Definition onopen (s : Sys) : Sys :=
  startStreaming (call (onStatusChange "LISTENING") s).

(** No teardown here: the handler reports and returns. *)
Definition onerror (s : Sys) : Sys :=
  let s := call (console "Live API Error:") s in
  call (onError "Network or API error occurred. Please verify your connection.") s.

Definition onclose (s : Sys) : Sys :=
  call (onStatusChange "IDLE") (call (console "Live session closed:") s).

Definition catch (s : Sys) : Sys :=
  let s := call (console "Connection setup failed:") s in
  call (onError "Could not initialize audio or reach the AI service.") s.

(** No check of the key: it is passed on to [new GoogleGenAI] as it is. *)
Definition connect (targetLanguage : string) (env : Env) (s : Sys) : Sys :=
  match process_env_API_KEY env with
  | None => catch s
  | Some _ =>
      match open_session targetLanguage env s with
      | Normal s => s
      | Throw s => catch s
      end
  end.

End Part001.

(** ** Notions used in the statements *)


(** One chunk of synthesized speech as the scheduler meets it: its payload,
    the device clock when [playAudio] is called, and the duration of the
    buffer it decodes to. *)
Record chunk : Type := { payload : string; currentTime : Q; duration : Q }.

(** A chunk enqueued and decoded before the next one arrives: [playAudio]
    run from its first line to its last.  [failed] is the revision's
    exception handler, see [playAudio_resume]. *)
Definition enqueue (failed : Sys -> Sys) (c : chunk) (s : Sys) : Sys :=
  playAudio_resume failed (Some (duration c))
    (playAudio_begin (currentTime c) (payload c) s).

Definition enqueue_all (failed : Sys -> Sys) (cs : list chunk) (s : Sys) : Sys :=
  fold_left (fun s c => enqueue failed c s) cs s.

(** The start times the scheduler's rule prescribes: each chunk starts at
    [max(lastScheduledEnd, deviceCurrentTime)], and [lastScheduledEnd] then
    advances by the chunk's duration. *)
Fixpoint schedule (lastScheduledEnd : Q) (cs : list chunk) : list Q :=
  match cs with
  | [] => []
  | c :: cs' =>
      let when := Qmax_js lastScheduledEnd (currentTime c) in
      when :: schedule (when + duration c)%Q cs'
  end.

(** The scheduled end after these chunks. *)
Fixpoint schedule_end (lastScheduledEnd : Q) (cs : list chunk) : Q :=
  match cs with
  | [] => lastScheduledEnd
  | c :: cs' =>
      schedule_end (Qmax_js lastScheduledEnd (currentTime c) + duration c)%Q cs'
  end.


(** The start times added to the platform's record between two states. *)
Definition starts_since (s s' : Sys) : list Q :=
  drop (length (scheduled (platform s))) (map snd (scheduled (platform s'))).

(** A text encoding of bytes to run examples with, one character per byte;
    the service's own [encode] (utils/audioUtils) stays a parameter. *)
Definition chars (bytes : list Z) : string :=
  String.string_of_list_ascii (map (fun b => Ascii.ascii_of_nat (Z.to_nat b)) bytes).

(** A service whose output context exists: the state after a [connect] that
    met no failure. *)
Definition connected : Sys :=
  LiveServiceTs.connect "Spanish"
    {| process_env_API_KEY := Some (Some "key");
       window_process_env_API_KEY := None; failure := None |} initial.

(** The same once the session has opened and the capture loop runs. *)
Definition listening : Sys := LiveServiceTs.onopen connected.

(** Two chunks enqueued and still pending. *)
Definition playing : Sys :=
  enqueue_all (fun s => s)
    [ {| payload := "AAAA"; currentTime := 1; duration := 1 # 2 |};
      {| payload := "BBBB"; currentTime := 5 # 4; duration := 1 # 4 |} ]
    listening.

(** A message with one flag of the server content set and nothing else. *)
Definition signal (turnComplete interrupted : bool) : LiveServerMessage :=
  {| serverContent :=
       Some {| modelTurn := None; inputTranscription := None;
               outputTranscription := None; turnComplete := turnComplete;
               interrupted := interrupted |} |}.

(** A message that carries one transcription fragment. *)
Definition fragment (d : direction) (t : string) : LiveServerMessage :=
  {| serverContent :=
       Some {| modelTurn := None;
               inputTranscription :=
                 match d with input => Some {| text := Some t |} | output => None end;
               outputTranscription :=
                 match d with output => Some {| text := Some t |} | input => None end;
               turnComplete := false; interrupted := false |} |}.

(** The calls made to the application between two states. *)
Definition emitted (s s' : Sys) : list event :=
  drop (length (log s)) (log s').

(** The fragment buffer of a direction. *)
Definition buffer (d : direction) (t : LiveService) : string :=
  match d with
  | input => currentInput t
  | output => currentOutput t
  end.

Definition direction_eqb (d d' : direction) : bool :=
  match d, d' with
  | input, input | output, output => true
  | _, _ => false
  end.

(** The texts of the [onTranscription] calls of a direction with the given
    [isFinal], in the order of the calls. *)
Definition transcriptions (isFinal : bool) (d : direction) (l : list event)
    : list string :=
  flat_map (fun e =>
              match e with
              | onTranscription t d' f =>
                  if direction_eqb d d' && Bool.eqb f isFinal then [t] else []
              | _ => []
              end) l.

(** Each earlier text is a prefix of each later text. *)
Definition chain (l : list string) : Prop :=
  forall (i j : nat) (a b : string),
    (i <= j)%nat -> l !! i = Some a -> l !! j = Some b -> String.prefix a b = true.

Definition is_onError (e : event) : bool :=
  match e with
  | onError _ => true
  | _ => false
  end.

(** The inbound message carries none of the signals the handler looks at. *)
Definition no_signal (message : LiveServerMessage) : Prop :=
  truthy (base64Audio message) = false /\
  serverContent message ≫= inputTranscription = None /\
  serverContent message ≫= outputTranscription = None /\
  flag turnComplete message = false /\
  flag interrupted message = false.

(** *** Runs of a session

    Everything that can happen to the service once it exists: the calls of
    its two public methods and the events its handlers are registered for. *)
Inductive occurrence : Type :=
| Connect (targetLanguage : string) (env : Env)
| Disconnect
| Open
| Message (currentTime : Q) (message : LiveServerMessage)
| Error
| Close
| Decoded (audioBuffer : option Q)
| Ended (source : nat)
| AudioProcess (inputData : list number).

(** The methods and handlers of one revision. *)
Record revision : Type := {
  rev_connect : string -> Env -> Sys -> Sys;
  rev_disconnect : Sys -> Sys;
  rev_onopen : Sys -> Sys;
  rev_onmessage : Q -> LiveServerMessage -> Sys -> Sys;
  rev_onerror : Sys -> Sys;
  rev_onclose : Sys -> Sys;
  rev_playAudio_end : option Q -> Sys -> Sys;
  rev_createPcmBlob : (list Z -> string) -> list number -> Blob
}.

Definition liveService_ts : revision :=
  {| rev_connect := LiveServiceTs.connect;
     rev_disconnect := LiveServiceTs.disconnect;
     rev_onopen := LiveServiceTs.onopen;
     rev_onmessage := LiveServiceTs.onmessage;
     rev_onerror := LiveServiceTs.onerror;
     rev_onclose := LiveServiceTs.onclose;
     rev_playAudio_end := LiveServiceTs.playAudio_end;
     rev_createPcmBlob := LiveServiceTs.createPcmBlob |}.

Definition part_000 : revision :=
  {| rev_connect := Part000.connect;
     rev_disconnect := Part000.disconnect;
     rev_onopen := Part000.onopen;
     rev_onmessage := Part000.onmessage;
     rev_onerror := Part000.onerror;
     rev_onclose := Part000.onclose;
     rev_playAudio_end := Part000.playAudio_end;
     rev_createPcmBlob := Part000.createPcmBlob |}.

Definition part_001 : revision :=
  {| rev_connect := Part001.connect;
     rev_disconnect := Part001.disconnect;
     rev_onopen := Part001.onopen;
     rev_onmessage := Part001.onmessage;
     rev_onerror := Part001.onerror;
     rev_onclose := Part001.onclose;
     rev_playAudio_end := Part001.playAudio_end;
     rev_createPcmBlob := Part001.createPcmBlob |}.

Definition react (r : revision) (encode : list Z -> string) (o : occurrence)
    (s : Sys) : Sys :=
  match o with
  | Connect targetLanguage env => rev_connect r targetLanguage env s
  | Disconnect => rev_disconnect r s
  | Open => rev_onopen r s
  | Message currentTime message => rev_onmessage r currentTime message s
  | Error => rev_onerror r s
  | Close => rev_onclose r s
  | Decoded audioBuffer => rev_playAudio_end r audioBuffer s
  | Ended source => onended source s
  | AudioProcess inputData => onaudioprocess (rev_createPcmBlob r encode) inputData s
  end.

Definition run (r : revision) (encode : list Z -> string) (os : list occurrence)
    (s : Sys) : Sys :=
  fold_left (fun s o => react r encode o s) os s.

(** The occurrence is an inbound message with the turn-complete signal. *)
Definition completes_turn (o : occurrence) : bool :=
  match o with
  | Message _ message => flag turnComplete message
  | _ => false
  end.

(** One step of a run seen from the partial transcriptions of a direction:
    the step made no partial call for the direction and, if it [keeps] the
    turn open, left the buffer as it was. *)
Definition quiet (d : direction) (keeps : bool) (s s' : Sys) : Prop :=
  exists l, log s' = log s ++ l /\
    transcriptions false d l = [] /\
    (keeps = true -> buffer d (this s') = buffer d (this s)).

(** ... or it made at most one partial call, whose text is the buffer with
    a fragment appended, which is the new buffer if it [keeps] the turn
    open. *)
Definition advance (d : direction) (keeps : bool) (s s' : Sys) : Prop :=
  quiet d keeps s s' \/
  exists l x, log s' = log s ++ l /\
    transcriptions false d l = [buffer d (this s) +:+ x] /\
    (keeps = true -> buffer d (this s') = buffer d (this s) +:+ x).

(** The handles of an optional reference. *)
Definition handle (r : option nat) : gset nat :=
  match r with
  | Some h => {[h]}
  | None => ∅
  end.

(** The handles the service holds: its pending sources, its stream, its
    processor, its session and its two contexts. *)
Definition held (t : LiveService) : gset nat :=
  sources t ∪ handle (mediaStream t) ∪ handle (scriptProcessor t) ∪
  handle (sessionPromise t) ∪ handle (inputAudioContext t) ∪
  handle (outputAudioContext t).

(** The environment holds no API key: neither of the two places part_000
    looks at has a non-empty string (liveService.ts looks at the first). *)
Definition key_absent (env : Env) : Prop :=
  truthy (process_env_API_KEY env ≫= id) = false /\
  truthy (window_process_env_API_KEY env) = false.

Definition count_onError (l : list event) : nat :=
  length (List.filter is_onError l).

(** ** Further notions: the encoder *)

(** [-x] *)
Definition neg (x : number) : number :=
  match x with
  | NaN => NaN
  | Infinity negative => Infinity (negb negative)
  | Fin q => Fin (- q)
  end.

(** The order of the values; NaN is not ordered with anything. *)
Definition number_le (a b : number) : Prop :=
  match a, b with
  | NaN, _ | _, NaN => False
  | Infinity true, _ => True
  | _, Infinity false => True
  | Fin p, Fin q => (p <= q)%Q
  | _, _ => False
  end.

(** A sample within the nominal range [-1, 1], or NaN. *)
Definition nominal (x : number) : Prop :=
  match x with
  | NaN => True
  | Infinity _ => False
  | Fin q => (-1 <= q)%Q /\ (q <= 1)%Q
  end.

(** ** Further notions: the scheduler *)




(** ** Further notions: references *)

(** Every reference the service holds leads to an object of the kind the
    field is for, and so does every source that was started. *)
Record well_formed (s : Sys) : Prop := {
  wf_input : forall h, inputAudioContext (this s) = Some h ->
    objects (platform s) !! h = Some (AudioContext 16000);
  wf_output : forall h, outputAudioContext (this s) = Some h ->
    objects (platform s) !! h = Some (AudioContext 24000);
  wf_stream : forall h, mediaStream (this s) = Some h ->
    objects (platform s) !! h = Some MediaStream;
  wf_session : forall h, sessionPromise (this s) = Some h ->
    exists targetLanguage, objects (platform s) !! h = Some (LiveSession targetLanguage);
  wf_processor : forall h, scriptProcessor (this s) = Some h ->
    objects (platform s) !! h = Some ScriptProcessor;
  wf_sources : forall h, h ∈ sources (this s) ->
    objects (platform s) !! h = Some BufferSource;
  wf_scheduled : forall h when, (h, when) ∈ scheduled (platform s) ->
    objects (platform s) !! h = Some BufferSource
}.

(** The occurrence is a call of [connect]. *)
Definition is_connect (o : occurrence) : bool :=
  match o with
  | Connect _ _ => true
  | _ => false
  end.

(** The service has no output context and nothing pending. *)
Definition silent (s : Sys) : Prop :=
  outputAudioContext (this s) = None /\ sources (this s) = ∅.

(** A step that leaves the output context, the pending set and the record
    of started sources alone. *)
Definition same_scheduler (s s' : Sys) : Prop :=
  outputAudioContext (this s') = outputAudioContext (this s) /\
  sources (this s') = sources (this s) /\
  scheduled (platform s') = scheduled (platform s).

(** ** Further notions: set-up *)

(** The contexts [connect] has created when the given call fails. *)
Definition opened_before (st : step) : list kind :=
  match st with
  | new_GoogleGenAI | new_inputAudioContext => []
  | new_outputAudioContext => [AudioContext 16000]
  | resume_inputAudioContext | resume_outputAudioContext | getUserMedia =>
      [AudioContext 16000; AudioContext 24000]
  end.

(** The environment holds this non-empty key where every revision reads
    it. *)
Definition key_present (env : Env) (key : string) : Prop :=
  process_env_API_KEY env = Some (Some key) /\ key <> "".

(** The same message without its model turn. *)
Definition without_modelTurn (message : LiveServerMessage) : LiveServerMessage :=
  {| serverContent :=
       match serverContent message with
       | Some sc =>
           Some {| modelTurn := None;
                   inputTranscription := inputTranscription sc;
                   outputTranscription := outputTranscription sc;
                   turnComplete := turnComplete sc;
                   interrupted := interrupted sc |}
       | None => None
       end |}.

(** The message has a model turn that has no [parts]. *)
Definition turn_without_parts (message : LiveServerMessage) : Prop :=
  exists mt, serverContent message ≫= modelTurn = Some mt /\ parts mt = None.

(** ** Further notions: transcripts *)

Definition transcription (d : direction) (sc : LiveServerContent) : option Transcription :=
  match d with
  | input => inputTranscription sc
  | output => outputTranscription sc
  end.

(** The text a message appends to the buffer of a direction, if it carries a
    transcription of that direction. *)
Definition fragment_text (d : direction) (message : LiveServerMessage) : option string :=
  t ← serverContent message ≫= transcription d; Some (default "undefined" (text t)).

Definition appended (d : direction) (message : LiveServerMessage) (b : string) : string :=
  match fragment_text d message with
  | Some x => b +:+ x
  | None => b
  end.

(** The [onTranscription] calls one message gives rise to, from the buffers
    [ci] and [co] it finds: the partial calls, then, on turn completion, the
    final calls, which are [conditional] on a non-empty text in part_000. *)
Definition message_events (conditional : bool) (message : LiveServerMessage)
    (ci co : string) : list event :=
  let ci' := appended input message ci in
  let co' := appended output message co in
  match fragment_text input message with
   | Some _ => [onTranscription ci' input false]
   | None => []
   end ++
  match fragment_text output message with
   | Some _ => [onTranscription co' output false]
   | None => []
   end ++
  (if flag turnComplete message then
     (if conditional && (ci' =? "")%string then [] else [onTranscription ci' input true]) ++
     (if conditional && (co' =? "")%string then [] else [onTranscription co' output true])
   else []).

(** The buffer a message leaves behind. *)
Definition buffer_after (d : direction) (message : LiveServerMessage) (b : string) : string :=
  if flag turnComplete message then "" else appended d message b.

Definition is_transcription (e : event) : bool :=
  match e with
  | onTranscription _ _ _ => true
  | _ => false
  end.

(** A step that makes no [onTranscription] call and keeps both buffers. *)
Definition mute (s s' : Sys) : Prop :=
  exists l, log s' = log s ++ l /\
    Forall (fun e => is_transcription e = false) l /\
    currentInput (this s') = currentInput (this s) /\
    currentOutput (this s') = currentOutput (this s).

(** The [onTranscription] calls an occurrence gives rise to: only an inbound
    message makes any. *)
Definition occurrence_events (conditional : bool) (o : occurrence) (ci co : string)
    : list event :=
  match o with
  | Message _ message => message_events conditional message ci co
  | _ => []
  end.

(** The buffer an occurrence leaves behind. *)
Definition occurrence_buffer (d : direction) (o : occurrence) (b : string) : string :=
  match o with
  | Message _ message => buffer_after d message b
  | _ => b
  end.

(** The buffer after a run, from the buffer [b] at its start. *)
Definition accumulated (d : direction) (os : list occurrence) (b : string) : string :=
  fold_left (fun b o => occurrence_buffer d o b) os b.

(** Every fragment of a direction that the messages of a run carry, in the
    order of arrival. *)
Definition fragments (d : direction) (os : list occurrence) : string :=
  fold_left (fun b o =>
               match o with
               | Message _ message => appended d message b
               | _ => b
               end) os "".

(** An inbound message whose model turn, if it has one, has [parts]. *)
Definition with_parts (o : occurrence) : Prop :=
  match o with
  | Message _ message => ~ turn_without_parts message
  | _ => True
  end.

(** A final call with an empty text. *)
Definition empty_final (e : event) : bool :=
  match e with
  | onTranscription t _ true => (t =? "")%string
  | _ => false
  end.

(** What a step does to the transcripts: the [onTranscription] calls it
    makes, after calls of other kinds, and the buffers it leaves. *)
Definition transcribes (conditional : bool) (o : occurrence) (s s' : Sys) : Prop :=
  exists l,
    log s' = log s ++ l ++
      occurrence_events conditional o (currentInput (this s)) (currentOutput (this s)) /\
    Forall (fun e => is_transcription e = false) l /\
    currentInput (this s') = occurrence_buffer input o (currentInput (this s)) /\
    currentOutput (this s') = occurrence_buffer output o (currentOutput (this s)).

(** ** src/App.tsx *)

Module App.

(** types.ts: [AppStatus] is a string enum, and the service reports its
    status under the same names ([s as AppStatus]). *)
Definition IDLE : string := "IDLE".
Definition CONNECTING : string := "CONNECTING".
Definition LISTENING : string := "LISTENING".
Definition ERROR : string := "ERROR".

(** types.ts: [TranscriptItem]; the time stamp is an instant. *)
Record TranscriptItem : Type := {
  id : string;
  text : string;
  type : direction;
  timestamp : Q
}.

(** The six [useState] cells of the component. *)
Record State : Type := {
  status : string;
  targetLang : string;
  transcripts : list TranscriptItem;
  currentInput : string;
  currentOutput : string;
  error : option string
}.

(** The state of the first render. *)
Definition mounted : State :=
  {| status := IDLE; targetLang := "English"; transcripts := [];
     currentInput := ""; currentOutput := ""; error := None |}.

Definition setStatus (v : string) (a : State) : State :=
  {| status := v; targetLang := targetLang a; transcripts := transcripts a;
     currentInput := currentInput a; currentOutput := currentOutput a;
     error := error a |}.

Definition setTargetLang (v : string) (a : State) : State :=
  {| status := status a; targetLang := v; transcripts := transcripts a;
     currentInput := currentInput a; currentOutput := currentOutput a;
     error := error a |}.

(** [setTranscripts] takes an update of the previous value. *)
Definition setTranscripts (f : list TranscriptItem -> list TranscriptItem) (a : State)
    : State :=
  {| status := status a; targetLang := targetLang a; transcripts := f (transcripts a);
     currentInput := currentInput a; currentOutput := currentOutput a;
     error := error a |}.

Definition setCurrentInput (v : string) (a : State) : State :=
  {| status := status a; targetLang := targetLang a; transcripts := transcripts a;
     currentInput := v; currentOutput := currentOutput a; error := error a |}.

Definition setCurrentOutput (v : string) (a : State) : State :=
  {| status := status a; targetLang := targetLang a; transcripts := transcripts a;
     currentInput := currentInput a; currentOutput := v; error := error a |}.

Definition setError (v : option string) (a : State) : State :=
  {| status := status a; targetLang := targetLang a; transcripts := transcripts a;
     currentInput := currentInput a; currentOutput := currentOutput a; error := v |}.

(** What [Math.random().toString(36).substr(2, 9)] and [new Date()] give at
    one call of the handler. *)
Definition Entropy : Type := (string * Q)%type.

Definition handleTranscription (e : Entropy) (text : string) (type : direction)
    (isFinal : bool) (a : State) : State :=
  if isFinal then
    let a := setTranscripts
               (fun prev => prev ++ [{| id := fst e; text := text; type := type;
                                        timestamp := snd e |}]) a in
    match type with
    | input => setCurrentInput "" a
    | output => setCurrentOutput "" a
    end
  else
    match type with
    | input => setCurrentInput text a
    | output => setCurrentOutput text a
    end.

(** The callbacks [toggleListen] hands to [connect], at one call the service
    makes; what the service writes to the console does not reach the
    component. *)
Definition callback (e : Entropy) (c : event) (a : State) : State :=
  match c with
  | onTranscription text type isFinal => handleTranscription e text type isFinal a
  | onStatusChange s => setStatus s a
  | onError m => setStatus ERROR (setError (Some m) a)
  | console _ => a
  end.

(** The calls of the service in their order; [random n] is the entropy of
    the [n]-th of them. *)
Fixpoint deliver (random : nat -> Entropy) (l : list event) (a : State) : State :=
  match l with
  | [] => a
  | c :: l => deliver (fun n => random (S n)) l (callback (random 0%nat) c a)
  end.

(** The component together with the service it drives. *)
Definition World : Type := (State * Sys)%type.

Definition toggleListen (service : revision) (random : nat -> Entropy) (env : Env)
    (w : World) : World :=
  let '(a, s) := w in
  if (status a =? IDLE)%string then
    let a := setError None a in
    let a := setStatus CONNECTING a in
    let s' := rev_connect service (targetLang a) env s in
    (deliver random (emitted s s') a, s')
  else
    let s' := rev_disconnect service s in
    (setStatus IDLE (deliver random (emitted s s') a), s').

Definition clearHistory (a : State) : State :=
  setCurrentOutput "" (setCurrentInput "" (setTranscripts (fun _ => []) a)).

(** What can happen to the mounted component: a click on the main button,
    on the clear button, a choice in the selector, or something the service
    reacts to on its own. *)
Inductive action : Type :=
| Click (env : Env)
| ClearHistory
| Select (lang : string)
| Service (o : occurrence).

(** The main button is disabled while the status is CONNECTING, the clear
    button exists only when there are transcripts, the selector is disabled
    unless the status is IDLE. *)
Definition perform (service : revision) (encode : list Z -> string)
    (random : nat -> Entropy) (x : action) (w : World) : World :=
  let '(a, s) := w in
  match x with
  | Click env =>
      if (status a =? CONNECTING)%string then w
      else toggleListen service random env w
  | ClearHistory =>
      match transcripts a with
      | [] => w
      | _ :: _ => (clearHistory a, s)
      end
  | Select lang =>
      if (status a =? IDLE)%string then (setTargetLang lang a, s) else w
  | Service o =>
      let s' := react service encode o s in
      (deliver random (emitted s s') a, s')
  end.

(** A session of the component: [random k] is the entropy of the [k]-th
    action. *)
Fixpoint session (service : revision) (encode : list Z -> string)
    (random : nat -> nat -> Entropy) (xs : list action) (w : World) : World :=
  match xs with
  | [] => w
  | x :: xs =>
      session service encode (fun k => random (S k)) xs
        (perform service encode (random 0%nat) x w)
  end.

(** The action is a click on the clear button. *)
Definition is_clear (x : action) : bool :=
  match x with
  | ClearHistory => true
  | _ => false
  end.

End App.

(** The partial texts on display are the buffers of the service. *)
Definition in_sync (w : App.World) : Prop :=
  App.currentInput (fst w) = currentInput (this (snd w)) /\
  App.currentOutput (fst w) = currentOutput (this (snd w)).

(** A transcript item with a text. *)
Definition worded (i : App.TranscriptItem) : Prop := App.text i <> "".

(** The status is one of the four values of [AppStatus]. *)
Definition is_AppStatus (v : string) : Prop :=
  v = App.IDLE \/ v = App.CONNECTING \/ v = App.LISTENING \/ v = App.ERROR.

(** The call of the service reports no status or a value of [AppStatus]. *)
Definition reports_AppStatus (e : event) : Prop :=
  match e with
  | onStatusChange v => is_AppStatus v
  | _ => True
  end.

(** A step whose calls all report values of [AppStatus]. *)
Definition reporting (s s' : Sys) : Prop :=
  exists l, log s' = log s ++ l /\ Forall reports_AppStatus l.

(** The text and the direction of the items of the history. *)
Definition wording (items : list App.TranscriptItem) : list (string * direction) :=
  map (fun i => (App.text i, App.type i)) items.

(** The text and the direction of the final calls among the calls. *)
Definition finals (l : list event) : list (string * direction) :=
  flat_map (fun e =>
              match e with
              | onTranscription t d true => [(t, d)]
              | _ => []
              end) l.

(** * Properties *)

(** ** PCM encoder *)

Section Encoder.

Variable body : number -> number.

Lemma for_loop_map (data : list number) (fuel i : nat) (int16 : list Z) :
  length int16 = length data ->
  (i + fuel)%nat = length data ->
  for_loop body data fuel i int16 =
  take i int16 ++ map (fun x => ToInt16 (body x)) (drop i data).
Proof.
  revert i int16. induction fuel as [|fuel IH]; intros i int16 Hlen Hi; simpl.
  - rewrite Nat.add_0_r in Hi. subst i.
    rewrite <- Hlen at 1. rewrite firstn_all, drop_all. simpl.
    now rewrite app_nil_r.
  - assert (Hlt : (i < length data)%nat) by lia.
    destruct (lookup_lt_is_Some_2 data i Hlt) as [x Hx].
    rewrite IH by (rewrite ?length_insert; lia).
    rewrite (take_S_r _ i (ToInt16 (body (get data i)))).
    2:{ apply list_lookup_insert_eq. lia. }
    rewrite take_insert_ge by lia.
    rewrite (drop_S data x i Hx). simpl.
    unfold get. rewrite Hx. simpl. now rewrite <- app_assoc.
Qed.

Lemma pcm_int16_map (data : list number) :
  pcm_int16 body data = map (fun x => ToInt16 (body x)) data.
Proof.
  unfold pcm_int16.
  rewrite for_loop_map; [reflexivity | apply length_replicate | reflexivity].
Qed.

Lemma pcm_int16_length (data : list number) :
  length (pcm_int16 body data) = length data.
Proof. rewrite pcm_int16_map. apply length_map. Qed.

End Encoder.

Lemma wrap16_range (z : Z) : -32768 <= wrap16 z <= 32767.
Proof.
  unfold wrap16. pose proof (Z.mod_pos_bound z 65536 eq_refl).
  destruct (32768 <=? z mod 65536) eqn:E; [apply Z.leb_le in E | apply Z.leb_gt in E]; lia.
Qed.

Lemma wrap16_small (z : Z) : -32768 <= z <= 32767 -> wrap16 z = z.
Proof.
  intros H. unfold wrap16.
  destruct (Z_lt_le_dec z 0) as [Hneg | Hpos].
  - replace (z mod 65536) with (z + 65536).
    + destruct (32768 <=? z + 65536) eqn:E; [lia | apply Z.leb_gt in E; lia].
    + apply (Z.mod_unique_pos z 65536 (-1)); lia.
  - rewrite Z.mod_small by lia.
    destruct (32768 <=? z) eqn:E; [apply Z.leb_le in E; lia | reflexivity].
Qed.

Lemma wrap16_mod (z : Z) : wrap16 (z mod 65536) = wrap16 z.
Proof. unfold wrap16. now rewrite Z.mod_mod. Qed.

Lemma ToInt16_range (x : number) : -32768 <= ToInt16 x <= 32767.
Proof. destruct x; simpl; try lia. apply wrap16_range. Qed.

Lemma Uint8Array_length (int16 : list Z) :
  length (Uint8Array int16) = (2 * length int16)%nat.
Proof.
  unfold Uint8Array. induction int16 as [|v l IH]; simpl; [reflexivity | lia].
Qed.

Lemma Uint8Array_bytes (int16 : list Z) :
  Forall (fun b => 0 <= b < 256) (Uint8Array int16).
Proof.
  unfold Uint8Array. induction int16 as [|v l IH]; simpl; [constructor|].
  pose proof (Z.mod_pos_bound v 65536 eq_refl).
  constructor; [apply Z.mod_pos_bound; lia|].
  constructor; [|exact IH].
  split; [apply Z.div_pos; lia | apply Z.div_lt_upper_bound; lia].
Qed.

Lemma decode_Uint8Array (int16 : list Z) :
  Forall (fun v => -32768 <= v <= 32767) int16 ->
  decode_int16 (Uint8Array int16) = int16.
Proof.
  unfold Uint8Array. induction 1 as [|v l Hv _ IH]; simpl; [reflexivity|].
  rewrite IH. f_equal.
  rewrite Z.add_comm, <- Z.div_mod by lia.
  rewrite wrap16_mod. now apply wrap16_small.
Qed.

(** Truncation of a value of [-1, 1] scaled by 32767. *)
Lemma truncate_scaled (q : Q) :
  (-1 <= q)%Q -> (q <= 1)%Q ->
  -32767 <= truncate (q * 32767) <= 32767.
Proof.
  destruct q as [n d]. unfold Qle, truncate. simpl. intros Hlo Hhi.
  rewrite Pos.mul_1_r. split.
  - apply Z.quot_le_lower_bound; lia.
  - apply Z.quot_le_upper_bound; lia.
Qed.

Lemma Qmin_js_le (p q : Q) : (Qmin_js p q <= p)%Q /\ (Qmin_js p q <= q)%Q.
Proof.
  unfold Qmin_js. destruct (Qle_bool p q) eqn:E.
  - apply Qle_bool_iff in E. split; [apply Qle_refl | exact E].
  - split; [|apply Qle_refl].
    destruct (Qlt_le_dec q p) as [H|H]; [now apply Qlt_le_weak|].
    apply Qle_bool_iff in H. congruence.
Qed.

Lemma Qmax_js_ge (p q : Q) : (p <= Qmax_js p q)%Q /\ (q <= Qmax_js p q)%Q.
Proof.
  unfold Qmax_js. destruct (Qle_bool q p) eqn:E.
  - apply Qle_bool_iff in E. split; [apply Qle_refl | exact E].
  - split; [|apply Qle_refl].
    destruct (Qlt_le_dec p q) as [H|H]; [now apply Qlt_le_weak|].
    apply Qle_bool_iff in H. congruence.
Qed.

(** The clamp of a finite sample lies in [-1, 1]. *)
Lemma clamp_range (q : Q) :
  (-1 <= Qmax_js (-1) (Qmin_js 1 q))%Q /\ (Qmax_js (-1) (Qmin_js 1 q) <= 1)%Q.
Proof.
  split; [apply Qmax_js_ge|].
  unfold Qmax_js. destruct (Qle_bool (Qmin_js 1 q) (-1)); [easy | apply Qmin_js_le].
Qed.

Lemma clamp_scale_range (x : number) : -32767 <= ToInt16 (clamp_scale x) <= 32767.
Proof.
  destruct x as [|[|]|q]; [vm_compute; split; discriminate ..|].
  unfold clamp_scale. simpl.
  destruct (clamp_range q) as [Hlo Hhi].
  pose proof (truncate_scaled _ Hlo Hhi) as H.
  rewrite wrap16_small; lia.
Qed.

Lemma truncate_Qeq (p q : Q) : (p == q)%Q -> truncate p = truncate q.
Proof.
  destruct p as [n1 d1], q as [n2 d2]. unfold Qeq, truncate. simpl. intros H.
  rewrite <- (Z.quot_mul_cancel_r n1 (Z.pos d1) (Z.pos d2)) by lia.
  rewrite <- (Z.quot_mul_cancel_r n2 (Z.pos d2) (Z.pos d1)) by lia.
  rewrite H. f_equal. lia.
Qed.






Lemma pcm_range (body : number -> number) (data : list number) :
  Forall (fun v => -32768 <= v <= 32767) (pcm_int16 body data).
Proof.
  rewrite pcm_int16_map. apply Forall_map, Forall_forall.
  intros x _. apply ToInt16_range.
Qed.

Lemma pcm_bytes_length (body : number -> number) (data : list number) :
  length (pcm_bytes body data) = (2 * length data)%nat.
Proof. unfold pcm_bytes. now rewrite Uint8Array_length, pcm_int16_length. Qed.

Lemma decode_pcm_bytes (body : number -> number) (data : list number) :
  decode_int16 (pcm_bytes body data) = pcm_int16 body data.
Proof. apply decode_Uint8Array, pcm_range. Qed.

(** The encoder of part_000 and part_001 obeys the clamping law: two bytes
    per sample, every byte a byte, and the integer read back from the bytes
    of sample [x] is 0 for NaN, 32767 and -32767 for the infinities, and the
    truncation of [32767 * max(-1, min(1, x))] for a finite [x], always
    within the signed 16-bit range. *)
Lemma clamped_encoder_law (data : list number) :
  length (pcm_bytes clamp_scale data) = (2 * length data)%nat /\
  Forall (fun b => 0 <= b < 256) (pcm_bytes clamp_scale data) /\
  decode_int16 (pcm_bytes clamp_scale data) =
    map (fun x => match x with
                  | NaN => 0
                  | Infinity negative => if negative then -32767 else 32767
                  | Fin q => truncate (Qmax_js (-1) (Qmin_js 1 q) * 32767)
                  end) data /\
  Forall (fun v => -32768 <= v <= 32767) (decode_int16 (pcm_bytes clamp_scale data)).
Proof.
  split; [apply pcm_bytes_length|].
  split; [apply Uint8Array_bytes|].
  rewrite decode_pcm_bytes. split; [|apply pcm_range].
  rewrite pcm_int16_map. apply map_ext. intros [|[|]|q]; try reflexivity.
  unfold clamp_scale. simpl. apply wrap16_small.
  destruct (clamp_range q) as [Hlo Hhi].
  pose proof (truncate_scaled _ Hlo Hhi). lia.
Qed.

(** The encoder of liveService.ts still produces two bytes per sample and
    integers of the signed 16-bit range: the typed array wraps what is out of
    range. *)
Lemma unclamped_encoder_length_range (data : list number) :
  length (pcm_bytes scale data) = (2 * length data)%nat /\
  Forall (fun v => -32768 <= v <= 32767) (decode_int16 (pcm_bytes scale data)).
Proof.
  split; [apply pcm_bytes_length|]. rewrite decode_pcm_bytes. apply pcm_range.
Qed.

(** C2.  The claim has every sample clamped to [-1.0, 1.0] before it is
    scaled.  The encoder of liveService.ts stores [data[i] * 32767] as it is:
    the sample 2.0 becomes 65534, which the Int16Array wraps to -2 (bytes FE
    FF), where the clamping encoder of part_000 and part_001 yields 32767. *)
Theorem createPcmBlob_unclamped_wraps (encode : list Z -> string) :
  LiveServiceTs.createPcmBlob encode [Fin 2] =
    {| data := Some (encode [254; 255]); mimeType := Some "audio/pcm;rate=16000" |} /\
  decode_int16 (pcm_bytes scale [Fin 2]) = [-2] /\
  decode_int16 (pcm_bytes clamp_scale [Fin 2]) = [32767].
Proof. repeat split. Qed.



(** ** Playback scheduler *)

Section Scheduler.

Variable failed : Sys -> Sys.

(** What one enqueue does to a scheduler that has an output context and
    awaits no decoding. *)
Lemma enqueue_step (c : chunk) (s : Sys) :
  is_Some (outputAudioContext (this s)) ->
  decoding (platform s) = [] ->
  let when := Qmax_js (nextStartTime (this s)) (currentTime c) in
  let s' := enqueue failed c s in
  outputAudioContext (this s') = outputAudioContext (this s) /\
  decoding (platform s') = [] /\
  scheduled (platform s') =
    scheduled (platform s) ++ [(length (objects (platform s)), when)] /\
  nextStartTime (this s') = (when + duration c)%Q /\
  sources (this s') = {[length (objects (platform s))]} ∪ sources (this s) /\
  released (platform s') = released (platform s) /\
  log s' = log s.
Proof.
  intros [ctx Hctx] Hdec. unfold enqueue, playAudio_begin. rewrite Hctx.
  unfold playAudio_resume. simpl. rewrite Hdec. simpl. rewrite Hctx. simpl.
  repeat split; try reflexivity. exact Hctx.
Qed.

Lemma enqueue_all_schedule (cs : list chunk) (s : Sys) :
  is_Some (outputAudioContext (this s)) ->
  decoding (platform s) = [] ->
  let s' := enqueue_all failed cs s in
  map snd (scheduled (platform s')) =
    map snd (scheduled (platform s)) ++ schedule (nextStartTime (this s)) cs /\
  nextStartTime (this s') = schedule_end (nextStartTime (this s)) cs /\
  released (platform s') = released (platform s) /\
  log s' = log s.
Proof.
  revert s. induction cs as [|c cs IH]; intros s Hctx Hdec; simpl.
  - now rewrite app_nil_r.
  - destruct (enqueue_step c s Hctx Hdec) as (Hc & Hd & Hs & Hn & _ & Hr & Hl).
    destruct (IH (enqueue failed c s)) as (IHs & IHn & IHr & IHl).
    { rewrite Hc. exact Hctx. }
    { exact Hd. }
    unfold enqueue_all in *. rewrite IHs, IHn, IHr, IHl, Hs, Hn, Hr, Hl.
    rewrite map_app. simpl. rewrite <- app_assoc. simpl. now repeat split.
Qed.

Lemma starts_since_schedule (cs : list chunk) (s : Sys) :
  is_Some (outputAudioContext (this s)) ->
  decoding (platform s) = [] ->
  starts_since s (enqueue_all failed cs s) = schedule (nextStartTime (this s)) cs.
Proof.
  intros Hctx Hdec. unfold starts_since.
  destruct (enqueue_all_schedule cs s Hctx Hdec) as (-> & _).
  rewrite <- (length_map snd). now rewrite drop_app_length.
Qed.

End Scheduler.

Lemma schedule_length (e : Q) (cs : list chunk) : length (schedule e cs) = length cs.
Proof. revert e. induction cs as [|c cs IH]; intros e; simpl; [reflexivity | now rewrite IH]. Qed.






(** ** Stopping playback *)






(** ** Transcript aggregator *)

Lemma emitted_call (s s' : Sys) (l : list event) :
  log s' = log s ++ l -> emitted s s' = l.
Proof. intros H. unfold emitted. rewrite H. apply drop_app_length. Qed.

Lemma truthy_Some (t : string) : truthy (Some t) = true <-> t <> "".
Proof.
  simpl. destruct (String.eqb_spec t ""); simpl; split; intros H; congruence.
Qed.

Lemma Part000_turnComplete_emitted (message : LiveServerMessage) (s : Sys) :
  flag turnComplete message = true ->
  let s' := Part000.on_turnComplete message s in
  emitted s s' =
    (if truthy (Some (currentInput (this s)))
     then [onTranscription (currentInput (this s)) input true] else []) ++
    (if truthy (Some (currentOutput (this s)))
     then [onTranscription (currentOutput (this s)) output true] else []) /\
  currentInput (this s') = "" /\ currentOutput (this s') = "" /\
  platform s' = platform s.
Proof.
  intros Hflag. unfold Part000.on_turnComplete. rewrite Hflag. simpl.
  destruct (currentInput (this s) =? "")%string; simpl;
    destruct (currentOutput (this s) =? "")%string; simpl;
    (split; [apply emitted_call; simpl; rewrite <- ?app_assoc, ?app_nil_r; reflexivity
            | repeat split]).
Qed.

(** In part_000 the turn-complete branch obeys the selective-emission law: a
    final call is made for a direction exactly when its buffer is not empty,
    it carries the buffer, nothing but final calls is made, and both buffers
    are empty afterwards. *)
Lemma Part000_turnComplete_selective (message : LiveServerMessage) (s : Sys) (d : direction) :
  flag turnComplete message = true ->
  let s' := Part000.on_turnComplete message s in
  ((exists t, In (onTranscription t d true) (emitted s s')) <->
   buffer d (this s) <> "") /\
  (forall t, In (onTranscription t d true) (emitted s s') -> t = buffer d (this s)) /\
  (forall e, In e (emitted s s') -> exists t d', e = onTranscription t d' true) /\
  (currentInput (this s) = "" -> currentOutput (this s) = "" -> emitted s s' = []) /\
  currentInput (this s') = "" /\ currentOutput (this s') = "".
Proof.
  intros Hflag s'.
  destruct (Part000_turnComplete_emitted message s Hflag) as (He & Hi & Ho & _).
  fold s' in He, Hi, Ho. rewrite He. clear He. simpl.
  destruct (String.eqb_spec (currentInput (this s)) "") as [Ei|Ei];
    destruct (String.eqb_spec (currentOutput (this s)) "") as [Eo|Eo]; simpl.
  all: split; [|split; [|split; [|split; [|split; assumption]]]].
  all: try (intros; reflexivity).
  all: try (intros; contradiction).
  all: try (intros e [<-|[<-|[]]]; eauto; fail).
  all: try (intros e [<-|[]]; eauto; fail).
  all: try (intros e []; fail).
  all: try (intros t Ht; destruct d; simpl in *; intuition congruence).
  all: match goal with
       | |- _ <-> _ =>
           destruct d; simpl;
           (split;
            [ intros [t Ht]; intuition congruence
            | intros Hne; try contradiction; eexists; eauto ])
       end.
Qed.

(** C1.  The claim has a final call made for a direction exactly when its
    buffer is not empty.  The turn-complete branch of liveService.ts (and of
    part_001) makes both final calls whatever the buffers hold.  After the
    fragments "Hel" and "lo" of the input direction and none of the output
    direction, the turn-complete message makes a final call with the empty
    text for the output direction; with both buffers empty it makes two final
    calls with the empty text.  part_000, which tests the buffers, makes the
    final call for the input direction only, and none when both are empty. *)
Theorem turnComplete_emits_empty_finals :
  (forall s now,
     emitted s (LiveServiceTs.onmessage now (signal true false) s) =
       [onTranscription (currentInput (this s)) input true;
        onTranscription (currentOutput (this s)) output true]) /\
  (let hello := run liveService_ts chars
                  [Message 0 (fragment input "Hel"); Message 0 (fragment input "lo")]
                  listening in
   currentInput (this hello) = "Hello" /\ currentOutput (this hello) = "" /\
   emitted hello (LiveServiceTs.onmessage 0 (signal true false) hello) =
     [onTranscription "Hello" input true; onTranscription "" output true] /\
   emitted hello (Part001.onmessage 0 (signal true false) hello) =
     [onTranscription "Hello" input true; onTranscription "" output true] /\
   emitted hello (Part000.onmessage 0 (signal true false) hello) =
     [onTranscription "Hello" input true]) /\
  (currentInput (this listening) = "" /\ currentOutput (this listening) = "" /\
   emitted listening (LiveServiceTs.onmessage 0 (signal true false) listening) =
     [onTranscription "" input true; onTranscription "" output true] /\
   emitted listening (Part001.onmessage 0 (signal true false) listening) =
     [onTranscription "" input true; onTranscription "" output true] /\
   emitted listening (Part000.onmessage 0 (signal true false) listening) = []).
Proof.
  split; [|split; repeat split].
  intros s now. apply emitted_call. simpl. now rewrite <- app_assoc.
Qed.

(** ** Messages without a signal *)

Lemma base64Audio_unchecked_spec (message : LiveServerMessage) (audio : option string) :
  base64Audio_unchecked message = Some audio -> audio = base64Audio message.
Proof.
  unfold base64Audio_unchecked, base64Audio.
  destruct (serverContent message) as [sc|]; simpl; [|congruence].
  destruct (modelTurn sc) as [mt|]; simpl; [|congruence].
  destruct (parts mt) as [ps|]; simpl; congruence.
Qed.

(** C10.  An inbound message with no audio payload, no transcription of
    either direction, no turn-complete and no interruption signal leaves the
    whole state as it was (fragment buffers, pending set and [nextStartTime]
    among it) and makes no call to the application, in each revision. *)
Theorem onmessage_no_signal (now : Q) (message : LiveServerMessage) (s : Sys) :
  no_signal message ->
  LiveServiceTs.onmessage now message s = s /\
  Part000.onmessage now message s = s /\
  Part001.onmessage now message s = s.
Proof.
  intros (Haudio & Hin & Hout & Hturn & Hint).
  assert (Hrest : forall complete,
            (forall m t, complete m t = if flag turnComplete m then complete m t else t) ->
            on_interrupted message
              (complete message
                 (on_outputTranscription message
                    (on_inputTranscription message s))) = s).
  { intros complete Hc. unfold on_interrupted, on_outputTranscription, on_inputTranscription.
    rewrite Hin, Hout, Hint, Hc, Hturn. reflexivity. }
  split; [|split].
  - unfold LiveServiceTs.onmessage, LiveServiceTs.on_audio.
    destruct (base64Audio message) as [b|]; rewrite ?Haudio;
      apply (Hrest LiveServiceTs.on_turnComplete);
      intros m t; unfold LiveServiceTs.on_turnComplete; now destruct (flag turnComplete m).
  - unfold Part000.onmessage, Part000.on_audio.
    destruct (base64Audio message) as [b|]; rewrite ?Haudio;
      destruct (outputAudioContext (this s));
      apply (Hrest Part000.on_turnComplete);
      intros m t; unfold Part000.on_turnComplete; now destruct (flag turnComplete m).
  - unfold Part001.onmessage.
    destruct (base64Audio_unchecked message) as [audio|] eqn:E; [|reflexivity].
    apply base64Audio_unchecked_spec in E. subst audio.
    destruct (base64Audio message) as [b|]; rewrite ?Haudio;
      destruct (outputAudioContext (this s));
      apply (Hrest Part001.on_turnComplete);
      intros m t; unfold Part001.on_turnComplete; now destruct (flag turnComplete m).
Qed.

Lemma onmessage_no_signal_witness :
  no_signal (signal false false) /\
  LiveServiceTs.onmessage 2 (signal false false) playing = playing /\
  Part000.onmessage 2 (signal false false) playing = playing /\
  Part001.onmessage 2 (signal false false) playing = playing.
Proof.
  assert (H : no_signal (signal false false)) by (repeat split).
  split; [exact H|].
  exact (onmessage_no_signal 2 (signal false false) playing H).
Defined.

(** ** Partial transcriptions within a turn *)

Lemma str_prefix_nil (t : string) : String.prefix "" t = true.
Proof. destruct t; reflexivity. Qed.

Lemma str_prefix_refl (s : string) : String.prefix s s = true.
Proof.
  induction s as [|a s IH]; simpl; [reflexivity|].
  destruct (Ascii.ascii_dec a a); [exact IH | contradiction].
Qed.

Lemma str_prefix_append (s t : string) : String.prefix s (s +:+ t) = true.
Proof.
  induction s as [|a s IH].
  - apply str_prefix_nil.
  - change (String a s +:+ t) with (String a (s +:+ t)). simpl.
    destruct (Ascii.ascii_dec a a); [exact IH | contradiction].
Qed.

Lemma str_prefix_trans (a b c : string) :
  String.prefix a b = true -> String.prefix b c = true -> String.prefix a c = true.
Proof.
  revert b c. induction a as [|x a IH]; intros b c Hab Hbc; [apply str_prefix_nil|].
  destruct b as [|y b]; simpl in Hab; [discriminate|].
  destruct c as [|z c]; simpl in Hbc; [discriminate|].
  destruct (Ascii.ascii_dec x y) as [->|]; [|discriminate].
  destruct (Ascii.ascii_dec y z) as [->|]; [|discriminate].
  simpl. destruct (Ascii.ascii_dec z z); [|contradiction].
  now apply (IH b c).
Qed.

Lemma chain_singleton (a : string) : chain [a].
Proof.
  intros i j x y Hij Hi Hj.
  destruct i; [|destruct i; discriminate]. destruct j; [|destruct j; discriminate].
  simpl in Hi, Hj. injection Hi as <-. injection Hj as <-. apply str_prefix_refl.
Qed.

Lemma chain_nil : chain [].
Proof. intros i j x y _ Hi. destruct i; discriminate. Qed.

Lemma chain_cons (a b : string) (l : list string) :
  String.prefix a b = true -> chain (b :: l) -> chain (a :: b :: l).
Proof.
  intros Hab Hl i j x y Hij Hi Hj.
  destruct i as [|i].
  - simpl in Hi. injection Hi as <-.
    destruct j as [|j]; simpl in Hj.
    + injection Hj as <-. apply str_prefix_refl.
    + apply (str_prefix_trans a b y Hab). apply (Hl 0%nat j b y); [lia | reflexivity | exact Hj].
  - destruct j as [|j]; [lia|]. simpl in Hi, Hj.
    apply (Hl i j x y); [lia | exact Hi | exact Hj].
Qed.

Lemma chain_tail (a : string) (l : list string) : chain (a :: l) -> chain l.
Proof.
  intros H i j x y Hij Hi Hj. apply (H (S i) (S j) x y); [lia | exact Hi | exact Hj].
Qed.

Lemma chain_init (l : list string) (a : string) : chain (l ++ [a]) -> chain l.
Proof.
  intros H i j x y Hij Hi Hj.
  apply (H i j x y Hij); apply lookup_app_l_Some; assumption.
Qed.

(** The last text of a chain can be replaced by one it is a prefix of. *)
Lemma chain_extend (l : list string) (b c : string) :
  String.prefix b c = true -> chain (l ++ [b]) -> chain (l ++ [c]).
Proof.
  intros Hbc H i j x y Hij Hi Hj.
  assert (Hlast : forall k z, (l ++ [c]) !! k = Some z ->
            (k < length l)%nat /\ l !! k = Some z \/ k = length l /\ z = c).
  { intros k z Hk. destruct (decide (k < length l)%nat) as [Hlt|Hge].
    - left. split; [exact Hlt|]. now rewrite lookup_app_l in Hk.
    - right. rewrite lookup_app_r in Hk by lia.
      destruct (k - length l)%nat as [|n] eqn:E; simpl in Hk; [|destruct n; discriminate].
      injection Hk as <-. split; [lia | reflexivity]. }
  assert (Hb : (l ++ [b]) !! length l = Some b).
  { rewrite lookup_app_r by lia. now rewrite Nat.sub_diag. }
  destruct (Hlast i x Hi) as [[Hil Hix] | [-> ->]];
    destruct (Hlast j y Hj) as [[Hjl Hjy] | [-> ->]].
  - apply (H i j x y Hij); apply lookup_app_l_Some; assumption.
  - apply (str_prefix_trans x b c); [|exact Hbc].
    apply (H i (length l) x b); [lia | now apply lookup_app_l_Some | exact Hb].
  - lia.
  - apply str_prefix_refl.
Qed.

Lemma transcriptions_app (f : bool) (d : direction) (l1 l2 : list event) :
  transcriptions f d (l1 ++ l2) = transcriptions f d l1 ++ transcriptions f d l2.
Proof. apply flat_map_app. Qed.

(** *** Composition of steps *)

Lemma quiet_refl (d : direction) (s : Sys) : quiet d true s s.
Proof. exists []. rewrite app_nil_r. now repeat split. Qed.

Lemma quiet_trans (d : direction) (k : bool) (s s1 s2 : Sys) :
  quiet d true s s1 -> quiet d k s1 s2 -> quiet d k s s2.
Proof.
  intros (l1 & H1 & P1 & B1) (l2 & H2 & P2 & B2). exists (l1 ++ l2).
  split; [now rewrite H2, H1, app_assoc|].
  split; [now rewrite transcriptions_app, P1, P2|].
  intros Hk. now rewrite B2, B1.
Qed.

Lemma quiet_advance (d : direction) (k : bool) (s s1 s2 : Sys) :
  quiet d true s s1 -> advance d k s1 s2 -> advance d k s s2.
Proof.
  intros Hq [Hq2 | (l2 & x & H2 & P2 & B2)].
  - left. now apply (quiet_trans d k s s1 s2).
  - destruct Hq as (l1 & H1 & P1 & B1). right. exists (l1 ++ l2), x.
    rewrite <- (B1 eq_refl).
    split; [now rewrite H2, H1, app_assoc|].
    split; [now rewrite transcriptions_app, P1, P2|].
    exact B2.
Qed.

Lemma advance_quiet (d : direction) (k : bool) (s s1 s2 : Sys) :
  advance d true s s1 -> quiet d k s1 s2 -> advance d k s s2.
Proof.
  intros [Hq1 | (l1 & x & H1 & P1 & B1)] Hq.
  - left. now apply (quiet_trans d k s s1 s2).
  - destruct Hq as (l2 & H2 & P2 & B2). right. exists (l1 ++ l2), x.
    split; [now rewrite H2, H1, app_assoc|].
    split; [now rewrite transcriptions_app, P1, P2, app_nil_r|].
    intros Hk. now rewrite B2, B1.
Qed.

(** *** The steps of a run *)

Ltac log_extended :=
  simpl; rewrite <- ?app_assoc; simpl; first [reflexivity | symmetry; apply app_nil_r].

(** A step that is seen to make no partial call and to keep the buffers. *)
Ltac quiet_step :=
  eexists; split; [log_extended | split; [reflexivity | intros _; reflexivity]].

Lemma on_inputTranscription_advance (d : direction) (message : LiveServerMessage) (s : Sys) :
  advance d true s (on_inputTranscription message s).
Proof.
  unfold on_inputTranscription.
  destruct (serverContent message ≫= inputTranscription) as [t|];
    [|left; apply quiet_refl].
  destruct d.
  - right. exists [onTranscription (concat (currentInput (this s)) (text t)) input false],
      (default "undefined" (text t)).
    now repeat split.
  - left. quiet_step.
Qed.

Lemma on_outputTranscription_advance (d : direction) (message : LiveServerMessage) (s : Sys) :
  advance d true s (on_outputTranscription message s).
Proof.
  unfold on_outputTranscription.
  destruct (serverContent message ≫= outputTranscription) as [t|];
    [|left; apply quiet_refl].
  destruct d.
  - left. quiet_step.
  - right. exists [onTranscription (concat (currentOutput (this s)) (text t)) output false],
      (default "undefined" (text t)).
    now repeat split.
Qed.

Lemma on_inputTranscription_quiet (message : LiveServerMessage) (s : Sys) :
  quiet output true s (on_inputTranscription message s).
Proof.
  unfold on_inputTranscription.
  destruct (serverContent message ≫= inputTranscription) as [t|];
    [quiet_step | apply quiet_refl].
Qed.

Lemma on_outputTranscription_quiet (message : LiveServerMessage) (s : Sys) :
  quiet input true s (on_outputTranscription message s).
Proof.
  unfold on_outputTranscription.
  destruct (serverContent message ≫= outputTranscription) as [t|];
    [quiet_step | apply quiet_refl].
Qed.

(** The two transcription branches in a row. *)
Lemma transcription_branches_advance (d : direction) (message : LiveServerMessage) (s : Sys) :
  advance d true s (on_outputTranscription message (on_inputTranscription message s)).
Proof.
  destruct d.
  - eapply advance_quiet;
      [apply on_inputTranscription_advance | apply on_outputTranscription_quiet].
  - eapply quiet_advance;
      [apply on_inputTranscription_quiet | apply on_outputTranscription_advance].
Qed.

Lemma playAudio_begin_quiet (d : direction) (now : Q) (b : string) (s : Sys) :
  quiet d true s (playAudio_begin now b s).
Proof.
  unfold playAudio_begin. destruct (outputAudioContext (this s)); destruct d; quiet_step.
Qed.

Lemma stopAllAudio_quiet (d : direction) (s : Sys) : quiet d true s (stopAllAudio s).
Proof. destruct d; quiet_step. Qed.

Lemma on_interrupted_quiet (d : direction) (message : LiveServerMessage) (s : Sys) :
  quiet d true s (on_interrupted message s).
Proof.
  unfold on_interrupted. destruct (flag interrupted message);
    [apply stopAllAudio_quiet | apply quiet_refl].
Qed.

Lemma playAudio_resume_quiet (d : direction) (failed : Sys -> Sys)
    (audioBuffer : option Q) (s : Sys) :
  (forall t, quiet d true t (failed t)) ->
  quiet d true s (playAudio_resume failed audioBuffer s).
Proof.
  intros Hfailed. unfold playAudio_resume.
  destruct (decoding (platform s)); [apply quiet_refl|].
  assert (Hsettle : quiet d true s (on_platform settle_decode s)) by (destruct d; quiet_step).
  destruct audioBuffer as [duration|];
    [destruct (outputAudioContext (this (on_platform settle_decode s))) eqn:E|].
  - destruct d; quiet_step.
  - eapply quiet_trans; [exact Hsettle | apply Hfailed].
  - eapply quiet_trans; [exact Hsettle | apply Hfailed].
Qed.

Lemma call_console_quiet (d : direction) (m : string) (s : Sys) :
  quiet d true s (call (console m) s).
Proof. destruct d; quiet_step. Qed.

Lemma onended_quiet (d : direction) (source : nat) (s : Sys) :
  quiet d true s (onended source s).
Proof. destruct d; quiet_step. Qed.

Lemma startStreaming_quiet (d : direction) (s : Sys) : quiet d true s (startStreaming s).
Proof. unfold startStreaming. repeat case_match; destruct d; quiet_step. Qed.

Lemma onaudioprocess_quiet (d : direction) (f : list number -> Blob)
    (inputData : list number) (s : Sys) :
  quiet d true s (onaudioprocess f inputData s).
Proof. unfold onaudioprocess. case_match; destruct d; quiet_step. Qed.

Lemma open_session_quiet (d : direction) (targetLanguage : string) (env : Env) (s : Sys) :
  match open_session targetLanguage env s with
  | Normal s' | Throw s' => quiet d true s s'
  end.
Proof.
  unfold open_session.
  repeat (destruct (fails env _); [destruct d; quiet_step|]).
  destruct d; quiet_step.
Qed.

Lemma quiet_then (d : direction) (k : bool) (s s1 s2 : Sys) :
  quiet d k s s1 -> quiet d true s1 s2 -> quiet d k s s2.
Proof.
  intros (l1 & H1 & P1 & B1) (l2 & H2 & P2 & B2). exists (l1 ++ l2).
  split; [now rewrite H2, H1, app_assoc|].
  split; [now rewrite transcriptions_app, P1, P2|].
  intros Hk. now rewrite B2, B1.
Qed.

(** An inbound message, from the branches of its handler: [audio] is the
    audio branch and [complete] the turn-complete branch of the revision. *)
Lemma onmessage_advance (d : direction) (message : LiveServerMessage)
    (audio complete : Sys -> Sys) (s : Sys) :
  (forall t, quiet d true t (audio t)) ->
  (forall t, quiet d (negb (flag turnComplete message)) t (complete t)) ->
  advance d (negb (flag turnComplete message)) s
    (on_interrupted message
       (complete
          (on_outputTranscription message
             (on_inputTranscription message (audio s))))).
Proof.
  intros Haudio Hcomplete.
  eapply quiet_advance; [apply Haudio|].
  eapply advance_quiet; [apply transcription_branches_advance|].
  eapply quiet_then; [apply Hcomplete | apply on_interrupted_quiet].
Qed.

Lemma LiveServiceTs_react_advance (encode : list Z -> string) (o : occurrence)
    (s : Sys) (d : direction) :
  advance d (negb (completes_turn o)) s (react liveService_ts encode o s).
Proof.
  destruct o as [lang env| | |now message| | |audioBuffer|source|inputData]; simpl.
  - left. unfold LiveServiceTs.connect, LiveServiceTs.catch.
    pose proof (open_session_quiet d lang env s) as Hopen.
    destruct (process_env_API_KEY env) as [apiKey|]; [|destruct d; quiet_step].
    destruct (negb (truthy apiKey)); [destruct d; quiet_step|].
    destruct (open_session lang env s) as [s'|s']; [exact Hopen|].
    eapply quiet_trans; [exact Hopen | destruct d; quiet_step].
  - left. destruct d; quiet_step.
  - left. unfold LiveServiceTs.onopen.
    eapply quiet_trans; [|apply startStreaming_quiet]. destruct d; quiet_step.
  - apply (onmessage_advance d message (LiveServiceTs.on_audio now message)
             (LiveServiceTs.on_turnComplete message)).
    + intros t. unfold LiveServiceTs.on_audio.
      destruct (base64Audio message) as [b|]; [|apply quiet_refl].
      destruct (truthy (Some b)); [apply playAudio_begin_quiet | apply quiet_refl].
    + intros t. unfold LiveServiceTs.on_turnComplete.
      destruct (flag turnComplete message); simpl; [|apply quiet_refl].
      destruct d; eexists; (split; [log_extended | split; [reflexivity | discriminate]]).
  - left. destruct d; quiet_step.
  - left. destruct d; quiet_step.
  - left. apply playAudio_resume_quiet. intros t. apply quiet_refl.
  - left. apply onended_quiet.
  - left. apply onaudioprocess_quiet.
Qed.

Lemma Part000_react_advance (encode : list Z -> string) (o : occurrence)
    (s : Sys) (d : direction) :
  advance d (negb (completes_turn o)) s (react part_000 encode o s).
Proof.
  destruct o as [lang env| | |now message| | |audioBuffer|source|inputData]; simpl.
  - left. unfold Part000.connect, Part000.catch.
    pose proof (open_session_quiet d lang env s) as Hopen.
    destruct (negb (truthy (Some (Part000.apiKey env)))); [destruct d; quiet_step|].
    destruct (open_session lang env s) as [s'|s']; [exact Hopen|].
    eapply quiet_trans; [exact Hopen | destruct d; quiet_step].
  - left. destruct d; quiet_step.
  - left. unfold Part000.onopen.
    eapply quiet_trans; [|apply startStreaming_quiet]. destruct d; quiet_step.
  - apply (onmessage_advance d message (Part000.on_audio now message)
             (Part000.on_turnComplete message)).
    + intros t. unfold Part000.on_audio.
      destruct (base64Audio message) as [b|]; [|apply quiet_refl].
      destruct (outputAudioContext (this t)); [|apply quiet_refl].
      destruct (truthy (Some b)); [apply playAudio_begin_quiet | apply quiet_refl].
    + intros t. unfold Part000.on_turnComplete.
      destruct (flag turnComplete message); simpl; [|apply quiet_refl].
      destruct (negb (currentInput (this t) =? "")%string); simpl;
        destruct (negb (currentOutput (this t) =? "")%string); simpl;
        destruct d; eexists; (split; [log_extended | split; [reflexivity | discriminate]]).
  - left. destruct d; quiet_step.
  - left. destruct d; quiet_step.
  - left. apply playAudio_resume_quiet. intros t. apply call_console_quiet.
  - left. apply onended_quiet.
  - left. apply onaudioprocess_quiet.
Qed.

Lemma Part001_react_advance (encode : list Z -> string) (o : occurrence)
    (s : Sys) (d : direction) :
  advance d (negb (completes_turn o)) s (react part_001 encode o s).
Proof.
  destruct o as [lang env| | |now message| | |audioBuffer|source|inputData]; simpl.
  - left. unfold Part001.connect, Part001.catch.
    pose proof (open_session_quiet d lang env s) as Hopen.
    destruct (process_env_API_KEY env) as [apiKey|]; [|destruct d; quiet_step].
    destruct (open_session lang env s) as [s'|s']; [exact Hopen|].
    eapply quiet_trans; [exact Hopen | destruct d; quiet_step].
  - left. destruct d; quiet_step.
  - left. unfold Part001.onopen.
    eapply quiet_trans; [|apply startStreaming_quiet]. destruct d; quiet_step.
  - unfold Part001.onmessage.
    destruct (base64Audio_unchecked message) as [audio|].
    2:{ left. destruct (flag turnComplete message); destruct d; simpl;
          eexists; (split; [log_extended | split; [reflexivity | intros _; reflexivity]]). }
    apply (onmessage_advance d message
             (fun t => match audio, outputAudioContext (this t) with
                       | Some b, Some _ =>
                           if truthy (Some b) then playAudio_begin now b t else t
                       | _, _ => t
                       end)
             (Part001.on_turnComplete message)).
    + intros t. destruct audio as [b|]; [|apply quiet_refl].
      destruct (outputAudioContext (this t)); [|apply quiet_refl].
      destruct (truthy (Some b)); [apply playAudio_begin_quiet | apply quiet_refl].
    + intros t. unfold Part001.on_turnComplete.
      destruct (flag turnComplete message); simpl; [|apply quiet_refl].
      destruct d; eexists; (split; [log_extended | split; [reflexivity | discriminate]]).
  - left. destruct d; quiet_step.
  - left. destruct d; quiet_step.
  - left. apply playAudio_resume_quiet. intros t. apply call_console_quiet.
  - left. apply onended_quiet.
  - left. apply onaudioprocess_quiet.
Qed.

Section Runs.

Variable r : revision.
Variable encode : list Z -> string.
Variable d : direction.

Hypothesis react_advance :
  forall o s, advance d (negb (completes_turn o)) s (react r encode o s).

(** While no turn completes, the buffer at the start, the partial texts
    delivered and the buffer at the end form a chain. *)
Lemma run_chain (os : list occurrence) (s : Sys) :
  Forall (fun o => completes_turn o = false) os ->
  exists l, log (run r encode os s) = log s ++ l /\
    chain (buffer d (this s) :: transcriptions false d l
             ++ [buffer d (this (run r encode os s))]).
Proof.
  revert s. induction os as [|o os IH]; intros s Hos.
  - exists []. simpl. rewrite app_nil_r. split; [reflexivity|].
    apply chain_cons; [apply str_prefix_refl | apply chain_singleton].
  - inversion Hos as [|? ? Ho Hos']; subst.
    destruct (IH (react r encode o s) Hos') as (l2 & H2 & C2).
    pose proof (react_advance o s) as Hstep. rewrite Ho in Hstep. simpl in Hstep.
    destruct Hstep as [(l1 & H1 & P1 & B1) | (l1 & x & H1 & P1 & B1)];
      exists (l1 ++ l2); (split; [simpl; now rewrite H2, H1, app_assoc|]);
      rewrite transcriptions_app, P1; simpl.
    + rewrite <- (B1 eq_refl). exact C2.
    + apply chain_cons; [apply str_prefix_append|].
      rewrite <- (B1 eq_refl). exact C2.
Qed.

(** The same with one more occurrence at the end, which may complete the
    turn: its partial call is made before the buffers are reset. *)
Lemma run_chain_closed (os : list occurrence) (o : occurrence) (s : Sys) :
  Forall (fun o => completes_turn o = false) os ->
  chain (buffer d (this s)
           :: transcriptions false d (emitted s (run r encode (os ++ [o]) s))).
Proof.
  intros Hos. destruct (run_chain os s Hos) as (l & Hl & C).
  unfold run in *. rewrite fold_left_app. simpl.
  set (s1 := fold_left (fun s o => react r encode o s) os s) in *.
  destruct (react_advance o s1) as [(l1 & H1 & P1 & _) | (l1 & x & H1 & P1 & _)].
  - rewrite (emitted_call s _ (l ++ l1)) by (now rewrite H1, Hl, app_assoc).
    rewrite transcriptions_app, P1, app_nil_r.
    apply (chain_init (_ :: _) (buffer d (this s1))). exact C.
  - rewrite (emitted_call s _ (l ++ l1)) by (now rewrite H1, Hl, app_assoc).
    rewrite transcriptions_app, P1.
    apply (chain_extend (_ :: _) (buffer d (this s1))); [apply str_prefix_append | exact C].
Qed.

End Runs.

(** C8.  In a run of the service in which no turn completes before the last
    occurrence (which may be the turn-complete message itself), the texts of
    the partial [onTranscription] calls of a direction, preceded by the
    buffer the run starts from, form a chain: each earlier text is a prefix
    of each later one.  This holds in each revision and whatever else happens
    in between (audio, decoding, capture, errors, disconnects). *)
Theorem partial_transcriptions_chain (encode : list Z -> string) (d : direction)
    (os : list occurrence) (o : occurrence) (s : Sys) :
  Forall (fun o => completes_turn o = false) os ->
  chain (buffer d (this s) ::
         transcriptions false d (emitted s (run liveService_ts encode (os ++ [o]) s))) /\
  chain (buffer d (this s) ::
         transcriptions false d (emitted s (run part_000 encode (os ++ [o]) s))) /\
  chain (buffer d (this s) ::
         transcriptions false d (emitted s (run part_001 encode (os ++ [o]) s))).
Proof.
  intros Hos. split; [|split]; apply run_chain_closed; try exact Hos; intros o' s'.
  - apply LiveServiceTs_react_advance.
  - apply Part000_react_advance.
  - apply Part001_react_advance.
Qed.

Example partial_transcriptions_run :
  transcriptions false input
    (emitted connected
       (run part_000 chars
          [Message 0 (fragment input "Hel"); Message 0 (fragment output "Ho");
           Message 0 (fragment input "lo"); Message 0 (signal true false)]
          connected))
  = ["Hel"; "Hello"].
Proof. reflexivity. Qed.

Lemma partial_transcriptions_chain_witness :
  chain (buffer input (this connected) ::
         transcriptions false input
           (emitted connected
              (run part_000 chars
                 ([Message 0 (fragment input "Hel"); Message 0 (fragment output "Ho");
                   Message 0 (fragment input "lo")] ++ [Message 0 (signal true false)])
                 connected))).
Proof.
  refine (proj1 (proj2
    (partial_transcriptions_chain chars input
       [Message 0 (fragment input "Hel"); Message 0 (fragment output "Ho");
        Message 0 (fragment input "lo")]
       (Message 0 (signal true false)) connected _))).
  repeat constructor.
Defined.

(** ** Session controller *)






(** In liveService.ts and part_000 the error handler reports to [onError]
    and then runs [disconnect]. *)
Lemma onerror_teardown (s : Sys) :
  (let s' := LiveServiceTs.onerror s in
   emitted s s' = [console "Connection Error:"; onError "Connection to Gemini failed."] /\
   this s' = this (LiveServiceTs.disconnect s) /\
   platform s' = platform (LiveServiceTs.disconnect s)) /\
  (let s' := Part000.onerror s in
   exists message,
     emitted s s' = [console "Live API WebSocket Error:"; onError message] /\
     this s' = this (Part000.disconnect s) /\
     platform s' = platform (Part000.disconnect s)).
Proof.
  split; [|eexists]; (split; [apply emitted_call; simpl; now rewrite <- app_assoc|]);
    split; reflexivity.
Qed.

Example playing_held : held (this playing) = {[0; 1; 2; 3; 5; 6; 7]}%nat.
Proof. vm_compute. reflexivity. Qed.

(** C5.  The claim has the session-error handler report to [onError] and
    then tear the session down as [disconnect] does.  The handler of part_001
    only reports: it changes neither the service nor the platform.  With two
    chunks pending, after the handler the pending set still holds both
    sources, the session is still referenced and no handle has been released,
    where [disconnect] releases all seven handles the service holds.  The
    handlers of liveService.ts and part_000 do call [disconnect]
    ([onerror_teardown]). *)
Theorem Part001_onerror_no_teardown :
  (forall s, this (Part001.onerror s) = this s /\
             platform (Part001.onerror s) = platform s) /\
  emitted playing (Part001.onerror playing) =
    [console "Live API Error:";
     onError "Network or API error occurred. Please verify your connection."] /\
  sources (this (Part001.onerror playing)) = {[6; 7]}%nat /\
  sessionPromise (this (Part001.onerror playing)) = Some 3%nat /\
  released (platform (Part001.onerror playing)) = ∅ /\
  released (platform (Part001.disconnect playing)) = {[0; 1; 2; 3; 5; 6; 7]}%nat /\
  released (platform (LiveServiceTs.onerror playing)) = {[0; 1; 2; 3; 5; 6; 7]}%nat /\
  released (platform (Part000.onerror playing)) = {[0; 1; 2; 3; 5; 6; 7]}%nat.
Proof.
  split; [intros s; split; reflexivity|].
  repeat split; vm_compute; reflexivity.
Qed.

(** *** Missing credential *)

(** When the environment holds no API key, [connect] of liveService.ts and
    of part_000 calls [onError] exactly once and returns with the service and
    the platform as they were (no context, stream or session has been
    created), and [onStatusChange('LISTENING')] is not among its calls. *)
Lemma connect_key_absent (targetLanguage : string) (env : Env) (s : Sys) :
  key_absent env ->
  (let s' := LiveServiceTs.connect targetLanguage env s in
   count_onError (emitted s s') = 1%nat /\
   this s' = this s /\ platform s' = platform s /\
   ~ In (onStatusChange "LISTENING") (emitted s s')) /\
  (let s' := Part000.connect targetLanguage env s in
   count_onError (emitted s s') = 1%nat /\
   this s' = this s /\ platform s' = platform s /\
   ~ In (onStatusChange "LISTENING") (emitted s s')).
Proof.
  intros [Hprocess Hwindow]. split.
  - unfold LiveServiceTs.connect, LiveServiceTs.catch.
    destruct (process_env_API_KEY env) as [apiKey|]; simpl in *.
    + rewrite Hprocess. simpl.
      rewrite (emitted_call s _
                 [console "API Key is missing from environment variables (process.env.API_KEY).";
                  onError "API Key is missing from environment variables (process.env.API_KEY)."])
        by (simpl; now rewrite <- app_assoc).
      repeat split. simpl. intros [H|[H|[]]]; discriminate.
    + rewrite (emitted_call s _ [console "Setup Error:";
                                 onError "Microphone access denied or audio error."])
        by (simpl; now rewrite <- app_assoc).
      repeat split. simpl. intros [H|[H|[]]]; discriminate.
  - unfold Part000.connect, Part000.apiKey. rewrite Hprocess, Hwindow. simpl.
    rewrite (emitted_call s _
               [console "API_KEY is not defined in environment variables.";
                onError "API Key missing. Please set API_KEY in your environment settings.";
                onStatusChange "ERROR"])
      by (simpl; now rewrite <- !app_assoc).
    repeat split. simpl. intros [H|[H|[H|[]]]]; discriminate.
Qed.

(** part_001 has no check of its own.  It reports once and creates nothing
    when reading the variable throws or [new GoogleGenAI] rejects the
    key ... *)
Lemma Part001_connect_key_rejected (targetLanguage : string) (env : Env) (s : Sys) :
  process_env_API_KEY env = None \/ failure env = Some new_GoogleGenAI ->
  let s' := Part001.connect targetLanguage env s in
  count_onError (emitted s s') = 1%nat /\
  this s' = this s /\ platform s' = platform s /\
  ~ In (onStatusChange "LISTENING") (emitted s s').
Proof.
  intros Hthrows. unfold Part001.connect.
  assert (Hcatch : let s' := Part001.catch s in
            count_onError (emitted s s') = 1%nat /\
            this s' = this s /\ platform s' = platform s /\
            ~ In (onStatusChange "LISTENING") (emitted s s')).
  { simpl. rewrite (emitted_call s _ [console "Connection setup failed:";
                      onError "Could not initialize audio or reach the AI service."])
      by (simpl; now rewrite <- app_assoc).
    repeat split. simpl. intros [H|[H|[]]]; discriminate. }
  destruct (process_env_API_KEY env) as [key|] eqn:Ekey; [|exact Hcatch].
  destruct Hthrows as [H|Hfail]; [discriminate|].
  unfold open_session, fails. rewrite Hfail. simpl. exact Hcatch.
Qed.

(** C6.  The claim has [connect] report once and open nothing when the API
    key is absent.  [connect] of part_001 does not look at the key: it hands
    it to [new GoogleGenAI] and goes on.  With the key an empty string (what
    liveService.ts and part_000 treat as missing) and a constructor that
    takes it, [connect] creates both audio contexts, the microphone stream and
    the session without calling [onError], and the session's open event, if it
    comes, reports LISTENING; liveService.ts and part_000, in the same
    environment, call [onError] once and create nothing. *)
Theorem Part001_connect_unchecked_key :
  let env := {| process_env_API_KEY := Some (Some "");
                window_process_env_API_KEY := None; failure := None |} in
  key_absent env /\
  (let s' := Part001.connect "Spanish" env initial in
   objects (platform s') =
     [AudioContext 16000; AudioContext 24000; MediaStream; LiveSession "Spanish"] /\
   count_onError (emitted initial s') = 0%nat /\
   In (onStatusChange "LISTENING") (emitted initial (Part001.onopen s'))) /\
  (let s' := LiveServiceTs.connect "Spanish" env initial in
   objects (platform s') = [] /\ count_onError (emitted initial s') = 1%nat) /\
  (let s' := Part000.connect "Spanish" env initial in
   objects (platform s') = [] /\ count_onError (emitted initial s') = 1%nat).
Proof.
  repeat split. simpl. left. reflexivity.
Qed.

(** *** Idempotence of [disconnect] *)





(** * Further properties *)

(** ** The encoder on samples *)

Lemma truncate_le (p q : Q) : (p <= q)%Q -> truncate p <= truncate q.
Proof.
  destruct p as [n1 d1], q as [n2 d2]. unfold Qle, truncate. simpl. intros H.
  rewrite <- (Z.quot_mul_cancel_r n1 (Z.pos d1) (Z.pos d2)) by lia.
  rewrite <- (Z.quot_mul_cancel_r n2 (Z.pos d2) (Z.pos d1)) by lia.
  rewrite (Z.mul_comm (Z.pos d2) (Z.pos d1)).
  apply Z.quot_le_mono; lia.
Qed.

Lemma truncate_opp (q : Q) : truncate (- q) = - truncate q.
Proof. destruct q as [n d]. unfold truncate. simpl. apply Z.quot_opp_l. lia. Qed.

Lemma Qmin_js_spec (p q : Q) :
  (q <= p)%Q /\ Qmin_js p q = q \/ (p <= q)%Q /\ Qmin_js p q = p.
Proof.
  unfold Qmin_js. destruct (Qle_bool p q) eqn:E.
  - right. split; [now apply Qle_bool_iff | reflexivity].
  - left. split; [|reflexivity].
    destruct (Qlt_le_dec q p) as [H|H]; [now apply Qlt_le_weak|].
    apply Qle_bool_iff in H. congruence.
Qed.

Lemma Qmax_js_spec (p q : Q) :
  (q <= p)%Q /\ Qmax_js p q = p \/ (p <= q)%Q /\ Qmax_js p q = q.
Proof.
  unfold Qmax_js. destruct (Qle_bool q p) eqn:E.
  - left. split; [now apply Qle_bool_iff | reflexivity].
  - right. split; [|reflexivity].
    destruct (Qlt_le_dec p q) as [H|H]; [now apply Qlt_le_weak|].
    apply Qle_bool_iff in H. congruence.
Qed.

(** Case analysis on every minimum and maximum of the goal. *)
Ltac min_max_cases :=
  repeat match goal with
         | |- context [Qmin_js ?a ?b] =>
             let H := fresh in
             let E := fresh in
             destruct (Qmin_js_spec a b) as [[H E] | [H E]]; rewrite E in *; clear E
         | |- context [Qmax_js ?a ?b] =>
             let H := fresh in
             let E := fresh in
             destruct (Qmax_js_spec a b) as [[H E] | [H E]]; rewrite E in *; clear E
         | H0 : context [Qmin_js ?a ?b] |- _ =>
             let H := fresh in
             let E := fresh in
             destruct (Qmin_js_spec a b) as [[H E] | [H E]]; rewrite E in *; clear E
         | H0 : context [Qmax_js ?a ?b] |- _ =>
             let H := fresh in
             let E := fresh in
             destruct (Qmax_js_spec a b) as [[H E] | [H E]]; rewrite E in *; clear E
         end;
  lra.

Lemma clamp_le (p q : Q) :
  (p <= q)%Q ->
  (Qmax_js (-1) (Qmin_js 1 p) <= Qmax_js (-1) (Qmin_js 1 q))%Q.
Proof. intros H. min_max_cases. Qed.

Lemma clamp_opp (q : Q) :
  (Qmax_js (-1) (Qmin_js 1 (- q)) == - Qmax_js (-1) (Qmin_js 1 q))%Q.
Proof. min_max_cases. Qed.

Lemma clamp_nominal (q : Q) :
  (-1 <= q)%Q -> (q <= 1)%Q -> (Qmax_js (-1) (Qmin_js 1 q) == q)%Q.
Proof. intros Hlo Hhi. min_max_cases. Qed.

(** The integer the clamping encoder stores for a finite sample. *)
Lemma clamp_scale_Fin (q : Q) :
  ToInt16 (clamp_scale (Fin q)) = truncate (Qmax_js (-1) (Qmin_js 1 q) * 32767).
Proof.
  unfold clamp_scale. simpl. apply wrap16_small.
  destruct (clamp_range q) as [Hlo Hhi].
  pose proof (truncate_scaled _ Hlo Hhi). lia.
Qed.

Lemma clamp_scale_Infinity (negative : bool) :
  ToInt16 (clamp_scale (Infinity negative)) = if negative then -32767 else 32767.
Proof. destruct negative; reflexivity. Qed.

Lemma clamp_scale_le (a b : number) :
  number_le a b -> ToInt16 (clamp_scale a) <= ToInt16 (clamp_scale b).
Proof.
  intros H.
  pose proof (clamp_scale_range a) as Ha. pose proof (clamp_scale_range b) as Hb.
  destruct a as [|[|]|p], b as [|[|]|q]; simpl in H; try contradiction.
  all: rewrite ?clamp_scale_Infinity in *; try lia.
  rewrite !clamp_scale_Fin. apply truncate_le.
  pose proof (clamp_le p q H). lra.
Qed.

Lemma clamp_scale_neg (x : number) :
  ToInt16 (clamp_scale (neg x)) = - ToInt16 (clamp_scale x).
Proof.
  destruct x as [|[|]|q]; try reflexivity.
  simpl neg. rewrite !clamp_scale_Fin, <- truncate_opp.
  apply truncate_Qeq. rewrite clamp_opp. ring.
Qed.

Lemma scale_nominal (x : number) :
  nominal x -> ToInt16 (scale x) = ToInt16 (clamp_scale x).
Proof.
  destruct x as [|s|q]; simpl nominal; [reflexivity | contradiction |].
  intros [Hlo Hhi]. rewrite clamp_scale_Fin. unfold scale. simpl.
  rewrite wrap16_small by (pose proof (truncate_scaled q Hlo Hhi); lia).
  apply truncate_Qeq. now rewrite clamp_nominal.
Qed.

(** Truncation is off by less than one. *)
Lemma truncate_error (a : Q) :
  (inject_Z (truncate a) - 1 < a)%Q /\ (a < inject_Z (truncate a) + 1)%Q.
Proof.
  destruct a as [n d]. unfold truncate. simpl Qnum. simpl Qden.
  pose proof (Z.quot_rem' n (Z.pos d)) as Hdiv.
  pose proof (Z.rem_bound_abs n (Z.pos d)) as Hrem.
  unfold Qlt, Qminus, Qplus, Qopp, inject_Z. simpl.
  rewrite !Z.mul_1_r. split; nia.
Qed.

(** X1.  The clamping encoder is monotone: a block whose samples are
    pointwise greater or equal is encoded to integers that are pointwise
    greater or equal (no wrap-around can invert two samples). *)
Theorem clamped_encoder_monotone (d1 d2 : list number) :
  Forall2 number_le d1 d2 ->
  Forall2 Z.le (pcm_int16 clamp_scale d1) (pcm_int16 clamp_scale d2).
Proof.
  intros H. rewrite !pcm_int16_map.
  induction H as [|a b l1 l2 Hab _ IH]; simpl; constructor.
  - now apply clamp_scale_le.
  - exact IH.
Qed.

Lemma clamped_encoder_monotone_witness :
  Forall2 Z.le
    (pcm_int16 clamp_scale [Infinity true; Fin (-3 # 2); Fin (1 # 3)])
    (pcm_int16 clamp_scale [Fin (-2); Fin (-1 # 2); Fin 7]).
Proof.
  apply clamped_encoder_monotone.
  constructor; [exact I|].
  constructor; [unfold number_le, Qle; simpl; lia|].
  constructor; [unfold number_le, Qle; simpl; lia|].
  constructor.
Defined.

(** X2.  The clamping encoder is odd: negating every sample of a block
    negates every encoded integer (truncation is towards zero on both
    sides, so the encoding has no bias). *)
Theorem clamped_encoder_odd (data : list number) :
  pcm_int16 clamp_scale (map neg data) = map Z.opp (pcm_int16 clamp_scale data).
Proof.
  rewrite !pcm_int16_map, !map_map. apply map_ext. intros x. apply clamp_scale_neg.
Qed.

(** X3.  On a block whose samples all lie in [-1, 1] (or are NaN) the
    encoder of liveService.ts and the clamping encoder of part_000 and
    part_001 produce the same blob: they differ on out-of-range samples
    only. *)
Theorem encoders_agree_on_nominal (encode : list Z -> string) (data : list number) :
  Forall nominal data ->
  LiveServiceTs.createPcmBlob encode data = Part000.createPcmBlob encode data /\
  LiveServiceTs.createPcmBlob encode data = Part001.createPcmBlob encode data.
Proof.
  intros H.
  assert (E : pcm_int16 scale data = pcm_int16 clamp_scale data).
  { rewrite !pcm_int16_map. induction H as [|x l Hx _ IH]; simpl; [reflexivity|].
    now rewrite IH, (scale_nominal x Hx). }
  unfold LiveServiceTs.createPcmBlob, Part000.createPcmBlob, Part001.createPcmBlob, pcm_bytes.
  now rewrite E.
Qed.

Lemma encoders_agree_on_nominal_witness :
  LiveServiceTs.createPcmBlob chars [Fin (1 # 3); NaN; Fin (-1); Fin (2 # 2)] =
  Part000.createPcmBlob chars [Fin (1 # 3); NaN; Fin (-1); Fin (2 # 2)].
Proof.
  apply encoders_agree_on_nominal.
  repeat (constructor; [unfold nominal, Qle; simpl; intuition lia|]).
  constructor.
Defined.

(** X4.  For a finite sample [q] of [-1, 1] at position [i], both encoders
    store the same integer, and the integer read back from the bytes differs
    from [32767 * q] by less than one. *)
Theorem encoder_error_below_one (data : list number) (i : nat) (q : Q) :
  data !! i = Some (Fin q) ->
  (-1 <= q)%Q -> (q <= 1)%Q ->
  exists v,
    decode_int16 (pcm_bytes scale data) !! i = Some v /\
    decode_int16 (pcm_bytes clamp_scale data) !! i = Some v /\
    (q * 32767 - 1 < inject_Z v)%Q /\ (inject_Z v < q * 32767 + 1)%Q.
Proof.
  intros Hi Hlo Hhi.
  exists (truncate (q * 32767)).
  destruct (truncate_error (q * 32767)) as [H1 H2].
  assert (Hs : ToInt16 (scale (Fin q)) = truncate (q * 32767)).
  { unfold scale. simpl. apply wrap16_small.
    pose proof (truncate_scaled q Hlo Hhi). lia. }
  assert (Hc : ToInt16 (clamp_scale (Fin q)) = truncate (q * 32767)).
  { rewrite <- (scale_nominal (Fin q)); [exact Hs | now split]. }
  split; [|split; [|split; lra]];
    rewrite decode_pcm_bytes, pcm_int16_map, list_lookup_fmap, Hi; simpl; f_equal.
  - exact Hs.
  - exact Hc.
Qed.

Lemma encoder_error_below_one_witness :
  exists v,
    decode_int16 (pcm_bytes scale [NaN; Fin (1 # 3)]) !! 1%nat = Some v /\
    decode_int16 (pcm_bytes clamp_scale [NaN; Fin (1 # 3)]) !! 1%nat = Some v /\
    ((1 # 3) * 32767 - 1 < inject_Z v)%Q /\ (inject_Z v < (1 # 3) * 32767 + 1)%Q.
Proof.
  apply (encoder_error_below_one [NaN; Fin (1 # 3)] 1 (1 # 3)).
  - reflexivity.
  - unfold Qle; simpl; lia.
  - unfold Qle; simpl; lia.
Defined.

(** ** References stay well formed *)

Lemma release_opt_objects (r : option nat) (p : Platform) :
  objects (release_opt r p) = objects p.
Proof. now destruct r. Qed.

Lemma release_opt_scheduled (r : option nat) (p : Platform) :
  scheduled (release_opt r p) = scheduled p.
Proof. now destruct r. Qed.

Lemma release_opt_decoding (r : option nat) (p : Platform) :
  decoding (release_opt r p) = decoding p.
Proof. now destruct r. Qed.

Lemma release_opt_sent (r : option nat) (p : Platform) :
  sent (release_opt r p) = sent p.
Proof. now destruct r. Qed.

(** Looking up a handle in a record of objects that has grown. *)
Ltac lookup_object :=
  repeat first
    [ eassumption
    | apply list_lookup_middle; reflexivity
    | apply lookup_app_l_Some
    | match goal with
      | H : forall h, _ -> _ !! h = Some _ |- _ !! _ = Some _ => apply H; solve [eauto]
      | H : forall h when, _ -> _ !! h = Some _ |- _ !! _ = Some _ => eapply H; solve [eauto]
      end ].

Ltac wf_field :=
  simpl; rewrite ?release_opt_objects, ?release_opt_scheduled; simpl; intros;
  repeat match goal with
         | H : Some _ = Some _ |- _ => injection H as H; subst
         | H : None = Some _ |- _ => discriminate H
         | H : _ ∈ _ ∪ _ |- _ => apply elem_of_union in H as [H | H]
         | H : _ ∈ {[ _ ]} |- _ => apply elem_of_singleton in H; subst
         | H : _ ∈ ∅ |- _ => apply not_elem_of_empty in H; contradiction
         | H : _ ∈ _ ∖ _ |- _ => apply elem_of_difference in H as [H _]
         | H : _ ∈ _ ++ _ |- _ => apply elem_of_app in H as [H | H]
         | H : _ ∈ [] |- _ => apply elem_of_nil in H; contradiction
         | H : _ ∈ [_] |- _ => apply list_elem_of_singleton in H; injection H as ? ?; subst
         end;
  try (match goal with
       | Hs : forall h, _ -> exists l, _ |- exists l, _ =>
           let X := fresh in
           edestruct Hs as [? X]; [solve [eauto] | eexists; lookup_object]
       end);
  try (eexists; lookup_object; fail);
  lookup_object.

Ltac wf_step :=
  intros [Hi Ho Hm Hs Hp Hsrc Hsch]; constructor; wf_field.

Lemma well_formed_initial : well_formed initial.
Proof. constructor; wf_field. Qed.

Lemma stopAllAudio_wf (s : Sys) : well_formed s -> well_formed (stopAllAudio s).
Proof. wf_step. Qed.

Lemma playAudio_begin_wf (now : Q) (b : string) (s : Sys) :
  well_formed s -> well_formed (playAudio_begin now b s).
Proof. unfold playAudio_begin. destruct (outputAudioContext (this s)) eqn:E; [|easy]. wf_step. Qed.

Lemma call_wf (e : event) (s : Sys) : well_formed s -> well_formed (call e s).
Proof. wf_step. Qed.

Lemma playAudio_resume_wf (failed : Sys -> Sys) (audioBuffer : option Q) (s : Sys) :
  (forall t, well_formed t -> well_formed (failed t)) ->
  well_formed s -> well_formed (playAudio_resume failed audioBuffer s).
Proof.
  intros Hfailed Hwf. unfold playAudio_resume.
  destruct (decoding (platform s)) eqn:Ed; [exact Hwf|].
  assert (Hsettle : well_formed (on_platform settle_decode s)) by (revert Hwf; wf_step).
  destruct audioBuffer as [duration|]; [|now apply Hfailed].
  destruct (outputAudioContext (this (on_platform settle_decode s))) eqn:E;
    [|now apply Hfailed].
  revert Hwf. wf_step.
Qed.

Lemma onended_wf (source : nat) (s : Sys) : well_formed s -> well_formed (onended source s).
Proof. wf_step. Qed.

Lemma startStreaming_wf (s : Sys) : well_formed s -> well_formed (startStreaming s).
Proof.
  unfold startStreaming.
  destruct (inputAudioContext (this s)) eqn:Ei; [|easy].
  destruct (mediaStream (this s)) eqn:Em; [|easy].
  destruct (sessionPromise (this s)) eqn:Es; [|easy].
  wf_step.
Qed.

Lemma onaudioprocess_wf (f : list number -> Blob) (inputData : list number) (s : Sys) :
  well_formed s -> well_formed (onaudioprocess f inputData s).
Proof. unfold onaudioprocess. destruct (sessionPromise (this s)) eqn:E; [|easy]. wf_step. Qed.

Lemma open_session_wf (targetLanguage : string) (env : Env) (s : Sys) :
  well_formed s ->
  match open_session targetLanguage env s with
  | Normal s' | Throw s' => well_formed s'
  end.
Proof.
  unfold open_session.
  destruct (fails env new_GoogleGenAI); [easy|].
  destruct (fails env new_inputAudioContext); [easy|].
  destruct (fails env new_outputAudioContext); [wf_step|].
  destruct (fails env resume_inputAudioContext); [wf_step|].
  destruct (fails env resume_outputAudioContext); [wf_step|].
  destruct (fails env getUserMedia); [wf_step|].
  wf_step.
Qed.

Lemma on_inputTranscription_wf (message : LiveServerMessage) (s : Sys) :
  well_formed s -> well_formed (on_inputTranscription message s).
Proof.
  unfold on_inputTranscription.
  destruct (serverContent message ≫= inputTranscription); [wf_step | easy].
Qed.

Lemma on_outputTranscription_wf (message : LiveServerMessage) (s : Sys) :
  well_formed s -> well_formed (on_outputTranscription message s).
Proof.
  unfold on_outputTranscription.
  destruct (serverContent message ≫= outputTranscription); [wf_step | easy].
Qed.

Lemma on_interrupted_wf (message : LiveServerMessage) (s : Sys) :
  well_formed s -> well_formed (on_interrupted message s).
Proof.
  unfold on_interrupted. destruct (flag interrupted message); [apply stopAllAudio_wf | easy].
Qed.

Lemma audio_branch_wf (now : Q) (audio : option string) (guard : bool) (s : Sys) :
  well_formed s ->
  well_formed (match audio with
               | Some b => if guard && truthy (Some b) then playAudio_begin now b s else s
               | None => s
               end).
Proof.
  intros H. destruct audio as [b|]; [|exact H].
  destruct (guard && truthy (Some b)); [now apply playAudio_begin_wf | exact H].
Qed.

Lemma cond_call_wf (c : bool) (e : event) (s : Sys) :
  well_formed s -> well_formed (if c then call e s else s).
Proof. intros H. destruct c; [now apply call_wf | exact H]. Qed.

Lemma reset_buffers_wf (s : Sys) :
  well_formed s ->
  well_formed (on_this (set_currentOutput "") (on_this (set_currentInput "") s)).
Proof. wf_step. Qed.

Lemma LiveServiceTs_react_wf (encode : list Z -> string) (o : occurrence) (s : Sys) :
  well_formed s -> well_formed (react liveService_ts encode o s).
Proof.
  intros H.
  destruct o as [lang env| | |now message| | |audioBuffer|source|inputData]; simpl.
  - unfold LiveServiceTs.connect, LiveServiceTs.catch.
    pose proof (open_session_wf lang env s H) as Hopen.
    destruct (process_env_API_KEY env) as [apiKey|]; [|now repeat apply call_wf].
    destruct (negb (truthy apiKey)); [now repeat apply call_wf|].
    destruct (open_session lang env s); [exact Hopen | repeat apply call_wf; exact Hopen].
  - revert H. wf_step.
  - apply startStreaming_wf. now apply call_wf.
  - apply on_interrupted_wf.
    assert (Ha : well_formed (LiveServiceTs.on_audio now message s)).
    { unfold LiveServiceTs.on_audio. destruct (base64Audio message) as [b|]; [|exact H].
      destruct (truthy (Some b)); [now apply playAudio_begin_wf | exact H]. }
    apply on_inputTranscription_wf with (message := message) in Ha.
    apply on_outputTranscription_wf with (message := message) in Ha.
    revert Ha. unfold LiveServiceTs.on_turnComplete.
    destruct (flag turnComplete message); [wf_step | easy].
  - unfold LiveServiceTs.onerror.
    assert (Hc : well_formed (call (onError "Connection to Gemini failed.")
                                (call (console "Connection Error:") s)))
      by now repeat apply call_wf.
    revert Hc. wf_step.
  - now apply call_wf.
  - now apply playAudio_resume_wf.
  - now apply onended_wf.
  - now apply onaudioprocess_wf.
Qed.

Lemma Part000_disconnect_wf (s : Sys) : well_formed s -> well_formed (Part000.disconnect s).
Proof. wf_step. Qed.

Lemma Part000_react_wf (encode : list Z -> string) (o : occurrence) (s : Sys) :
  well_formed s -> well_formed (react part_000 encode o s).
Proof.
  intros H.
  destruct o as [lang env| | |now message| | |audioBuffer|source|inputData]; simpl.
  - unfold Part000.connect, Part000.catch.
    pose proof (open_session_wf lang env s H) as Hopen.
    destruct (negb (truthy (Some (Part000.apiKey env)))); [now repeat apply call_wf|].
    destruct (open_session lang env s); [exact Hopen | repeat apply call_wf; exact Hopen].
  - now apply Part000_disconnect_wf.
  - apply startStreaming_wf. now repeat apply call_wf.
  - apply on_interrupted_wf.
    assert (Ha : well_formed (Part000.on_audio now message s)).
    { unfold Part000.on_audio. destruct (base64Audio message) as [b|]; [|exact H].
      destruct (outputAudioContext (this s)); [|exact H].
      destruct (truthy (Some b)); [now apply playAudio_begin_wf | exact H]. }
    apply on_inputTranscription_wf with (message := message) in Ha.
    apply on_outputTranscription_wf with (message := message) in Ha.
    unfold Part000.on_turnComplete.
    destruct (flag turnComplete message); [|exact Ha].
    cbv zeta. apply reset_buffers_wf. now repeat apply cond_call_wf.
  - apply Part000_disconnect_wf. now repeat apply call_wf.
  - now repeat apply call_wf.
  - apply playAudio_resume_wf; [|exact H]. intros t. apply call_wf.
  - now apply onended_wf.
  - now apply onaudioprocess_wf.
Qed.

Lemma Part001_react_wf (encode : list Z -> string) (o : occurrence) (s : Sys) :
  well_formed s -> well_formed (react part_001 encode o s).
Proof.
  intros H.
  destruct o as [lang env| | |now message| | |audioBuffer|source|inputData]; simpl.
  - unfold Part001.connect, Part001.catch.
    pose proof (open_session_wf lang env s H) as Hopen.
    destruct (process_env_API_KEY env) as [apiKey|]; [|now repeat apply call_wf].
    destruct (open_session lang env s); [exact Hopen | repeat apply call_wf; exact Hopen].
  - now apply Part000_disconnect_wf.
  - apply startStreaming_wf. now apply call_wf.
  - unfold Part001.onmessage.
    destruct (base64Audio_unchecked message) as [audio|]; [|exact H].
    apply on_interrupted_wf.
    match goal with
    | |- context [on_inputTranscription message ?t] =>
        assert (Ha : well_formed t)
    end.
    { destruct audio as [b|]; [|exact H].
      destruct (outputAudioContext (this s)); [|exact H].
      destruct (truthy (Some b)); [now apply playAudio_begin_wf | exact H]. }
    apply on_inputTranscription_wf with (message := message) in Ha.
    apply on_outputTranscription_wf with (message := message) in Ha.
    revert Ha. unfold Part001.on_turnComplete.
    destruct (flag turnComplete message); [wf_step | easy].
  - now repeat apply call_wf.
  - now repeat apply call_wf.
  - apply playAudio_resume_wf; [|exact H]. intros t. apply call_wf.
  - now apply onended_wf.
  - now apply onaudioprocess_wf.
Qed.

Section Well_formed_runs.

Variable r : revision.
Variable encode : list Z -> string.
Hypothesis react_wf : forall o s, well_formed s -> well_formed (react r encode o s).

Lemma run_wf (os : list occurrence) (s : Sys) :
  well_formed s -> well_formed (run r encode os s).
Proof.
  revert s. induction os as [|o os IH]; intros s H; [exact H|].
  simpl. apply IH, react_wf, H.
Qed.

End Well_formed_runs.

(** X5.  Whatever happens to the service (any sequence of connects,
    disconnects, session events, decodings, ends of playback and captured
    blocks, in any revision), its references stay well formed: the input
    context is a 16 kHz context, the output context a 24 kHz one, the stream
    a microphone stream, the session a live session, the processor a script
    processor, and every pending or started source a buffer source. *)
Theorem references_well_formed (encode : list Z -> string) (os : list occurrence) (s : Sys) :
  well_formed s ->
  well_formed (run liveService_ts encode os s) /\
  well_formed (run part_000 encode os s) /\
  well_formed (run part_001 encode os s).
Proof.
  intros H. split; [|split]; apply run_wf; try exact H; intros o t.
  - apply LiveServiceTs_react_wf.
  - apply Part000_react_wf.
  - apply Part001_react_wf.
Qed.

(** ** More on the scheduler *)

Lemma fresh_handle_not_pending (s : Sys) :
  well_formed s -> length (objects (platform s)) ∉ sources (this s).
Proof.
  intros H Hin. apply (wf_sources s H) in Hin.
  apply lookup_lt_Some in Hin. lia.
Qed.

(** X6.  A chunk that is enqueued and then plays to its end leaves the
    pending set as it was before the chunk arrived: the [ended] listener
    removes exactly the source [playAudio] added. *)
Theorem enqueue_then_ended (failed : Sys -> Sys) (c : chunk) (s : Sys) :
  well_formed s ->
  is_Some (outputAudioContext (this s)) ->
  decoding (platform s) = [] ->
  let source := length (objects (platform s)) in
  source ∈ sources (this (enqueue failed c s)) /\
  sources (this (onended source (enqueue failed c s))) = sources (this s).
Proof.
  intros Hwf Hctx Hdec source.
  destruct (enqueue_step failed c s Hctx Hdec) as (_ & _ & _ & _ & Hsrc & _).
  pose proof (fresh_handle_not_pending s Hwf) as Hfresh. fold source in Hfresh.
  simpl. rewrite Hsrc. fold source. split; [set_unfold; tauto|].
  apply set_eq. intros x. set_unfold. split; [tauto|].
  intros Hx. split; [tauto|]. intros ->. contradiction.
Qed.

Lemma listening_wf : well_formed listening.
Proof.
  apply (run_wf liveService_ts chars (LiveServiceTs_react_wf chars)
           [Connect "Spanish"
              {| process_env_API_KEY := Some (Some "key");
                 window_process_env_API_KEY := None; failure := None |};
            Open] initial).
  apply well_formed_initial.
Qed.

Lemma references_well_formed_witness :
  well_formed
    (run part_000 chars
       [Connect "Spanish"
          {| process_env_API_KEY := Some (Some "key");
             window_process_env_API_KEY := None; failure := None |};
        Open; Message 1 (fragment input "Hel"); Decoded None; Disconnect]
       initial).
Proof.
  exact (proj1 (proj2 (references_well_formed chars _ initial well_formed_initial))).
Defined.

Lemma enqueue_then_ended_witness :
  sources (this (onended 6
                   (enqueue (fun s => s)
                      {| payload := "AAAA"; currentTime := 1; duration := 1 # 2 |}
                      listening))) = sources (this listening).
Proof.
  refine (proj2 (enqueue_then_ended (fun s => s)
                   {| payload := "AAAA"; currentTime := 1; duration := 1 # 2 |}
                   listening listening_wf _ _)).
  - vm_compute. eauto.
  - reflexivity.
Defined.

Section Overlapping.

Variable failed : Sys -> Sys.



End Overlapping.



(** X8.  A chunk whose [playAudio] call is made before [stopAllAudio] and
    whose decoding completes after it is not cancelled: it is started at
    time 0, that is at once, it is the only source of the pending set, and
    the timeline resumes from its duration. *)
Theorem decode_across_interruption (failed : Sys -> Sys) (now d : Q) (b : string) (s : Sys) :
  is_Some (outputAudioContext (this s)) ->
  decoding (platform s) = [] ->
  let s' := playAudio_resume failed (Some d) (stopAllAudio (playAudio_begin now b s)) in
  scheduled (platform s') =
    scheduled (platform s) ++ [(length (objects (platform s)), 0%Q)] /\
  sources (this s') = {[length (objects (platform s))]} /\
  nextStartTime (this s') = (0 + d)%Q.
Proof.
  intros [ctx Hctx] Hdec. unfold playAudio_begin. rewrite Hctx.
  unfold playAudio_resume. simpl. rewrite Hdec. simpl. rewrite Hctx. simpl.
  repeat split. apply set_eq. intros x. set_unfold. tauto.
Qed.

Lemma decode_across_interruption_witness :
  sources (this (playAudio_resume (fun s => s) (Some (1 # 2))
                   (stopAllAudio (playAudio_begin 3 "AAAA" playing)))) = {[8%nat]}.
Proof.
  refine (proj1 (proj2 (decode_across_interruption (fun s => s) 3 (1 # 2) "AAAA" playing _ _))).
  - vm_compute. eauto.
  - reflexivity.
Defined.

(** What a failed decoding does, whatever the revision's handler logs. *)
Lemma failed_decode_state (failed : Sys -> Sys) (now : Q) (b : string) (s : Sys) :
  (forall t, this (failed t) = this t /\ platform (failed t) = platform t) ->
  is_Some (outputAudioContext (this s)) ->
  decoding (platform s) = [] ->
  let s' := playAudio_resume failed None (playAudio_begin now b s) in
  this s' = set_nextStartTime (Qmax_js (nextStartTime (this s)) now) (this s) /\
  platform s' = platform s.
Proof.
  intros Hfailed [ctx Hctx] Hdec. unfold playAudio_begin. rewrite Hctx.
  unfold playAudio_resume. simpl. rewrite Hdec. simpl.
  match goal with |- context [failed ?t] => destruct (Hfailed t) as [-> ->] end.
  simpl. split; [reflexivity|].
  destruct (platform s). simpl in *. subst. reflexivity.
Qed.

(** X9.  A chunk that fails to decode is dropped: nothing is started, the
    pending set and every object stay as they were, no callback is made (the
    revisions with a [catch] log to the console), and only [nextStartTime]
    has moved up to the clock reading of the call.  A chunk that arrives
    after it, at a clock reading that is not earlier, starts when it would
    have started had the failed chunk never arrived. *)
Theorem failed_decode_is_dropped (now : Q) (b : string) (c : chunk) (s : Sys) :
  is_Some (outputAudioContext (this s)) ->
  decoding (platform s) = [] ->
  (now <= currentTime c)%Q ->
  let t0 := LiveServiceTs.playAudio_end None (playAudio_begin now b s) in
  let t1 := Part000.playAudio_end None (playAudio_begin now b s) in
  let t2 := Part001.playAudio_end None (playAudio_begin now b s) in
  (platform t0 = platform s /\ platform t1 = platform s /\ platform t2 = platform s) /\
  (sources (this t0) = sources (this s) /\ sources (this t1) = sources (this s) /\
   sources (this t2) = sources (this s)) /\
  (emitted s t0 = [] /\
   emitted s t1 = [console "Audio chunk playback failed:"] /\
   emitted s t2 = [console "Audio playback error:"]) /\
  (exists when,
     starts_since t0 (enqueue (fun s => s) c t0) = [when] /\
     starts_since s (enqueue (fun s => s) c s) = [Qmax_js (nextStartTime (this s)) (currentTime c)] /\
     (when == Qmax_js (nextStartTime (this s)) (currentTime c))%Q).
Proof.
  intros Hctx Hdec Hclock t0 t1 t2.
  assert (Hid : forall t : Sys, this ((fun s => s) t) = this t /\ platform ((fun s => s) t) = platform t)
    by (intros; split; reflexivity).
  assert (Hcall : forall m (t : Sys), this (call (console m) t) = this t /\
                                      platform (call (console m) t) = platform t)
    by (intros; split; reflexivity).
  destruct (failed_decode_state (fun s => s) now b s Hid Hctx Hdec) as [T0 P0].
  destruct (failed_decode_state _ now b s (Hcall "Audio chunk playback failed:") Hctx Hdec) as [T1 P1].
  destruct (failed_decode_state _ now b s (Hcall "Audio playback error:") Hctx Hdec) as [T2 P2].
  change (this t0 = set_nextStartTime (Qmax_js (nextStartTime (this s)) now) (this s)) in T0.
  change (this t1 = set_nextStartTime (Qmax_js (nextStartTime (this s)) now) (this s)) in T1.
  change (this t2 = set_nextStartTime (Qmax_js (nextStartTime (this s)) now) (this s)) in T2.
  change (platform t0 = platform s) in P0.
  change (platform t1 = platform s) in P1.
  change (platform t2 = platform s) in P2.
  split; [now repeat split|].
  split; [rewrite T0, T1, T2; now repeat split|].
  split.
  { destruct Hctx as [ctx Hctx].
    unfold t0, t1, t2, LiveServiceTs.playAudio_end, Part000.playAudio_end,
      Part001.playAudio_end, playAudio_begin, playAudio_resume.
    rewrite Hctx. simpl. rewrite Hdec. simpl.
    repeat split; apply emitted_call; simpl; now rewrite ?app_nil_r. }
  exists (Qmax_js (Qmax_js (nextStartTime (this s)) now) (currentTime c)).
  split; [|split].
  - change (enqueue (fun s => s) c t0) with (enqueue_all (fun s => s) [c] t0).
    rewrite (starts_since_schedule (fun s => s) [c] t0).
    + simpl. now rewrite T0.
    + rewrite T0. exact Hctx.
    + now rewrite P0.
  - change (enqueue (fun s => s) c s) with (enqueue_all (fun s => s) [c] s).
    now rewrite (starts_since_schedule (fun s => s) [c] s Hctx Hdec).
  - min_max_cases.
Qed.

Lemma failed_decode_is_dropped_witness :
  emitted listening
    (Part000.playAudio_end None (playAudio_begin 1 "????" listening)) =
  [console "Audio chunk playback failed:"].
Proof.
  refine (proj1 (proj2 (proj1 (proj2 (proj2
    (failed_decode_is_dropped 1 "????"
       {| payload := "AAAA"; currentTime := 2; duration := 1 # 2 |}
       listening _ _ _)))))).
  - vm_compute. eauto.
  - reflexivity.
  - unfold Qle; simpl; lia.
Defined.

(** ** Nothing plays after [disconnect] (part_000, part_001) *)

Lemma same_scheduler_refl (s : Sys) : same_scheduler s s.
Proof. now repeat split. Qed.

Lemma same_scheduler_trans (s s1 s2 : Sys) :
  same_scheduler s s1 -> same_scheduler s1 s2 -> same_scheduler s s2.
Proof. intros (A1 & A2 & A3) (B1 & B2 & B3). repeat split; congruence. Qed.

Lemma same_scheduler_silent (s s' : Sys) :
  same_scheduler s s' -> silent s ->
  silent s' /\ scheduled (platform s') = scheduled (platform s).
Proof. intros (A1 & A2 & A3) [H1 H2]. repeat split; congruence. Qed.

Lemma call_same_scheduler (e : event) (s : Sys) : same_scheduler s (call e s).
Proof. now repeat split. Qed.

Lemma startStreaming_same_scheduler (s : Sys) : same_scheduler s (startStreaming s).
Proof.
  unfold startStreaming.
  destruct (inputAudioContext (this s)); [|apply same_scheduler_refl].
  destruct (mediaStream (this s)); [|apply same_scheduler_refl].
  destruct (sessionPromise (this s)); [|apply same_scheduler_refl].
  now repeat split.
Qed.

Lemma onaudioprocess_same_scheduler (f : list number -> Blob) (inputData : list number) (s : Sys) :
  same_scheduler s (onaudioprocess f inputData s).
Proof.
  unfold onaudioprocess. destruct (sessionPromise (this s)); now repeat split.
Qed.

Lemma transcription_branches_same_scheduler (message : LiveServerMessage) (s : Sys) :
  same_scheduler s (on_outputTranscription message (on_inputTranscription message s)).
Proof.
  unfold on_outputTranscription, on_inputTranscription.
  destruct (serverContent message ≫= inputTranscription);
    destruct (serverContent message ≫= outputTranscription); now repeat split.
Qed.

Lemma Part000_on_turnComplete_same_scheduler (message : LiveServerMessage) (s : Sys) :
  same_scheduler s (Part000.on_turnComplete message s).
Proof.
  unfold Part000.on_turnComplete.
  destruct (flag turnComplete message); [|apply same_scheduler_refl].
  cbv zeta.
  destruct (truthy (Some (currentInput (this s))));
    match goal with
    | |- context [if ?c then _ else _] => destruct c
    end; now repeat split.
Qed.

Lemma Part001_on_turnComplete_same_scheduler (message : LiveServerMessage) (s : Sys) :
  same_scheduler s (Part001.on_turnComplete message s).
Proof.
  unfold Part001.on_turnComplete.
  destruct (flag turnComplete message); now repeat split.
Qed.

Lemma stopAllAudio_silent (s : Sys) :
  silent s -> silent (stopAllAudio s) /\
  scheduled (platform (stopAllAudio s)) = scheduled (platform s).
Proof. intros [H1 H2]. now repeat split. Qed.

Lemma on_interrupted_silent (message : LiveServerMessage) (s : Sys) :
  silent s -> silent (on_interrupted message s) /\
  scheduled (platform (on_interrupted message s)) = scheduled (platform s).
Proof.
  intros H. unfold on_interrupted.
  destruct (flag interrupted message); [now apply stopAllAudio_silent | now split].
Qed.

Lemma disconnect_silent (s : Sys) :
  silent (Part000.disconnect s) /\
  scheduled (platform (Part000.disconnect s)) = scheduled (platform s).
Proof.
  unfold silent. simpl. rewrite !release_opt_scheduled. now repeat split.
Qed.

Lemma playAudio_resume_silent (m : string) (audioBuffer : option Q) (s : Sys) :
  silent s ->
  silent (playAudio_resume (call (console m)) audioBuffer s) /\
  scheduled (platform (playAudio_resume (call (console m)) audioBuffer s)) =
    scheduled (platform s).
Proof.
  intros [Hctx Hsrc]. unfold playAudio_resume.
  destruct (decoding (platform s)); [now repeat split|].
  destruct audioBuffer; simpl; rewrite ?Hctx; now repeat split.
Qed.

Lemma onended_silent (source : nat) (s : Sys) :
  silent s -> silent (onended source s) /\
  scheduled (platform (onended source s)) = scheduled (platform s).
Proof.
  intros [Hctx Hsrc]. unfold silent. simpl. rewrite Hsrc.
  repeat split; [exact Hctx|]. apply set_eq. intros x. set_unfold. tauto.
Qed.

Lemma Part000_react_silent (encode : list Z -> string) (o : occurrence) (s : Sys) :
  is_connect o = false -> silent s ->
  silent (react part_000 encode o s) /\
  scheduled (platform (react part_000 encode o s)) = scheduled (platform s).
Proof.
  intros Ho H.
  destruct o as [lang env| | |now message| | |audioBuffer|source|inputData];
    try discriminate; simpl.
  - apply disconnect_silent.
  - apply (same_scheduler_silent s); [|exact H]. unfold Part000.onopen.
    eapply same_scheduler_trans; [|apply startStreaming_same_scheduler].
    now repeat split.
  - unfold Part000.onmessage.
    assert (Ha : Part000.on_audio now message s = s).
    { unfold Part000.on_audio. destruct H as [-> _]. now destruct (base64Audio message). }
    rewrite Ha.
    assert (Hs : same_scheduler s
              (Part000.on_turnComplete message
                 (on_outputTranscription message (on_inputTranscription message s)))).
    { eapply same_scheduler_trans;
        [apply transcription_branches_same_scheduler
        | apply Part000_on_turnComplete_same_scheduler]. }
    destruct (same_scheduler_silent _ _ Hs H) as [H1 E1].
    destruct (on_interrupted_silent message _ H1) as [H2 E2].
    split; [exact H2 | congruence].
  - unfold Part000.onerror.
    destruct (disconnect_silent
                (call (onError "Network connection failed. Please check your internet or API key permissions.")
                   (call (console "Live API WebSocket Error:") s))) as [H1 E1].
    split; [exact H1 | exact E1].
  - apply (same_scheduler_silent s (Part000.onclose s)); [now repeat split | exact H].
  - now apply playAudio_resume_silent.
  - now apply onended_silent.
  - apply (same_scheduler_silent s); [apply onaudioprocess_same_scheduler | exact H].
Qed.

Lemma Part001_react_silent (encode : list Z -> string) (o : occurrence) (s : Sys) :
  is_connect o = false -> silent s ->
  silent (react part_001 encode o s) /\
  scheduled (platform (react part_001 encode o s)) = scheduled (platform s).
Proof.
  intros Ho H.
  destruct o as [lang env| | |now message| | |audioBuffer|source|inputData];
    try discriminate; simpl.
  - apply disconnect_silent.
  - apply (same_scheduler_silent s); [|exact H]. unfold Part001.onopen.
    eapply same_scheduler_trans; [|apply startStreaming_same_scheduler].
    now repeat split.
  - unfold Part001.onmessage.
    destruct (base64Audio_unchecked message) as [audio|]; [|now split].
    assert (Ha : match audio, outputAudioContext (this s) with
                 | Some b, Some _ =>
                     if truthy (Some b) then playAudio_begin now b s else s
                 | _, _ => s
                 end = s).
    { destruct H as [-> _]. now destruct audio. }
    rewrite Ha.
    assert (Hs : same_scheduler s
              (Part001.on_turnComplete message
                 (on_outputTranscription message (on_inputTranscription message s)))).
    { eapply same_scheduler_trans;
        [apply transcription_branches_same_scheduler
        | apply Part001_on_turnComplete_same_scheduler]. }
    destruct (same_scheduler_silent _ _ Hs H) as [H1 E1].
    destruct (on_interrupted_silent message _ H1) as [H2 E2].
    split; [exact H2 | congruence].
  - apply (same_scheduler_silent s (Part001.onerror s)); [now repeat split | exact H].
  - apply (same_scheduler_silent s (Part001.onclose s)); [now repeat split | exact H].
  - now apply playAudio_resume_silent.
  - now apply onended_silent.
  - apply (same_scheduler_silent s); [apply onaudioprocess_same_scheduler | exact H].
Qed.

Section Silent_runs.

Variable r : revision.
Variable encode : list Z -> string.
Hypothesis react_silent :
  forall o s, is_connect o = false -> silent s ->
    silent (react r encode o s) /\
    scheduled (platform (react r encode o s)) = scheduled (platform s).

Lemma run_silent (os : list occurrence) (s : Sys) :
  Forall (fun o => is_connect o = false) os -> silent s ->
  silent (run r encode os s) /\
  scheduled (platform (run r encode os s)) = scheduled (platform s).
Proof.
  revert s. induction os as [|o os IH]; intros s Hos H; [now split|].
  inversion Hos as [|? ? Ho Hos']; subst. simpl.
  destruct (react_silent o s Ho H) as [H1 E1].
  destruct (IH _ Hos' H1) as [H2 E2]. split; [exact H2 | congruence].
Qed.

End Silent_runs.

(** X10.  In part_000 and part_001, once [disconnect] has run, nothing is
    played until the next [connect]: whatever messages, late decodings and
    other events follow, no source is started and the pending set stays
    empty. *)
Theorem nothing_plays_after_disconnect (encode : list Z -> string)
    (os : list occurrence) (s : Sys) :
  Forall (fun o => is_connect o = false) os ->
  (let s' := run part_000 encode os (Part000.disconnect s) in
   scheduled (platform s') = scheduled (platform s) /\ sources (this s') = ∅) /\
  (let s' := run part_001 encode os (Part001.disconnect s) in
   scheduled (platform s') = scheduled (platform s) /\ sources (this s') = ∅).
Proof.
  intros Hos. destruct (disconnect_silent s) as [H0 E0]. split.
  - destruct (run_silent part_000 encode (Part000_react_silent encode) os _ Hos H0)
      as [[_ H1] E1].
    split; [congruence | exact H1].
  - destruct (run_silent part_001 encode (Part001_react_silent encode) os _ Hos H0)
      as [[_ H1] E1].
    change (Part001.disconnect s) with (Part000.disconnect s).
    split; [congruence | exact H1].
Qed.

Lemma nothing_plays_after_disconnect_witness :
  sources (this (run part_000 chars
                   [Message 3 (signal false true); Decoded (Some (1 # 2)); Ended 6; Open]
                   (Part000.disconnect playing))) = ∅.
Proof.
  refine (proj2 (proj1 (nothing_plays_after_disconnect chars
            [Message 3 (signal false true); Decoded (Some (1 # 2)); Ended 6; Open]
            playing _))).
  repeat constructor.
Defined.

(** ** Set-up *)

Lemma truthy_key (key : string) : key <> "" -> truthy (Some key) = true.
Proof. intros H. now apply truthy_Some. Qed.

Lemma open_session_failure (targetLanguage : string) (env : Env) (st : step) (s : Sys) :
  failure env = Some st ->
  exists s', open_session targetLanguage env s = Throw s' /\
    log s' = log s /\
    objects (platform s') = objects (platform s) ++ opened_before st /\
    released (platform s') = released (platform s) /\
    sessionPromise (this s') = sessionPromise (this s) /\
    mediaStream (this s') = mediaStream (this s) /\
    scriptProcessor (this s') = scriptProcessor (this s).
Proof.
  intros Hfail. unfold open_session, fails. rewrite Hfail.
  destruct st; simpl; eexists; (split; [reflexivity|]); simpl;
    rewrite <- ?app_assoc, ?app_nil_r; now repeat split.
Qed.

(** X11.  When a call of the set-up fails (constructing the client or a
    context, resuming a context, the microphone request), [connect] of each
    revision calls [onError] exactly once and never reports LISTENING; no
    stream and no session is created or referenced; the audio contexts
    created before the failing call remain, and none of them is released. *)
Theorem connect_failure (targetLanguage key : string) (env : Env) (st : step) (s : Sys) :
  key_present env key ->
  failure env = Some st ->
  let after (s' : Sys) :=
    count_onError (emitted s s') = 1%nat /\
    ~ In (onStatusChange "LISTENING") (emitted s s') /\
    objects (platform s') = objects (platform s) ++ opened_before st /\
    released (platform s') = released (platform s) /\
    sessionPromise (this s') = sessionPromise (this s) /\
    mediaStream (this s') = mediaStream (this s) in
  after (LiveServiceTs.connect targetLanguage env s) /\
  after (Part000.connect targetLanguage env s) /\
  after (Part001.connect targetLanguage env s).
Proof.
  intros [Hkey Hne] Hfail after.
  destruct (open_session_failure targetLanguage env st s Hfail)
    as (s' & Hopen & Hlog & Hobj & Hrel & Hses & Hstr & _).
  pose proof (truthy_key key Hne) as Htruthy.
  split; [|split]; unfold after.
  - unfold LiveServiceTs.connect, LiveServiceTs.catch. rewrite Hkey, Htruthy, Hopen. simpl.
    rewrite (emitted_call s _ [console "Setup Error:";
                               onError "Microphone access denied or audio error."])
      by (simpl; now rewrite Hlog, <- app_assoc).
    repeat split; try assumption. simpl. intros [H|[H|[]]]; discriminate.
  - unfold Part000.connect, Part000.catch, Part000.apiKey.
    rewrite Hkey. simpl. simpl in Htruthy. rewrite Htruthy. simpl.
    destruct (negb (String.eqb key "")) eqn:E; [|simpl in Htruthy; congruence].
    rewrite Hopen. simpl.
    rewrite (emitted_call s _
               [console "Connection failed during setup:";
                onError "Audio initialization failed. Please ensure microphone access is granted.";
                onStatusChange "IDLE"])
      by (simpl; now rewrite Hlog, <- !app_assoc).
    repeat split; try assumption. simpl. intros [H|[H|[H|[]]]]; discriminate.
  - unfold Part001.connect, Part001.catch. rewrite Hkey, Hopen. simpl.
    rewrite (emitted_call s _ [console "Connection setup failed:";
                               onError "Could not initialize audio or reach the AI service."])
      by (simpl; now rewrite Hlog, <- app_assoc).
    repeat split; try assumption. simpl. intros [H|[H|[]]]; discriminate.
Qed.

Lemma connect_failure_witness :
  count_onError
    (emitted initial
       (Part001.connect "Spanish"
          {| process_env_API_KEY := Some (Some "key");
             window_process_env_API_KEY := None; failure := Some getUserMedia |}
          initial)) = 1%nat.
Proof.
  refine (proj1 (proj2 (proj2
    (connect_failure "Spanish" "key"
       {| process_env_API_KEY := Some (Some "key");
          window_process_env_API_KEY := None; failure := Some getUserMedia |}
       getUserMedia initial _ _)))).
  - split; [reflexivity | discriminate].
  - reflexivity.
Defined.

Lemma open_session_success (targetLanguage : string) (env : Env) (s : Sys) :
  failure env = None ->
  let n := length (objects (platform s)) in
  exists s', open_session targetLanguage env s = Normal s' /\
    log s' = log s /\
    objects (platform s') =
      objects (platform s) ++
        [AudioContext 16000; AudioContext 24000; MediaStream; LiveSession targetLanguage] /\
    inputAudioContext (this s') = Some n /\
    outputAudioContext (this s') = Some (S n) /\
    mediaStream (this s') = Some (S (S n)) /\
    sessionPromise (this s') = Some (S (S (S n))) /\
    scriptProcessor (this s') = scriptProcessor (this s) /\
    released (platform s') = released (platform s).
Proof.
  intros Hfail n. unfold open_session, fails. rewrite Hfail. simpl.
  eexists. split; [reflexivity|]. simpl.
  rewrite <- !app_assoc. simpl. rewrite !length_app. simpl.
  fold n. repeat split; f_equal; lia.
Qed.

(** X12.  With a key and no failure, [connect] of each revision makes no
    callback at all; it creates, in this order, the 16 kHz context, the
    24 kHz context, the microphone stream and the session for the target
    language, and the open event of the session then creates the capture
    nodes, references the processor, and reports LISTENING as its only
    status. *)
Theorem connect_then_open (targetLanguage key : string) (env : Env) (s : Sys) :
  key_present env key ->
  failure env = None ->
  let n := length (objects (platform s)) in
  let after (connect : string -> Env -> Sys -> Sys) (onopen : Sys -> Sys) :=
    emitted s (connect targetLanguage env s) = [] /\
    objects (platform (onopen (connect targetLanguage env s))) =
      objects (platform s) ++
        [AudioContext 16000; AudioContext 24000; MediaStream;
         LiveSession targetLanguage; MediaStreamSource; ScriptProcessor] /\
    scriptProcessor (this (onopen (connect targetLanguage env s))) = Some (n + 5)%nat /\
    List.filter (fun e => match e with onStatusChange _ => true | _ => false end)
      (emitted s (onopen (connect targetLanguage env s))) =
      [onStatusChange "LISTENING"] in
  after LiveServiceTs.connect LiveServiceTs.onopen /\
  after Part000.connect Part000.onopen /\
  after Part001.connect Part001.onopen.
Proof.
  intros [Hkey Hne] Hfail n after.
  destruct (open_session_success targetLanguage env s Hfail)
    as (s' & Hopen & Hlog & Hobj & Hin & Hout & Hstr & Hses & Hproc & Hrel).
  pose proof (truthy_key key Hne) as Htruthy.
  assert (Hstream : forall t, this t = this s' -> platform t = platform s' ->
            objects (platform (startStreaming t)) =
              objects (platform s) ++
                [AudioContext 16000; AudioContext 24000; MediaStream;
                 LiveSession targetLanguage; MediaStreamSource; ScriptProcessor] /\
            scriptProcessor (this (startStreaming t)) = Some (n + 5)%nat /\
            log (startStreaming t) = log t).
  { intros t Ht Hp. unfold startStreaming. rewrite Ht, Hin, Hstr, Hses. simpl.
    rewrite Hp, Hobj, <- !app_assoc, !length_app. simpl.
    now repeat split. }
  assert (E0 : LiveServiceTs.connect targetLanguage env s = s').
  { unfold LiveServiceTs.connect. now rewrite Hkey, Htruthy, Hopen. }
  assert (E1 : Part000.connect targetLanguage env s = s').
  { unfold Part000.connect, Part000.apiKey. rewrite Hkey. simpl.
    simpl in Htruthy. rewrite Htruthy. simpl. rewrite Htruthy. simpl. now rewrite Hopen. }
  assert (E2 : Part001.connect targetLanguage env s = s').
  { unfold Part001.connect. now rewrite Hkey, Hopen. }
  assert (Hnone : emitted s s' = []) by (apply emitted_call; now rewrite app_nil_r).
  split; [|split]; unfold after; rewrite ?E0, ?E1, ?E2; (split; [exact Hnone|]).
  - unfold LiveServiceTs.onopen.
    destruct (Hstream (call (onStatusChange "LISTENING") s') eq_refl eq_refl) as (A & B & C).
    rewrite A, B. repeat split.
    rewrite (emitted_call s _ [onStatusChange "LISTENING"]) by (rewrite C; simpl; now rewrite Hlog).
    reflexivity.
  - unfold Part000.onopen. cbv zeta.
    destruct (Hstream (call (onStatusChange "LISTENING")
                         (call (console "Live session connected") s')) eq_refl eq_refl)
      as (A & B & C).
    rewrite A, B. repeat split.
    rewrite (emitted_call s _ [console "Live session connected"; onStatusChange "LISTENING"])
      by (rewrite C; simpl; now rewrite Hlog, <- app_assoc).
    reflexivity.
  - unfold Part001.onopen.
    destruct (Hstream (call (onStatusChange "LISTENING") s') eq_refl eq_refl) as (A & B & C).
    rewrite A, B. repeat split.
    rewrite (emitted_call s _ [onStatusChange "LISTENING"]) by (rewrite C; simpl; now rewrite Hlog).
    reflexivity.
Qed.

Lemma connect_then_open_witness :
  objects (platform (Part000.onopen
                       (Part000.connect "Hindi"
                          {| process_env_API_KEY := Some (Some "key");
                             window_process_env_API_KEY := None; failure := None |}
                          initial))) =
  [AudioContext 16000; AudioContext 24000; MediaStream; LiveSession "Hindi";
   MediaStreamSource; ScriptProcessor].
Proof.
  refine (proj1 (proj2 (proj1 (proj2
    (connect_then_open "Hindi" "key"
       {| process_env_API_KEY := Some (Some "key");
          window_process_env_API_KEY := None; failure := None |}
       initial _ _))))).
  - split; [reflexivity | discriminate].
  - reflexivity.
Defined.

(** ** Capture loop *)

Section Capture.

Variable r : revision.
Variable encode : list Z -> string.

Lemma capture_run (blocks : list (list number)) (s : Sys) :
  let s' := run r encode (map AudioProcess blocks) s in
  this s' = this s /\ log s' = log s /\
  objects (platform s') = objects (platform s) /\
  sent (platform s') =
    sent (platform s) ++
      match sessionPromise (this s) with
      | Some _ => map (rev_createPcmBlob r encode) blocks
      | None => []
      end.
Proof.
  revert s. induction blocks as [|b bs IH]; intros s; simpl.
  - destruct (sessionPromise (this s)); rewrite app_nil_r; now repeat split.
  - match goal with |- context [run r encode _ ?t] => destruct (IH t) as (I1 & I2 & I3 & I4) end.
    simpl in *. rewrite I1, I2, I3, I4. unfold onaudioprocess.
    destruct (sessionPromise (this s)) eqn:E; simpl; rewrite ?E;
      rewrite <- ?app_assoc; now repeat split.
Qed.

End Capture.

(** X13.  While the service has a session, the captured blocks are sent in
    the order of capture, one blob per block, each the revision's encoding
    of that block; capturing changes nothing else and makes no callback. *)
Theorem capture_in_order (encode : list Z -> string) (blocks : list (list number)) (s : Sys) :
  is_Some (sessionPromise (this s)) ->
  let after (r : revision) :=
    sent (platform (run r encode (map AudioProcess blocks) s)) =
      sent (platform s) ++ map (rev_createPcmBlob r encode) blocks /\
    this (run r encode (map AudioProcess blocks) s) = this s /\
    log (run r encode (map AudioProcess blocks) s) = log s in
  after liveService_ts /\ after part_000 /\ after part_001.
Proof.
  intros [h Hh] after. unfold after.
  split; [|split];
    match goal with
    | |- context [run ?r _ _ _] =>
        destruct (capture_run r encode blocks s) as (H1 & H2 & _ & H4)
    end;
    rewrite Hh in H4; now repeat split.
Qed.

Lemma capture_in_order_witness :
  sent (platform (run part_000 chars
                    (map AudioProcess [[Fin (1 # 2)]; [NaN; Fin 3]]) listening)) =
  sent (platform listening) ++
    map (Part000.createPcmBlob chars) [[Fin (1 # 2)]; [NaN; Fin 3]].
Proof.
  refine (proj1 (proj1 (proj2
    (capture_in_order chars [[Fin (1 # 2)]; [NaN; Fin 3]] listening _)))).
  vm_compute. eauto.
Defined.

(** X14.  After [disconnect], in each revision, captured blocks are not
    sent: the processor may still deliver blocks, but the session promise is
    gone. *)
Theorem nothing_sent_after_disconnect (encode : list Z -> string)
    (blocks : list (list number)) (s : Sys) :
  sent (platform (run liveService_ts encode (map AudioProcess blocks)
                    (LiveServiceTs.disconnect s))) = sent (platform s) /\
  sent (platform (run part_000 encode (map AudioProcess blocks)
                    (Part000.disconnect s))) = sent (platform s) /\
  sent (platform (run part_001 encode (map AudioProcess blocks)
                    (Part001.disconnect s))) = sent (platform s).
Proof.
  split; [|split];
    match goal with
    | |- context [run ?r _ _ ?t] =>
        destruct (capture_run r encode blocks t) as (_ & _ & _ & H4)
    end;
    rewrite H4; simpl; rewrite !release_opt_sent; simpl; apply app_nil_r.
Qed.

(** ** Messages whose model turn has no parts *)

Lemma base64Audio_without_modelTurn (message : LiveServerMessage) :
  base64Audio (without_modelTurn message) = None.
Proof. unfold base64Audio, without_modelTurn. simpl. now destruct (serverContent message). Qed.

(** X15.  A message whose model turn has no [parts] is dropped whole by
    part_001: its transcriptions, its turn-complete and its interruption
    signal are lost with it and the state does not change.  liveService.ts
    and part_000 handle the same message as if it had no model turn. *)
Theorem turn_without_parts_dropped (now : Q) (message : LiveServerMessage) (s : Sys) :
  turn_without_parts message ->
  Part001.onmessage now message s = s /\
  LiveServiceTs.onmessage now message s =
    LiveServiceTs.onmessage now (without_modelTurn message) s /\
  Part000.onmessage now message s =
    Part000.onmessage now (without_modelTurn message) s.
Proof.
  intros (mt & Hmt & Hparts).
  assert (Haudio : base64Audio message = None).
  { unfold base64Audio. destruct (serverContent message) as [sc|]; [|reflexivity]. simpl in *.
    rewrite Hmt. simpl. now rewrite Hparts. }
  pose proof (base64Audio_without_modelTurn message) as Haudio'.
  assert (Hsame : forall complete : LiveServerMessage -> Sys -> Sys,
            (forall m t, complete m t = if flag turnComplete m then complete (signal true false) t else t) ->
            forall t,
            on_interrupted message
              (complete message
                 (on_outputTranscription message (on_inputTranscription message t))) =
            on_interrupted (without_modelTurn message)
              (complete (without_modelTurn message)
                 (on_outputTranscription (without_modelTurn message)
                    (on_inputTranscription (without_modelTurn message) t)))).
  { intros complete Hc t. rewrite (Hc message), (Hc (without_modelTurn message)).
    unfold on_interrupted, on_outputTranscription, on_inputTranscription, flag,
      without_modelTurn.
    destruct (serverContent message) as [sc|]; reflexivity. }
  split; [|split].
  - unfold Part001.onmessage, base64Audio_unchecked. rewrite Hmt, Hparts. reflexivity.
  - unfold LiveServiceTs.onmessage, LiveServiceTs.on_audio. rewrite Haudio, Haudio'.
    apply (Hsame LiveServiceTs.on_turnComplete).
    intros m t. unfold LiveServiceTs.on_turnComplete. now destruct (flag turnComplete m).
  - unfold Part000.onmessage, Part000.on_audio. rewrite Haudio, Haudio'.
    apply (Hsame Part000.on_turnComplete).
    intros m t. unfold Part000.on_turnComplete. now destruct (flag turnComplete m).
Qed.

Lemma turn_without_parts_dropped_witness :
  Part001.onmessage 1
    {| serverContent :=
         Some {| modelTurn := Some {| parts := None |};
                 inputTranscription := Some {| text := Some "Hello" |};
                 outputTranscription := None;
                 turnComplete := true; interrupted := true |} |} playing = playing.
Proof.
  refine (proj1 (turn_without_parts_dropped 1 _ playing _)).
  exists {| parts := None |}. split; reflexivity.
Defined.

(** ** What one message does to the transcript *)

Section Aggregate.

Variable message : LiveServerMessage.

Lemma aggregate_unconditional (complete : LiveServerMessage -> Sys -> Sys) (s : Sys) :
  (forall t, complete message t = LiveServiceTs.on_turnComplete message t) ->
  let s' := on_interrupted message
              (complete message
                 (on_outputTranscription message (on_inputTranscription message s))) in
  log s' = log s ++ message_events false message (currentInput (this s)) (currentOutput (this s)) /\
  currentInput (this s') = buffer_after input message (currentInput (this s)) /\
  currentOutput (this s') = buffer_after output message (currentOutput (this s)).
Proof.
  intros Hc. cbv zeta. rewrite Hc.
  unfold on_interrupted, LiveServiceTs.on_turnComplete, on_outputTranscription,
    on_inputTranscription, message_events, buffer_after, appended, fragment_text, flag.
  destruct (serverContent message) as [sc|]; simpl;
    [|rewrite app_nil_r; now repeat split].
  destruct (inputTranscription sc), (outputTranscription sc), (turnComplete sc),
    (interrupted sc); simpl; unfold concat;
    rewrite <- ?app_assoc, ?app_nil_r; now repeat split.
Qed.

Lemma aggregate_conditional (s : Sys) :
  let s' := on_interrupted message
              (Part000.on_turnComplete message
                 (on_outputTranscription message (on_inputTranscription message s))) in
  log s' = log s ++ message_events true message (currentInput (this s)) (currentOutput (this s)) /\
  currentInput (this s') = buffer_after input message (currentInput (this s)) /\
  currentOutput (this s') = buffer_after output message (currentOutput (this s)).
Proof.
  cbv zeta.
  unfold on_interrupted, Part000.on_turnComplete, on_outputTranscription,
    on_inputTranscription, message_events, buffer_after, appended, fragment_text, flag.
  destruct (serverContent message) as [sc|]; simpl;
    [|rewrite app_nil_r; now repeat split].
  destruct (inputTranscription sc) as [ti|], (outputTranscription sc) as [to|],
    (turnComplete sc), (interrupted sc); simpl; unfold truthy, concat; simpl;
    repeat match goal with
           | |- context [(?x =? "")%string] =>
               lazymatch x with
               | context [if _ then _ else _] => fail
               | _ => destruct (x =? "")%string; simpl
               end
           end;
    rewrite <- ?app_assoc, ?app_nil_r; now repeat split.
Qed.

End Aggregate.

(** *** Steps that leave the transcripts alone *)

Lemma mute_refl (s : Sys) : mute s s.
Proof. exists []. rewrite app_nil_r. now repeat split. Qed.

Lemma mute_trans (s s1 s2 : Sys) : mute s s1 -> mute s1 s2 -> mute s s2.
Proof.
  intros (l1 & H1 & F1 & I1 & O1) (l2 & H2 & F2 & I2 & O2). exists (l1 ++ l2).
  split; [now rewrite H2, H1, app_assoc|].
  split; [now apply Forall_app|]. split; congruence.
Qed.

Ltac mute_step :=
  eexists; split; [log_extended | split; [repeat constructor | split; reflexivity]].

Lemma playAudio_begin_mute (now : Q) (b : string) (s : Sys) :
  mute s (playAudio_begin now b s).
Proof. unfold playAudio_begin. destruct (outputAudioContext (this s)); mute_step. Qed.

Lemma playAudio_resume_mute (failed : Sys -> Sys) (audioBuffer : option Q) (s : Sys) :
  (forall t, mute t (failed t)) -> mute s (playAudio_resume failed audioBuffer s).
Proof.
  intros Hfailed. unfold playAudio_resume.
  destruct (decoding (platform s)); [apply mute_refl|].
  assert (Hsettle : mute s (on_platform settle_decode s)) by mute_step.
  destruct audioBuffer as [duration|];
    [destruct (outputAudioContext (this (on_platform settle_decode s))) eqn:E|].
  - mute_step.
  - eapply mute_trans; [exact Hsettle | apply Hfailed].
  - eapply mute_trans; [exact Hsettle | apply Hfailed].
Qed.

Lemma startStreaming_mute (s : Sys) : mute s (startStreaming s).
Proof. unfold startStreaming. repeat case_match; mute_step. Qed.

Lemma onaudioprocess_mute (f : list number -> Blob) (inputData : list number) (s : Sys) :
  mute s (onaudioprocess f inputData s).
Proof. unfold onaudioprocess. case_match; mute_step. Qed.

Lemma open_session_mute (targetLanguage : string) (env : Env) (s : Sys) :
  match open_session targetLanguage env s with
  | Normal s' | Throw s' => mute s s'
  end.
Proof.
  unfold open_session.
  repeat (destruct (fails env _); [mute_step|]).
  mute_step.
Qed.

(** *** The transcripts of a step *)

Lemma mute_transcribes (conditional : bool) (o : occurrence) (s s' : Sys) :
  occurrence_events conditional o (currentInput (this s)) (currentOutput (this s)) = [] ->
  occurrence_buffer input o (currentInput (this s)) = currentInput (this s) ->
  occurrence_buffer output o (currentOutput (this s)) = currentOutput (this s) ->
  mute s s' -> transcribes conditional o s s'.
Proof.
  intros He Hi Ho (l & Hl & Fl & I & O). exists l. rewrite He, app_nil_r, Hi, Ho.
  now repeat split.
Qed.

(** An inbound message, from the branches of its handler. *)
Lemma onmessage_transcribes (conditional : bool) (now : Q) (message : LiveServerMessage)
    (audio : Sys -> Sys) (complete : LiveServerMessage -> Sys -> Sys) (s : Sys) :
  mute s (audio s) ->
  (forall t,
     let t' := on_interrupted message
                 (complete message
                    (on_outputTranscription message (on_inputTranscription message t))) in
     log t' = log t ++
       message_events conditional message (currentInput (this t)) (currentOutput (this t)) /\
     currentInput (this t') = buffer_after input message (currentInput (this t)) /\
     currentOutput (this t') = buffer_after output message (currentOutput (this t))) ->
  transcribes conditional (Message now message) s
    (on_interrupted message
       (complete message
          (on_outputTranscription message (on_inputTranscription message (audio s))))).
Proof.
  intros (l & Hl & Fl & I & O) Hrest. destruct (Hrest (audio s)) as (H1 & H2 & H3).
  exists l. simpl. rewrite H1, H2, H3, Hl, I, O, app_assoc. now repeat split.
Qed.

Ltac mute_occurrence :=
  apply mute_transcribes; [reflexivity | reflexivity | reflexivity |].

Lemma LiveServiceTs_react_transcribes (encode : list Z -> string) (o : occurrence) (s : Sys) :
  transcribes false o s (react liveService_ts encode o s).
Proof.
  destruct o as [lang env| | |now message| | |audioBuffer|source|inputData];
    try mute_occurrence; simpl.
  - unfold LiveServiceTs.connect, LiveServiceTs.catch.
    pose proof (open_session_mute lang env s) as Hopen.
    destruct (process_env_API_KEY env) as [apiKey|]; [|mute_step].
    destruct (negb (truthy apiKey)); [mute_step|].
    destruct (open_session lang env s) as [s'|s']; [exact Hopen|].
    eapply mute_trans; [exact Hopen | mute_step].
  - mute_step.
  - unfold LiveServiceTs.onopen.
    eapply mute_trans; [|apply startStreaming_mute]. mute_step.
  - apply (onmessage_transcribes false now message (LiveServiceTs.on_audio now message)
             LiveServiceTs.on_turnComplete).
    + unfold LiveServiceTs.on_audio.
      destruct (base64Audio message) as [b|]; [|apply mute_refl].
      destruct (truthy (Some b)); [apply playAudio_begin_mute | apply mute_refl].
    + intros t. now apply aggregate_unconditional.
  - mute_step.
  - mute_step.
  - apply playAudio_resume_mute. intros t. apply mute_refl.
  - mute_step.
  - apply onaudioprocess_mute.
Qed.

Lemma Part000_react_transcribes (encode : list Z -> string) (o : occurrence) (s : Sys) :
  transcribes true o s (react part_000 encode o s).
Proof.
  destruct o as [lang env| | |now message| | |audioBuffer|source|inputData];
    try mute_occurrence; simpl.
  - unfold Part000.connect, Part000.catch.
    pose proof (open_session_mute lang env s) as Hopen.
    destruct (negb (truthy (Some (Part000.apiKey env)))); [mute_step|].
    destruct (open_session lang env s) as [s'|s']; [exact Hopen|].
    eapply mute_trans; [exact Hopen | mute_step].
  - mute_step.
  - unfold Part000.onopen.
    eapply mute_trans; [|apply startStreaming_mute]. mute_step.
  - apply (onmessage_transcribes true now message (Part000.on_audio now message)
             Part000.on_turnComplete).
    + unfold Part000.on_audio.
      destruct (base64Audio message) as [b|]; [|apply mute_refl].
      destruct (outputAudioContext (this s)); [|apply mute_refl].
      destruct (truthy (Some b)); [apply playAudio_begin_mute | apply mute_refl].
    + intros t. apply aggregate_conditional.
  - mute_step.
  - mute_step.
  - apply playAudio_resume_mute. intros t. mute_step.
  - mute_step.
  - apply onaudioprocess_mute.
Qed.

Lemma with_parts_unchecked (message : LiveServerMessage) :
  ~ turn_without_parts message ->
  base64Audio_unchecked message = Some (base64Audio message).
Proof.
  intros H. unfold base64Audio_unchecked, base64Audio, turn_without_parts in *.
  destruct (serverContent message) as [sc|]; simpl in *; [|reflexivity].
  destruct (modelTurn sc) as [mt|]; simpl; [|reflexivity].
  destruct (parts mt) as [ps|] eqn:E; simpl; [reflexivity|].
  destruct H. now exists mt.
Qed.

Lemma Part001_react_transcribes (encode : list Z -> string) (o : occurrence) (s : Sys) :
  with_parts o -> transcribes false o s (react part_001 encode o s).
Proof.
  intros Hparts.
  destruct o as [lang env| | |now message| | |audioBuffer|source|inputData];
    try mute_occurrence; simpl.
  - unfold Part001.connect, Part001.catch.
    pose proof (open_session_mute lang env s) as Hopen.
    destruct (process_env_API_KEY env) as [apiKey|]; [|mute_step].
    destruct (open_session lang env s) as [s'|s']; [exact Hopen|].
    eapply mute_trans; [exact Hopen | mute_step].
  - mute_step.
  - unfold Part001.onopen.
    eapply mute_trans; [|apply startStreaming_mute]. mute_step.
  - unfold Part001.onmessage. rewrite (with_parts_unchecked message Hparts).
    apply (onmessage_transcribes false now message
             (fun t => match base64Audio message, outputAudioContext (this t) with
                       | Some b, Some _ =>
                           if truthy (Some b) then playAudio_begin now b t else t
                       | _, _ => t
                       end)
             Part001.on_turnComplete).
    + destruct (base64Audio message) as [b|]; [|apply mute_refl].
      destruct (outputAudioContext (this s)); [|apply mute_refl].
      destruct (truthy (Some b)); [apply playAudio_begin_mute | apply mute_refl].
    + intros t. now apply aggregate_unconditional.
  - mute_step.
  - mute_step.
  - apply playAudio_resume_mute. intros t. mute_step.
  - mute_step.
  - apply onaudioprocess_mute.
Qed.

(** *** The transcripts of a run *)

Lemma str_append_nil_r (s : string) : s +:+ "" = s.
Proof.
  induction s as [|a s IH]; [reflexivity|].
  change (String a s +:+ "") with (String a (s +:+ "")). now rewrite IH.
Qed.

Lemma str_append_assoc (s t u : string) : (s +:+ t) +:+ u = s +:+ (t +:+ u).
Proof.
  induction s as [|a s IH]; [reflexivity|].
  change (String a (s +:+ t) +:+ u = String a (s +:+ (t +:+ u))).
  change (String a (s +:+ t) +:+ u) with (String a ((s +:+ t) +:+ u)). now rewrite IH.
Qed.

Lemma appended_append (d : direction) (message : LiveServerMessage) (b x : string) :
  appended d message (b +:+ x) = b +:+ appended d message x.
Proof.
  unfold appended. destruct (fragment_text d message); [apply str_append_assoc | reflexivity].
Qed.

Lemma accumulated_fragments (d : direction) (os : list occurrence) (b : string) :
  Forall (fun o => completes_turn o = false) os ->
  accumulated d os b = b +:+ fragments d os.
Proof.
  intros Hos. unfold accumulated, fragments.
  rewrite <- (str_append_nil_r b) at 1. generalize "" as x.
  induction Hos as [|o os Ho Hos IH]; intros x; [reflexivity|]. simpl.
  destruct o; simpl in *; try apply IH.
  unfold buffer_after. rewrite Ho, appended_append. apply IH.
Qed.

Lemma transcriptions_mute (f : bool) (d : direction) (l : list event) :
  Forall (fun e => is_transcription e = false) l -> transcriptions f d l = [].
Proof.
  induction 1 as [|e l He Hl IH]; [reflexivity|].
  unfold transcriptions in *. simpl. rewrite IH. now destruct e.
Qed.

Lemma message_events_finals (conditional : bool) (d : direction)
    (message : LiveServerMessage) (ci co : string) :
  transcriptions true d (message_events conditional message ci co) =
    if flag turnComplete message then
      let final := appended d message (match d with input => ci | output => co end) in
      if conditional && (final =? "")%string then [] else [final]
    else [].
Proof.
  unfold message_events. cbv zeta. rewrite !transcriptions_app.
  destruct (fragment_text input message), (fragment_text output message),
    (flag turnComplete message), d; simpl;
    rewrite ?transcriptions_app;
    repeat match goal with
           | |- context [conditional && ?b] => destruct (conditional && b); simpl
           end; reflexivity.
Qed.

Lemma message_events_no_empty_final (message : LiveServerMessage) (ci co : string) :
  Forall (fun e => empty_final e = false) (message_events true message ci co).
Proof.
  unfold message_events. cbv zeta.
  repeat apply Forall_app_2.
  - destruct (fragment_text input message); repeat constructor.
  - destruct (fragment_text output message); repeat constructor.
  - destruct (flag turnComplete message); [|constructor]. apply Forall_app_2; simpl.
    + destruct (appended input message ci =? "")%string eqn:E; repeat constructor.
      exact E.
    + destruct (appended output message co =? "")%string eqn:E; repeat constructor.
      exact E.
Qed.

Section Transcript_runs.

Variable r : revision.
Variable encode : list Z -> string.
Variable conditional : bool.
Variable accepted : occurrence -> Prop.

Hypothesis react_transcribes :
  forall o s, accepted o -> transcribes conditional o s (react r encode o s).

Lemma transcribes_buffer (d : direction) (o : occurrence) (s : Sys) :
  accepted o ->
  buffer d (this (react r encode o s)) = occurrence_buffer d o (buffer d (this s)).
Proof.
  intros Ho. destruct (react_transcribes o s Ho) as (l & _ & _ & I & O). now destruct d.
Qed.

Lemma run_accumulated (d : direction) (os : list occurrence) (s : Sys) :
  Forall accepted os ->
  buffer d (this (run r encode os s)) = accumulated d os (buffer d (this s)).
Proof.
  intros Hos. revert s. induction Hos as [|o os Ho Hos IH]; intros s; [reflexivity|].
  change (run r encode (o :: os) s) with (run r encode os (react r encode o s)).
  rewrite IH, transcribes_buffer by exact Ho. reflexivity.
Qed.

(** The calls of a run all have a property that the calls of other kinds
    and the transcription calls of each step have. *)
Lemma run_events (P : event -> Prop) (os : list occurrence) (s : Sys) :
  Forall accepted os ->
  (forall e, is_transcription e = false -> P e) ->
  (forall o ci co, Forall P (occurrence_events conditional o ci co)) ->
  exists l, log (run r encode os s) = log s ++ l /\ Forall P l.
Proof.
  intros Hos Hother Hevents. revert s.
  induction Hos as [|o os Ho Hos IH]; intros s.
  - exists []. now rewrite app_nil_r.
  - destruct (IH (react r encode o s)) as (l2 & H2 & F2).
    destruct (react_transcribes o s Ho) as (l1 & H1 & F1 & _).
    change (run r encode (o :: os) s) with (run r encode os (react r encode o s)).
    eexists. split; [rewrite H2, H1, <- !app_assoc; reflexivity|].
    repeat apply Forall_app_2; [|apply Hevents|exact F2].
    eapply Forall_impl; [exact F1 | exact Hother].
Qed.

Lemma run_no_final (d : direction) (os : list occurrence) (s : Sys) :
  Forall accepted os ->
  Forall (fun o => completes_turn o = false) os ->
  transcriptions true d (emitted s (run r encode os s)) = [].
Proof.
  intros Hos Hturn. revert s.
  induction Hos as [|o os Ho Hos IH]; intros s.
  - unfold emitted. simpl. now rewrite drop_all.
  - inversion Hturn as [|? ? Hto Hturn']; subst.
    destruct (react_transcribes o s Ho) as (l1 & H1 & F1 & _).
    specialize (IH Hturn' (react r encode o s)).
    destruct (run_events (fun _ => True) os (react r encode o s) Hos) as (l2 & H2 & _);
      [easy | intros; now apply Forall_forall |].
    rewrite (emitted_call _ _ _ H2) in IH.
    change (run r encode (o :: os) s) with (run r encode os (react r encode o s)).
    rewrite (emitted_call s _ (l1 ++ occurrence_events conditional o
      (currentInput (this s)) (currentOutput (this s)) ++ l2))
      by (rewrite H2, H1, <- !app_assoc; reflexivity).
    rewrite !transcriptions_app, IH, (transcriptions_mute _ _ _ F1), app_nil_r. simpl.
    destruct o; try reflexivity. simpl in *.
    now rewrite message_events_finals, Hto.
Qed.

Lemma message_final (d : direction) (now : Q) (message : LiveServerMessage) (s : Sys) :
  accepted (Message now message) ->
  flag turnComplete message = true ->
  transcriptions true d (emitted s (react r encode (Message now message) s)) =
    (let final := appended d message (buffer d (this s)) in
     if conditional && (final =? "")%string then [] else [final]) /\
  buffer d (this (react r encode (Message now message) s)) = "".
Proof.
  intros Ho Hturn. split.
  - destruct (react_transcribes _ s Ho) as (l & H & F & _).
    rewrite (emitted_call _ _ _ H), transcriptions_app, (transcriptions_mute _ _ _ F).
    simpl. rewrite message_events_finals, Hturn. now destruct d.
  - rewrite transcribes_buffer by exact Ho. simpl. unfold buffer_after. now rewrite Hturn.
Qed.

Lemma turn_final (d : direction) (os : list occurrence) (now : Q)
    (message : LiveServerMessage) (s : Sys) :
  Forall accepted os -> accepted (Message now message) ->
  Forall (fun o => completes_turn o = false) os ->
  flag turnComplete message = true ->
  let s1 := run r encode os s in
  let s2 := react r encode (Message now message) s1 in
  let final := appended d message (buffer d (this s) +:+ fragments d os) in
  transcriptions true d (emitted s s1) = [] /\
  transcriptions true d (emitted s1 s2) =
    (if conditional && (final =? "")%string then [] else [final]) /\
  buffer d (this s2) = "".
Proof.
  intros Hos Ho Hturn Hm. cbv zeta.
  split; [now apply run_no_final|].
  rewrite <- accumulated_fragments, <- run_accumulated by assumption.
  now apply message_final.
Qed.

End Transcript_runs.

(** X16.  liveService.ts: while no turn completes no final call is made;
    the message that completes the turn gives, for each direction, one final
    call whose text is the buffer at the start of the run followed by every
    fragment of that direction received since, in the order of arrival (its
    own included); the buffer is empty afterwards.  Nothing else the service
    goes through in between (capture, playback, set-up, teardown) changes
    the text. *)
Theorem final_text_is_concatenation (encode : list Z -> string) (os : list occurrence)
    (now : Q) (message : LiveServerMessage) (s : Sys) (d : direction) :
  Forall (fun o => completes_turn o = false) os ->
  flag turnComplete message = true ->
  let s1 := run liveService_ts encode os s in
  let s2 := LiveServiceTs.onmessage now message s1 in
  transcriptions true d (emitted s s1) = [] /\
  transcriptions true d (emitted s1 s2) =
    [appended d message (buffer d (this s) +:+ fragments d os)] /\
  buffer d (this s2) = "".
Proof.
  intros Hos Hm.
  apply (turn_final liveService_ts encode false (fun _ => True)); try assumption.
  - intros o t _. apply LiveServiceTs_react_transcribes.
  - now apply Forall_forall.
  - exact I.
Qed.

Lemma final_text_is_concatenation_witness :
  transcriptions true input
    (emitted
       (run liveService_ts chars
          [Message 0 (fragment input "Hel"); Message 0 (fragment output "Ho"); Open;
           Message 0 (fragment input "lo")] connected)
       (LiveServiceTs.onmessage 0 (signal true false)
          (run liveService_ts chars
             [Message 0 (fragment input "Hel"); Message 0 (fragment output "Ho"); Open;
              Message 0 (fragment input "lo")] connected))) = ["Hello"].
Proof.
  refine (proj1 (proj2
    (final_text_is_concatenation chars
       [Message 0 (fragment input "Hel"); Message 0 (fragment output "Ho"); Open;
        Message 0 (fragment input "lo")]
       0 (signal true false) connected input _ _))).
  - repeat constructor.
  - reflexivity.
Defined.

(** X17.  part_000: the same, but the final call is made only if the text
    is not empty. *)
Theorem Part000_final_text (encode : list Z -> string) (os : list occurrence)
    (now : Q) (message : LiveServerMessage) (s : Sys) (d : direction) :
  Forall (fun o => completes_turn o = false) os ->
  flag turnComplete message = true ->
  let s1 := run part_000 encode os s in
  let s2 := Part000.onmessage now message s1 in
  let final := appended d message (buffer d (this s) +:+ fragments d os) in
  transcriptions true d (emitted s s1) = [] /\
  transcriptions true d (emitted s1 s2) = (if (final =? "")%string then [] else [final]) /\
  buffer d (this s2) = "".
Proof.
  intros Hos Hm.
  apply (turn_final part_000 encode true (fun _ => True)); try assumption.
  - intros o t _. apply Part000_react_transcribes.
  - now apply Forall_forall.
  - exact I.
Qed.

Lemma Part000_final_text_witness :
  transcriptions true input
    (emitted
       (run part_000 chars
          [Message 0 (fragment input "Hel"); Message 0 (fragment output "Ho"); Open;
           Message 0 (fragment input "lo")] connected)
       (Part000.onmessage 0 (signal true false)
          (run part_000 chars
             [Message 0 (fragment input "Hel"); Message 0 (fragment output "Ho"); Open;
              Message 0 (fragment input "lo")] connected))) = ["Hello"].
Proof.
  refine (proj1 (proj2
    (Part000_final_text chars
       [Message 0 (fragment input "Hel"); Message 0 (fragment output "Ho"); Open;
        Message 0 (fragment input "lo")]
       0 (signal true false) connected input _ _))).
  - repeat constructor.
  - reflexivity.
Defined.

(** X18.  part_001: as in liveService.ts, as long as every message that has
    a model turn has [parts] in it. *)
Theorem Part001_final_text (encode : list Z -> string) (os : list occurrence)
    (now : Q) (message : LiveServerMessage) (s : Sys) (d : direction) :
  Forall with_parts os -> ~ turn_without_parts message ->
  Forall (fun o => completes_turn o = false) os ->
  flag turnComplete message = true ->
  let s1 := run part_001 encode os s in
  let s2 := Part001.onmessage now message s1 in
  transcriptions true d (emitted s s1) = [] /\
  transcriptions true d (emitted s1 s2) =
    [appended d message (buffer d (this s) +:+ fragments d os)] /\
  buffer d (this s2) = "".
Proof.
  intros Hparts Hp Hos Hm.
  apply (turn_final part_001 encode false with_parts); try assumption.
  intros o t. apply Part001_react_transcribes.
Qed.

Lemma Part001_final_text_witness :
  transcriptions true output
    (emitted
       (run part_001 chars
          [Message 0 (fragment input "Hel"); Message 0 (fragment output "Ho"); Open;
           Message 0 (fragment output "la")] connected)
       (Part001.onmessage 0 (signal true false)
          (run part_001 chars
             [Message 0 (fragment input "Hel"); Message 0 (fragment output "Ho"); Open;
              Message 0 (fragment output "la")] connected))) = ["Hola"].
Proof.
  refine (proj1 (proj2
    (Part001_final_text chars
       [Message 0 (fragment input "Hel"); Message 0 (fragment output "Ho"); Open;
        Message 0 (fragment output "la")]
       0 (signal true false) connected output _ _ _ _))).
  - repeat constructor; intros (mt & H & _); discriminate H.
  - intros (mt & H & _); discriminate H.
  - repeat constructor.
  - reflexivity.
Defined.

(** X19.  part_000 never makes a final call with an empty text, whatever
    it goes through and from whatever state. *)
Theorem Part000_no_empty_final (encode : list Z -> string) (os : list occurrence)
    (s : Sys) :
  Forall (fun e => empty_final e = false) (emitted s (run part_000 encode os s)).
Proof.
  destruct (run_events part_000 encode true (fun _ => True)
              (fun o t _ => Part000_react_transcribes encode o t)
              (fun e => empty_final e = false) os s) as (l & H & F).
  - now apply Forall_forall.
  - now intros [].
  - intros [] ci co; try constructor. apply message_events_no_empty_final.
  - now rewrite (emitted_call _ _ _ H).
Qed.

(** ** The component and the service together (App.tsx) *)

Lemma deliver_app (random : nat -> App.Entropy) (l1 l2 : list event) (a : App.State) :
  App.deliver random (l1 ++ l2) a =
    App.deliver (fun n => random (length l1 + n)%nat) l2 (App.deliver random l1 a).
Proof.
  revert random a. induction l1 as [|c l1 IH]; intros random a; [reflexivity|].
  simpl. now rewrite IH.
Qed.

(** The calls that are no transcription leave the transcripts alone. *)
Lemma deliver_mute (random : nat -> App.Entropy) (l : list event) (a : App.State) :
  Forall (fun e => is_transcription e = false) l ->
  App.currentInput (App.deliver random l a) = App.currentInput a /\
  App.currentOutput (App.deliver random l a) = App.currentOutput a /\
  App.transcripts (App.deliver random l a) = App.transcripts a.
Proof.
  intros Hl. revert random a.
  induction Hl as [|c l Hc Hl IH]; intros random a; [now repeat split|].
  simpl. destruct (IH (fun n => random (S n)) (App.callback (random 0%nat) c a))
    as (-> & -> & ->).
  now destruct c.
Qed.

Lemma deliver_message_events (conditional : bool) (message : LiveServerMessage)
    (random : nat -> App.Entropy) (a : App.State) :
  let a' := App.deliver random
              (message_events conditional message (App.currentInput a)
                 (App.currentOutput a)) a in
  App.currentInput a' = buffer_after input message (App.currentInput a) /\
  App.currentOutput a' = buffer_after output message (App.currentOutput a).
Proof.
  unfold message_events, buffer_after. cbv zeta.
  assert (Hempty : forall t : string, (t =? "")%string = true -> t = "")
    by (intros t; apply String.eqb_eq).
  destruct (flag turnComplete message), conditional; simpl;
    unfold appended;
    destruct (fragment_text input message) as [x|], (fragment_text output message) as [y|];
    simpl;
    repeat match goal with
           | |- context [(?t =? "")%string] =>
               let E := fresh "E" in
               destruct (t =? "")%string eqn:E; [apply Hempty in E|]; simpl
           end;
    split; congruence.
Qed.

(** The component after a step of the service that [transcribes]. *)
Lemma transcribes_in_sync (conditional : bool) (o : occurrence)
    (random : nat -> App.Entropy) (a : App.State) (s s' : Sys) :
  transcribes conditional o s s' -> in_sync (a, s) ->
  in_sync (App.deliver random (emitted s s') a, s').
Proof.
  intros (l & Hl & Fl & I & O) [Hi Ho]. unfold in_sync in *. simpl in *.
  rewrite (emitted_call _ _ _ Hl), deliver_app, I, O.
  destruct (deliver_mute random l a Fl) as (Hi' & Ho' & _).
  destruct o; simpl;
    try (rewrite app_nil_r in *; simpl; split; congruence).
  rewrite <- Hi, <- Ho, <- Hi', <- Ho'. apply deliver_message_events.
Qed.

Lemma Part001_onmessage_parts (now : Q) (message : LiveServerMessage) (s : Sys) :
  Part001.onmessage now message s = s \/ ~ turn_without_parts message.
Proof.
  unfold Part001.onmessage.
  destruct (base64Audio_unchecked message) eqn:E; [right|now left].
  intros (mt & Hmt & Hparts). unfold base64Audio_unchecked in E.
  now rewrite Hmt, Hparts in E.
Qed.

Section Display.

Variable service : revision.
Variable encode : list Z -> string.
Variable conditional : bool.

Hypothesis react_transcribes :
  forall o s, transcribes conditional o s (react service encode o s) \/
              react service encode o s = s.

Lemma react_in_sync (o : occurrence) (random : nat -> App.Entropy)
    (a : App.State) (s : Sys) :
  in_sync (a, s) ->
  in_sync (App.deliver random (emitted s (react service encode o s)) a,
           react service encode o s).
Proof.
  intros Hsync. destruct (react_transcribes o s) as [H|H].
  - now apply (transcribes_in_sync conditional o).
  - rewrite H. unfold emitted. now rewrite drop_all.
Qed.

Lemma perform_in_sync (random : nat -> App.Entropy) (x : App.action) (w : App.World) :
  App.is_clear x = false -> in_sync w -> in_sync (App.perform service encode random x w).
Proof.
  destruct w as [a s]. intros Hx Hsync. destruct x as [env| |lang|o]; simpl.
  - destruct (App.status a =? App.CONNECTING)%string; [exact Hsync|].
    destruct (App.status a =? App.IDLE)%string.
    + apply (react_in_sync (Connect (App.targetLang a) env) random
               (App.setStatus App.CONNECTING (App.setError None a)) s).
      exact Hsync.
    + pose proof (react_in_sync Disconnect random a s Hsync) as H.
      exact H.
  - discriminate.
  - destruct (App.status a =? App.IDLE)%string; exact Hsync.
  - now apply react_in_sync.
Qed.

Lemma session_in_sync (random : nat -> nat -> App.Entropy) (xs : list App.action)
    (w : App.World) :
  Forall (fun x => App.is_clear x = false) xs -> in_sync w ->
  in_sync (App.session service encode random xs w).
Proof.
  intros Hxs. revert random w.
  induction Hxs as [|x xs Hx Hxs IH]; intros random w Hsync; [exact Hsync|].
  simpl. apply IH. now apply perform_in_sync.
Qed.

End Display.

(** X20.  What the component shows as the text in progress is the buffer of
    the service, for both directions and in each revision: if it is so at
    the start of a session it is so after it, whatever the user clicks and
    whatever the service goes through, as long as the history is not
    cleared. *)
Theorem display_in_sync (encode : list Z -> string) (random : nat -> nat -> App.Entropy)
    (xs : list App.action) (w : App.World) :
  Forall (fun x => App.is_clear x = false) xs -> in_sync w ->
  in_sync (App.session liveService_ts encode random xs w) /\
  in_sync (App.session part_000 encode random xs w) /\
  in_sync (App.session part_001 encode random xs w).
Proof.
  intros Hxs Hsync. split; [|split].
  - apply (session_in_sync liveService_ts encode false); try assumption.
    intros o s. left. apply LiveServiceTs_react_transcribes.
  - apply (session_in_sync part_000 encode true); try assumption.
    intros o s. left. apply Part000_react_transcribes.
  - apply (session_in_sync part_001 encode false); try assumption.
    intros o s. destruct o as [| | |now message| | | | |];
      try (left; now apply Part001_react_transcribes).
    destruct (Part001_onmessage_parts now message s) as [H|H]; [now right|].
    left. now apply Part001_react_transcribes.
Qed.

Lemma display_in_sync_witness :
  in_sync
    (App.session part_000 chars (fun _ _ => ("id", 0%Q))
       [App.Service (Message 0 (fragment input "Hel")); App.Select "French";
        App.Service (Message 0 (fragment input "lo")); App.Click (Build_Env None None None)]
       (App.setStatus App.LISTENING App.mounted, listening)).
Proof.
  refine (proj1 (proj2
    (display_in_sync chars (fun _ _ => ("id", 0%Q))
       [App.Service (Message 0 (fragment input "Hel")); App.Select "French";
        App.Service (Message 0 (fragment input "lo")); App.Click (Build_Env None None None)]
       (App.setStatus App.LISTENING App.mounted, listening) _ _))).
  - repeat constructor.
  - split; reflexivity.
Defined.

Lemma deliver_worded (random : nat -> App.Entropy) (l : list event) (a : App.State) :
  Forall (fun e => empty_final e = false) l ->
  Forall worded (App.transcripts a) ->
  Forall worded (App.transcripts (App.deliver random l a)).
Proof.
  intros Hl. revert random a.
  induction Hl as [|c l Hc Hl IH]; intros random a Ha; [exact Ha|].
  simpl. apply IH. destruct c as [t d [|]| | |]; try exact Ha.
  - assert (Ht : worded {| App.id := fst (random 0%nat); App.text := t; App.type := d;
                           App.timestamp := snd (random 0%nat) |}).
    { unfold worded. simpl. intros ->. discriminate Hc. }
    destruct d; simpl; apply Forall_app_2; try exact Ha; now constructor.
  - now destruct d.
Qed.

Lemma Part000_react_worded (encode : list Z -> string) (o : occurrence) (s : Sys) :
  Forall (fun e => empty_final e = false) (emitted s (react part_000 encode o s)).
Proof.
  destruct (Part000_react_transcribes encode o s) as (l & Hl & Fl & _).
  rewrite (emitted_call _ _ _ Hl). apply Forall_app_2.
  - eapply Forall_impl; [exact Fl|]. now intros [].
  - destruct o; try constructor. apply message_events_no_empty_final.
Qed.

(** X21.  With part_000 no transcript item with an empty text is ever
    added to the history. *)
Theorem Part000_no_blank_item (encode : list Z -> string)
    (random : nat -> nat -> App.Entropy) (xs : list App.action) (w : App.World) :
  Forall worded (App.transcripts (fst w)) ->
  Forall worded (App.transcripts (fst (App.session part_000 encode random xs w))).
Proof.
  revert random w. induction xs as [|x xs IH]; intros random w Hw; [exact Hw|].
  simpl. apply IH. destruct w as [a s]. simpl in Hw.
  destruct x as [env| |lang|o]; simpl.
  - destruct (App.status a =? App.CONNECTING)%string; [exact Hw|].
    unfold App.toggleListen. destruct (App.status a =? App.IDLE)%string; simpl.
    + apply deliver_worded; [|exact Hw].
      apply (Part000_react_worded encode (Connect (App.targetLang a) env) s).
    + apply deliver_worded; [|exact Hw].
      apply (Part000_react_worded encode Disconnect s).
  - destruct (App.transcripts a) eqn:E; simpl; [now rewrite E | constructor].
  - destruct (App.status a =? App.IDLE)%string; exact Hw.
  - apply deliver_worded; [|exact Hw]. apply Part000_react_worded.
Qed.

Lemma Part000_no_blank_item_witness :
  Forall worded
    (App.transcripts
       (fst (App.session part_000 chars (fun _ _ => ("id", 0%Q))
               [App.Service (Message 0 (fragment input "Hi"));
                App.Service (Message 0 (signal true false))]
               (App.mounted, listening)))).
Proof.
  apply (Part000_no_blank_item chars (fun _ _ => ("id", 0%Q))
           [App.Service (Message 0 (fragment input "Hi"));
            App.Service (Message 0 (signal true false))]
           (App.mounted, listening)).
  constructor.
Defined.

Lemma emitted_same (s s' : Sys) : log s' = log s -> emitted s s' = [].
Proof. intros H. unfold emitted. rewrite H. apply drop_all. Qed.

(** X22.  A click on the idle component when the environment holds no API
    key (liveService.ts and part_000): the status becomes ERROR and an error
    text is set, the service holds what it held.  The next click does not
    connect: it calls [disconnect] and sets the status to IDLE, and the
    error text stays. *)
Theorem click_without_key (random random' : nat -> App.Entropy) (env env' : Env)
    (a : App.State) (s : Sys) :
  key_absent env -> App.status a = App.IDLE ->
  let after (service : revision) :=
    let w1 := App.toggleListen service random env (a, s) in
    let w2 := App.toggleListen service random' env' w1 in
    (App.status (fst w1) = App.ERROR /\ App.error (fst w1) <> None /\
     this (snd w1) = this s /\ platform (snd w1) = platform s) /\
    (App.status (fst w2) = App.IDLE /\ App.error (fst w2) = App.error (fst w1) /\
     this (snd w2) = this (rev_disconnect service s) /\
     platform (snd w2) = platform (rev_disconnect service s)) in
  after liveService_ts /\ after part_000.
Proof.
  intros [Hprocess Hwindow] Hidle after. unfold after, App.toggleListen. rewrite Hidle.
  simpl. split.
  - unfold LiveServiceTs.connect, LiveServiceTs.catch.
    destruct (process_env_API_KEY env) as [apiKey|]; simpl in *.
    + rewrite Hprocess. simpl.
      rewrite (emitted_call s _
                 [console "API Key is missing from environment variables (process.env.API_KEY).";
                  onError "API Key is missing from environment variables (process.env.API_KEY)."])
        by (simpl; now rewrite <- app_assoc).
      simpl. rewrite emitted_same by reflexivity. simpl.
      repeat split; discriminate.
    + rewrite (emitted_call s _ [console "Setup Error:";
                                 onError "Microphone access denied or audio error."])
        by (simpl; now rewrite <- app_assoc).
      simpl. rewrite emitted_same by reflexivity. simpl.
      repeat split; discriminate.
  - unfold Part000.connect, Part000.apiKey. rewrite Hprocess, Hwindow. simpl.
    rewrite (emitted_call s _
               [console "API_KEY is not defined in environment variables.";
                onError "API Key missing. Please set API_KEY in your environment settings.";
                onStatusChange "ERROR"])
      by (simpl; now rewrite <- !app_assoc).
    simpl. rewrite emitted_same by reflexivity. simpl.
    repeat split; discriminate.
Qed.

Lemma click_without_key_witness :
  App.status
    (fst (App.toggleListen liveService_ts (fun _ => ("id", 0%Q))
            (Build_Env (Some None) None None) (App.mounted, initial))) = App.ERROR.
Proof.
  refine (proj1 (proj1 (proj1
    (click_without_key (fun _ => ("id", 0%Q)) (fun _ => ("id", 0%Q))
       (Build_Env (Some None) None None) (Build_Env (Some None) None None)
       App.mounted initial _ _)))).
  - split; reflexivity.
  - reflexivity.
Defined.

(** X23.  A click on the idle component when a call of the set-up fails:
    an error text is set in each revision, but the status the component is
    left with differs: ERROR with liveService.ts and part_001, IDLE with
    part_000, whose [catch] reports IDLE after the error. *)
Theorem click_setup_failure (random : nat -> App.Entropy) (env : Env) (key : string)
    (st : step) (a : App.State) (s : Sys) :
  key_present env key -> failure env = Some st -> App.status a = App.IDLE ->
  let after (service : revision) := fst (App.toggleListen service random env (a, s)) in
  (App.status (after liveService_ts) = App.ERROR /\ App.error (after liveService_ts) <> None) /\
  (App.status (after part_001) = App.ERROR /\ App.error (after part_001) <> None) /\
  (App.status (after part_000) = App.IDLE /\ App.error (after part_000) <> None).
Proof.
  intros [Hkey Hne] Hfail Hidle after. unfold after, App.toggleListen. rewrite Hidle. simpl.
  destruct (open_session_failure (App.targetLang a) env st s Hfail)
    as (s' & Hopen & Hlog & _).
  pose proof (truthy_key key Hne) as Htruthy.
  split; [|split].
  - unfold LiveServiceTs.connect, LiveServiceTs.catch. rewrite Hkey, Htruthy, Hopen. simpl.
    rewrite (emitted_call s _ [console "Setup Error:";
                               onError "Microphone access denied or audio error."])
      by (simpl; now rewrite Hlog, <- app_assoc).
    simpl. split; [reflexivity | discriminate].
  - unfold Part001.connect, Part001.catch. rewrite Hkey, Hopen. simpl.
    rewrite (emitted_call s _ [console "Connection setup failed:";
                               onError "Could not initialize audio or reach the AI service."])
      by (simpl; now rewrite Hlog, <- app_assoc).
    simpl. split; [reflexivity | discriminate].
  - unfold Part000.connect, Part000.catch, Part000.apiKey.
    rewrite Hkey. simpl. simpl in Htruthy. rewrite Htruthy. simpl. rewrite Htruthy. simpl.
    rewrite Hopen.
    rewrite (emitted_call s _
               [console "Connection failed during setup:";
                onError "Audio initialization failed. Please ensure microphone access is granted.";
                onStatusChange "IDLE"])
      by (simpl; now rewrite Hlog, <- !app_assoc).
    simpl. split; [reflexivity | discriminate].
Qed.

Lemma click_setup_failure_witness :
  App.status
    (fst (App.toggleListen part_000 (fun _ => ("id", 0%Q))
            (Build_Env (Some (Some "key")) None (Some getUserMedia))
            (App.mounted, initial))) = App.IDLE.
Proof.
  refine (proj1 (proj2 (proj2
    (click_setup_failure (fun _ => ("id", 0%Q))
       (Build_Env (Some (Some "key")) None (Some getUserMedia)) "key" getUserMedia
       App.mounted initial _ _ _)))).
  - split; [reflexivity | discriminate].
  - reflexivity.
  - reflexivity.
Defined.

(** *** The status the service reports *)

Lemma reporting_refl (s : Sys) : reporting s s.
Proof. exists []. now rewrite app_nil_r. Qed.

Lemma reporting_trans (s s1 s2 : Sys) : reporting s s1 -> reporting s1 s2 -> reporting s s2.
Proof.
  intros (l1 & H1 & F1) (l2 & H2 & F2). exists (l1 ++ l2).
  split; [now rewrite H2, H1, app_assoc | now apply Forall_app_2].
Qed.

Ltac reports :=
  repeat first
    [ apply List.Forall_nil
    | apply List.Forall_cons;
      [first [exact I | left; reflexivity | right; left; reflexivity
             | right; right; left; reflexivity | right; right; right; reflexivity]|] ].

Ltac reporting_step := eexists; split; [log_extended | reports].

Lemma playAudio_begin_reporting (now : Q) (b : string) (s : Sys) :
  reporting s (playAudio_begin now b s).
Proof. unfold playAudio_begin. destruct (outputAudioContext (this s)); reporting_step. Qed.

Lemma playAudio_resume_reporting (failed : Sys -> Sys) (audioBuffer : option Q) (s : Sys) :
  (forall t, reporting t (failed t)) -> reporting s (playAudio_resume failed audioBuffer s).
Proof.
  intros Hfailed. unfold playAudio_resume.
  destruct (decoding (platform s)); [apply reporting_refl|].
  assert (Hsettle : reporting s (on_platform settle_decode s)) by reporting_step.
  destruct audioBuffer as [duration|];
    [destruct (outputAudioContext (this (on_platform settle_decode s))) eqn:E|].
  - reporting_step.
  - eapply reporting_trans; [exact Hsettle | apply Hfailed].
  - eapply reporting_trans; [exact Hsettle | apply Hfailed].
Qed.

Lemma startStreaming_reporting (s : Sys) : reporting s (startStreaming s).
Proof. unfold startStreaming. repeat case_match; reporting_step. Qed.

Lemma onaudioprocess_reporting (f : list number -> Blob) (inputData : list number)
    (s : Sys) :
  reporting s (onaudioprocess f inputData s).
Proof. unfold onaudioprocess. case_match; reporting_step. Qed.

Lemma open_session_reporting (targetLanguage : string) (env : Env) (s : Sys) :
  match open_session targetLanguage env s with
  | Normal s' | Throw s' => reporting s s'
  end.
Proof.
  unfold open_session.
  repeat (destruct (fails env _); [reporting_step|]).
  reporting_step.
Qed.

Lemma transcription_branches_reporting (message : LiveServerMessage) (s : Sys) :
  reporting s (on_outputTranscription message (on_inputTranscription message s)).
Proof.
  apply (reporting_trans s (on_inputTranscription message s)).
  - unfold on_inputTranscription.
    destruct (serverContent message ≫= inputTranscription); [reporting_step|].
    apply reporting_refl.
  - unfold on_outputTranscription.
    destruct (serverContent message ≫= outputTranscription); [reporting_step|].
    apply reporting_refl.
Qed.

Lemma on_interrupted_reporting (message : LiveServerMessage) (s : Sys) :
  reporting s (on_interrupted message s).
Proof.
  unfold on_interrupted. destruct (flag interrupted message); [reporting_step|].
  apply reporting_refl.
Qed.

(** An inbound message, from the branches of its handler. *)
Lemma onmessage_reporting (message : LiveServerMessage) (audio complete : Sys -> Sys)
    (s : Sys) :
  (forall t, reporting t (audio t)) -> (forall t, reporting t (complete t)) ->
  reporting s
    (on_interrupted message
       (complete (on_outputTranscription message (on_inputTranscription message (audio s))))).
Proof.
  intros Haudio Hcomplete.
  eapply reporting_trans; [apply Haudio|].
  eapply reporting_trans; [apply transcription_branches_reporting|].
  eapply reporting_trans; [apply Hcomplete | apply on_interrupted_reporting].
Qed.

Lemma LiveServiceTs_react_reporting (encode : list Z -> string) (o : occurrence) (s : Sys) :
  reporting s (react liveService_ts encode o s).
Proof.
  destruct o as [lang env| | |now message| | |audioBuffer|source|inputData]; simpl.
  - unfold LiveServiceTs.connect, LiveServiceTs.catch.
    pose proof (open_session_reporting lang env s) as Hopen.
    destruct (process_env_API_KEY env) as [apiKey|]; [|reporting_step].
    destruct (negb (truthy apiKey)); [reporting_step|].
    destruct (open_session lang env s) as [s'|s']; [exact Hopen|].
    eapply reporting_trans; [exact Hopen | reporting_step].
  - reporting_step.
  - unfold LiveServiceTs.onopen.
    eapply reporting_trans; [|apply startStreaming_reporting]. reporting_step.
  - apply (onmessage_reporting message (LiveServiceTs.on_audio now message)
             (LiveServiceTs.on_turnComplete message)).
    + intros t. unfold LiveServiceTs.on_audio.
      destruct (base64Audio message) as [b|]; [|apply reporting_refl].
      destruct (truthy (Some b)); [apply playAudio_begin_reporting | apply reporting_refl].
    + intros t. unfold LiveServiceTs.on_turnComplete.
      destruct (flag turnComplete message); [reporting_step | apply reporting_refl].
  - reporting_step.
  - reporting_step.
  - apply playAudio_resume_reporting. intros t. apply reporting_refl.
  - reporting_step.
  - apply onaudioprocess_reporting.
Qed.

Lemma Part000_react_reporting (encode : list Z -> string) (o : occurrence) (s : Sys) :
  reporting s (react part_000 encode o s).
Proof.
  destruct o as [lang env| | |now message| | |audioBuffer|source|inputData]; simpl.
  - unfold Part000.connect, Part000.catch.
    pose proof (open_session_reporting lang env s) as Hopen.
    destruct (negb (truthy (Some (Part000.apiKey env)))); [reporting_step|].
    destruct (open_session lang env s) as [s'|s']; [exact Hopen|].
    eapply reporting_trans; [exact Hopen | reporting_step].
  - reporting_step.
  - unfold Part000.onopen.
    eapply reporting_trans; [|apply startStreaming_reporting]. reporting_step.
  - apply (onmessage_reporting message (Part000.on_audio now message)
             (Part000.on_turnComplete message)).
    + intros t. unfold Part000.on_audio.
      destruct (base64Audio message) as [b|]; [|apply reporting_refl].
      destruct (outputAudioContext (this t)); [|apply reporting_refl].
      destruct (truthy (Some b)); [apply playAudio_begin_reporting | apply reporting_refl].
    + intros t. unfold Part000.on_turnComplete.
      destruct (flag turnComplete message); simpl; [|apply reporting_refl].
      destruct (negb (currentInput (this t) =? "")%string); simpl;
        destruct (negb (currentOutput (this t) =? "")%string); simpl; reporting_step.
  - reporting_step.
  - reporting_step.
  - apply playAudio_resume_reporting. intros t. reporting_step.
  - reporting_step.
  - apply onaudioprocess_reporting.
Qed.

Lemma Part001_react_reporting (encode : list Z -> string) (o : occurrence) (s : Sys) :
  reporting s (react part_001 encode o s).
Proof.
  destruct o as [lang env| | |now message| | |audioBuffer|source|inputData]; simpl.
  - unfold Part001.connect, Part001.catch.
    pose proof (open_session_reporting lang env s) as Hopen.
    destruct (process_env_API_KEY env) as [apiKey|]; [|reporting_step].
    destruct (open_session lang env s) as [s'|s']; [exact Hopen|].
    eapply reporting_trans; [exact Hopen | reporting_step].
  - reporting_step.
  - unfold Part001.onopen.
    eapply reporting_trans; [|apply startStreaming_reporting]. reporting_step.
  - unfold Part001.onmessage.
    destruct (base64Audio_unchecked message) as [audio|]; [|apply reporting_refl].
    apply (onmessage_reporting message
             (fun t => match audio, outputAudioContext (this t) with
                       | Some b, Some _ =>
                           if truthy (Some b) then playAudio_begin now b t else t
                       | _, _ => t
                       end)
             (Part001.on_turnComplete message)).
    + intros t. destruct audio as [b|]; [|apply reporting_refl].
      destruct (outputAudioContext (this t)); [|apply reporting_refl].
      destruct (truthy (Some b)); [apply playAudio_begin_reporting | apply reporting_refl].
    + intros t. unfold Part001.on_turnComplete.
      destruct (flag turnComplete message); [reporting_step | apply reporting_refl].
  - reporting_step.
  - reporting_step.
  - apply playAudio_resume_reporting. intros t. reporting_step.
  - reporting_step.
  - apply onaudioprocess_reporting.
Qed.

Lemma deliver_status (random : nat -> App.Entropy) (l : list event) (a : App.State) :
  Forall reports_AppStatus l -> is_AppStatus (App.status a) ->
  is_AppStatus (App.status (App.deliver random l a)).
Proof.
  intros Hl. revert random a.
  induction Hl as [|c l Hc Hl IH]; intros random a Ha; [exact Ha|].
  simpl. apply IH. destruct c as [t d f|v|m|m]; simpl.
  - unfold App.handleTranscription. now destruct f, d.
  - exact Hc.
  - right; right; right; reflexivity.
  - exact Ha.
Qed.

Section Status.

Variable service : revision.
Variable encode : list Z -> string.

Hypothesis react_reporting : forall o s, reporting s (react service encode o s).

Lemma react_status (o : occurrence) (random : nat -> App.Entropy) (a : App.State)
    (s : Sys) :
  is_AppStatus (App.status a) ->
  is_AppStatus (App.status (App.deliver random (emitted s (react service encode o s)) a)).
Proof.
  intros Ha. destruct (react_reporting o s) as (l & Hl & Fl).
  rewrite (emitted_call _ _ _ Hl). now apply deliver_status.
Qed.

Lemma session_status (random : nat -> nat -> App.Entropy) (xs : list App.action)
    (w : App.World) :
  is_AppStatus (App.status (fst w)) ->
  is_AppStatus (App.status (fst (App.session service encode random xs w))).
Proof.
  revert random w. induction xs as [|x xs IH]; intros random w Hw; [exact Hw|].
  simpl. apply IH. destruct w as [a s]. simpl in Hw.
  destruct x as [env| |lang|o]; simpl.
  - destruct (App.status a =? App.CONNECTING)%string; [exact Hw|].
    unfold App.toggleListen. destruct (App.status a =? App.IDLE)%string; simpl.
    + apply (react_status (Connect (App.targetLang a) env)).
      right; left; reflexivity.
    + left; reflexivity.
  - now destruct (App.transcripts a).
  - now destruct (App.status a =? App.IDLE)%string.
  - now apply react_status.
Qed.

End Status.

(** X24.  The status of the component is always one of the four values of
    [AppStatus], with each revision of the service, although the service
    reports plain strings that the component casts. *)
Theorem status_is_AppStatus (encode : list Z -> string)
    (random : nat -> nat -> App.Entropy) (xs : list App.action) (w : App.World) :
  is_AppStatus (App.status (fst w)) ->
  is_AppStatus (App.status (fst (App.session liveService_ts encode random xs w))) /\
  is_AppStatus (App.status (fst (App.session part_000 encode random xs w))) /\
  is_AppStatus (App.status (fst (App.session part_001 encode random xs w))).
Proof.
  intros Hw. split; [|split]; apply session_status; try assumption.
  - apply LiveServiceTs_react_reporting.
  - apply Part000_react_reporting.
  - apply Part001_react_reporting.
Qed.

Lemma status_is_AppStatus_witness :
  is_AppStatus
    (App.status
       (fst (App.session liveService_ts chars (fun _ _ => ("id", 0%Q))
               [App.Click (Build_Env (Some (Some "key")) None None); App.Service Open;
                App.Service Error; App.Service Close]
               (App.mounted, initial)))).
Proof.
  refine (proj1
    (status_is_AppStatus chars (fun _ _ => ("id", 0%Q))
       [App.Click (Build_Env (Some (Some "key")) None None); App.Service Open;
        App.Service Error; App.Service Close]
       (App.mounted, initial) _)).
  left. reflexivity.
Defined.

Lemma open_session_sources (targetLanguage : string) (env : Env) (s : Sys) :
  match open_session targetLanguage env s with
  | Normal s' | Throw s' => sources (this s') = sources (this s)
  end.
Proof.
  unfold open_session.
  repeat (destruct (fails env _); [reflexivity|]).
  reflexivity.
Qed.

(** X25.  With part_000, a set-up that fails after an audio context was
    created leaves the component IDLE, so the next click connects again
    without a [disconnect] in between: the 16 kHz context of the failed
    attempt is then neither released nor referenced by the service any
    more. *)
Theorem Part000_retry_leaks (random random' : nat -> App.Entropy) (env env' : Env)
    (key key' : string) (st : step) (a : App.State) (s : Sys) :
  key_present env key -> failure env = Some st -> opened_before st <> [] ->
  key_present env' key' -> failure env' = None ->
  App.status a = App.IDLE ->
  well_formed s ->
  (forall h, h ∈ released (platform s) -> (h < length (objects (platform s)))%nat) ->
  let n := length (objects (platform s)) in
  let w1 := App.toggleListen part_000 random env (a, s) in
  let w2 := App.toggleListen part_000 random' env' w1 in
  objects (platform (snd w2)) !! n = Some (AudioContext 16000) /\
  (n ∉ released (platform (snd w2))) /\
  (n ∉ held (this (snd w2))).
Proof.
  intros [Hkey Hne] Hfail Hopened [Hkey' Hne'] Hfail' Hidle Hwf Hreleased n w1 w2.
  pose proof (truthy_key key Hne) as Htruthy. simpl in Htruthy.
  pose proof (truthy_key key' Hne') as Htruthy'. simpl in Htruthy'.
  assert (Hsources : forall h, h ∈ sources (this s) -> (h < n)%nat).
  { intros h Hh. eapply lookup_lt_Some. apply (wf_sources s Hwf h Hh). }
  assert (Hprocessor : forall h, scriptProcessor (this s) = Some h -> (h < n)%nat).
  { intros h Hh. eapply lookup_lt_Some. apply (wf_processor s Hwf h Hh). }
  assert (Hfresh : n ∉ released (platform s)).
  { intros Hn. apply Hreleased in Hn. unfold n in Hn. lia. }
  (* the first click *)
  destruct (open_session_failure (App.targetLang a) env st s Hfail)
    as (s1 & Hopen & Hlog & Hobj & Hrel & _ & _ & Hproc).
  pose proof (open_session_sources (App.targetLang a) env s) as Hsrc. rewrite Hopen in Hsrc.
  assert (H1 : w1 = (App.setStatus App.IDLE
                       (App.setError
                          (Some "Audio initialization failed. Please ensure microphone access is granted.")
                          a), Part000.catch s1)).
  { unfold w1, App.toggleListen. rewrite Hidle. simpl.
    unfold Part000.connect, Part000.apiKey.
    rewrite Hkey. simpl. rewrite Htruthy. simpl. rewrite Htruthy. simpl. rewrite Hopen.
    rewrite (emitted_call s _
               [console "Connection failed during setup:";
                onError "Audio initialization failed. Please ensure microphone access is granted.";
                onStatusChange "IDLE"])
      by (simpl; now rewrite Hlog, <- !app_assoc).
    reflexivity. }
  (* the second click *)
  destruct (open_session_success (App.targetLang a) env' (Part000.catch s1) Hfail')
    as (s2 & Hopen2 & _ & Hobj2 & Hin2 & Hout2 & Hstr2 & Hses2 & Hproc2 & Hrel2).
  pose proof (open_session_sources (App.targetLang a) env' (Part000.catch s1)) as Hsrc2.
  rewrite Hopen2 in Hsrc2.
  assert (H2 : snd w2 = s2).
  { unfold w2. rewrite H1. unfold App.toggleListen. simpl.
    unfold Part000.connect, Part000.apiKey.
    rewrite Hkey'. simpl. rewrite Htruthy'. simpl. rewrite Htruthy'. simpl.
    now rewrite Hopen2. }
  rewrite H2. simpl in *.
  assert (Hlen : (n < length (objects (platform s1)))%nat).
  { rewrite Hobj, length_app. fold n. destruct (opened_before st); [contradiction|].
    simpl. lia. }
  split; [|split].
  - rewrite Hobj2, lookup_app_l by exact Hlen.
    rewrite Hobj. fold n. unfold n. rewrite lookup_app_r by lia.
    rewrite Nat.sub_diag. destruct st; simpl in *; try reflexivity; contradiction.
  - now rewrite Hrel2, Hrel.
  - unfold held. rewrite Hsrc2, Hsrc, Hin2, Hout2, Hstr2, Hses2, Hproc2, Hproc.
    intros Hn.
    repeat (apply elem_of_union in Hn as [Hn|Hn]); simpl in Hn.
    + apply Hsources in Hn. lia.
    + apply elem_of_singleton in Hn. lia.
    + destruct (scriptProcessor (this s)) as [h|] eqn:E; simpl in Hn.
      * apply elem_of_singleton in Hn. subst h. specialize (Hprocessor n eq_refl). lia.
      * now apply elem_of_empty in Hn.
    + apply elem_of_singleton in Hn. lia.
    + apply elem_of_singleton in Hn. lia.
    + apply elem_of_singleton in Hn. lia.
Qed.

Lemma Part000_retry_leaks_witness :
  objects (platform (snd
     (App.toggleListen part_000 (fun _ => ("id", 0%Q))
        (Build_Env (Some (Some "key")) None None)
        (App.toggleListen part_000 (fun _ => ("id", 0%Q))
           (Build_Env (Some (Some "key")) None (Some getUserMedia))
           (App.mounted, initial))))) !! 0%nat = Some (AudioContext 16000).
Proof.
  refine (proj1
    (Part000_retry_leaks (fun _ => ("id", 0%Q)) (fun _ => ("id", 0%Q))
       (Build_Env (Some (Some "key")) None (Some getUserMedia))
       (Build_Env (Some (Some "key")) None None)
       "key" "key" getUserMedia App.mounted initial _ _ _ _ _ _ _ _)).
  - split; [reflexivity | discriminate].
  - reflexivity.
  - discriminate.
  - split; [reflexivity | discriminate].
  - reflexivity.
  - reflexivity.
  - exact well_formed_initial.
  - intros h H. simpl in H. now apply elem_of_empty in H.
Defined.

(** The history grows by the final calls, in their order. *)
Lemma deliver_transcripts (random : nat -> App.Entropy) (l : list event) (a : App.State) :
  wording (App.transcripts (App.deliver random l a)) =
    wording (App.transcripts a) ++ finals l.
Proof.
  revert random a. induction l as [|c l IH]; intros random a.
  - simpl. now rewrite app_nil_r.
  - simpl. rewrite IH. destruct c as [t d [|]| | |]; simpl; try reflexivity.
    + unfold wording. destruct d; simpl; now rewrite map_app, <- app_assoc.
    + now destruct d.
Qed.

Lemma finals_mute (l : list event) :
  Forall (fun e => is_transcription e = false) l -> finals l = [].
Proof.
  induction 1 as [|e l He Hl IH]; [reflexivity|].
  unfold finals in *. simpl. rewrite IH. now destruct e.
Qed.

(** X26.  With liveService.ts, a turn-complete message that arrives when
    both buffers are empty and that carries no transcription adds two items
    with an empty text to the history, one for each direction. *)
Theorem LiveServiceTs_blank_items (encode : list Z -> string) (random : nat -> App.Entropy)
    (now : Q) (message : LiveServerMessage) (a : App.State) (s : Sys) :
  flag turnComplete message = true ->
  fragment_text input message = None -> fragment_text output message = None ->
  currentInput (this s) = "" -> currentOutput (this s) = "" ->
  let w := App.perform liveService_ts encode random (App.Service (Message now message))
             (a, s) in
  wording (App.transcripts (fst w)) =
    wording (App.transcripts a) ++ [("", input); ("", output)].
Proof.
  intros Hturn Hin Hout Hci Hco. simpl.
  destruct (LiveServiceTs_react_transcribes encode (Message now message) s)
    as (l & Hl & Fl & _).
  simpl in Hl. rewrite (emitted_call _ _ _ Hl), deliver_transcripts.
  unfold finals. rewrite flat_map_app. fold (finals l). rewrite (finals_mute l Fl).
  unfold message_events, appended. rewrite Hin, Hout, Hturn, Hci, Hco. reflexivity.
Qed.

Lemma LiveServiceTs_blank_items_witness :
  wording
    (App.transcripts
       (fst (App.perform liveService_ts chars (fun _ => ("id", 0%Q))
               (App.Service (Message 0 (signal true false))) (App.mounted, listening)))) =
  [("", input); ("", output)].
Proof.
  apply (LiveServiceTs_blank_items chars (fun _ => ("id", 0%Q)) 0 (signal true false)
           App.mounted listening); reflexivity.
Defined.

(** X27.  Clearing the history in the middle of a turn empties the text in
    progress on display but not the buffer of the service: the next
    fragment of the direction brings the whole text of the turn back, in
    each revision. *)
Theorem clearHistory_mid_turn (encode : list Z -> string) (random random' : nat -> App.Entropy)
    (now : Q) (message : LiveServerMessage) (x : string) (a : App.State) (s : Sys) :
  App.transcripts a <> [] ->
  fragment_text input message = Some x -> flag turnComplete message = false ->
  ~ turn_without_parts message ->
  let after (service : revision) :=
    let w1 := App.perform service encode random App.ClearHistory (a, s) in
    let w2 := App.perform service encode random' (App.Service (Message now message)) w1 in
    App.currentInput (fst w1) = "" /\
    App.currentInput (fst w2) = currentInput (this s) +:+ x in
  after liveService_ts /\ after part_000 /\ after part_001.
Proof.
  intros Hitems Hin Hturn Hparts after.
  assert (Hstep : forall service conditional,
            transcribes conditional (Message now message) s
              (react service encode (Message now message) s) ->
            after service).
  { intros service conditional (l & Hl & Fl & _). unfold after. simpl.
    destruct (App.transcripts a) as [|i items] eqn:E; [contradiction|]. simpl.
    split; [reflexivity|].
    simpl in Hl. rewrite (emitted_call _ _ _ Hl), deliver_app.
    unfold message_events, appended. rewrite Hin, Hturn, app_nil_r. simpl.
    now destruct (fragment_text output message). }
  split; [|split].
  - apply (Hstep liveService_ts false). apply LiveServiceTs_react_transcribes.
  - apply (Hstep part_000 true). apply Part000_react_transcribes.
  - apply (Hstep part_001 false). now apply Part001_react_transcribes.
Qed.

Lemma clearHistory_mid_turn_witness :
  App.currentInput
    (fst (App.perform part_001 chars (fun _ => ("id", 0%Q))
            (App.Service (Message 0 (fragment input "lo")))
            (App.perform part_001 chars (fun _ => ("id", 0%Q)) App.ClearHistory
               (App.setTranscripts
                  (fun _ => [App.Build_TranscriptItem "id" "Hi" input 0%Q]) App.mounted,
                run part_001 chars [Message 0 (fragment input "Hel")] listening)))) =
  "Hello".
Proof.
  refine (proj2 (proj2 (proj2
    (clearHistory_mid_turn chars (fun _ => ("id", 0%Q)) (fun _ => ("id", 0%Q)) 0
       (fragment input "lo") "lo"
       (App.setTranscripts (fun _ => [App.Build_TranscriptItem "id" "Hi" input 0%Q])
          App.mounted)
       (run part_001 chars [Message 0 (fragment input "Hel")] listening) _ _ _ _)))).
  - discriminate.
  - reflexivity.
  - reflexivity.
  - intros (mt & H & _). discriminate H.
Defined.
